(** * LPC <-> LSP conversion (codec2, [src/lsp.c])

    A shallow embedding of [cheb_poly_eva], [lpc_to_lsp] and [lsp_to_lpc].

    - C [float] values are taken from an arithmetic interface [Arith]; the
      instance [binary32] is IEEE 754 single precision (round to nearest
      even, no contraction, no excess precision).  The order of single
      precision values is studied through their rank, the value in units
      of [2^-149].
    - C [int] values are [Z]; signed overflow is undefined behaviour.
    - Arrays are lists indexed from 0.  A block returned by [malloc] is a
      list of cells, each indeterminate until first written.  An access
      outside an array and a read of an indeterminate cell are undefined
      behaviour.
    - Loops take a budget [fuel] bounding the iterations of each single
      loop; they report the number of iterations they performed.
    - [acosf] and [cosf] come from the C library and are parameters. *)

From Stdlib Require Import ZArith List Bool Lia.
From Corelib Require Import SpecFloat.
Import ListNotations.

Set Implicit Arguments.
Open Scope Z_scope.

(** ** Results of running C code *)

Inductive outcome (A : Type) : Type :=
| Done (a : A)
| Undefined
| OutOfFuel.

Arguments Done {A} a.
Arguments Undefined {A}.
Arguments OutOfFuel {A}.

Definition bind {A B : Type} (c : outcome A) (k : A -> outcome B) : outcome B :=
  match c with
  | Done a => k a
  | Undefined => Undefined
  | OutOfFuel => OutOfFuel
  end.

Notation "x <- c ;; k" := (bind c (fun x => k))
  (at level 61, c at next level, right associativity).

(** ** C [int] *)

Definition INT_MAX : Z := 2147483647.
Definition INT_MIN : Z := -2147483648.

Definition in_int (z : Z) : bool := (INT_MIN <=? z) && (z <=? INT_MAX).

Definition int_add (a b : Z) : outcome Z :=
  if in_int (a + b) then Done (a + b) else Undefined.

Definition int_mul (a b : Z) : outcome Z :=
  if in_int (a * b) then Done (a * b) else Undefined.

(** ** Arrays *)

Fixpoint update {A : Type} (l : list A) (n : nat) (v : A) : list A :=
  match l, n with
  | [], _ => []
  | _ :: t, O => v :: t
  | h :: t, S n' => h :: update t n' v
  end.

Definition load {A : Type} (buf : list A) (i : Z) : outcome A :=
  if 0 <=? i then
    match nth_error buf (Z.to_nat i) with
    | Some v => Done v
    | None => Undefined
    end
  else Undefined.

Definition store {A : Type} (buf : list A) (i : Z) (v : A) : outcome (list A) :=
  if (0 <=? i) && (i <? Z.of_nat (length buf))
  then Done (update buf (Z.to_nat i) v)
  else Undefined.

(** A cell of a block obtained from [malloc]: [None] while indeterminate. *)
Definition cell (F : Type) : Type := option F.

Definition load_cell {F : Type} (buf : list (cell F)) (i : Z) : outcome F :=
  c <- load buf i ;;
  match c with
  | Some v => Done v
  | None => Undefined
  end.

Definition store_cell {F : Type} (buf : list (cell F)) (i : Z) (v : F)
  : outcome (list (cell F)) :=
  store buf i (Some v).

(** [malloc (n * sizeof(float))] for an [int] count [n].  A negative count
    converts to a size above [PTRDIFF_MAX] and is refused; any other request
    is taken to succeed, one of size 0 with a block of no cells. *)
Definition malloc (F : Type) (n : Z) : option (list (cell F)) :=
  if n <? 0 then None else Some (repeat None (Z.to_nat n)).

(** ** Loops *)

(** [while (cond) body], at most [fuel - 1] iterations. *)
Fixpoint while_loop {St : Type} (fuel : nat) (cond : St -> bool)
  (body : St -> outcome St) (s : St) : outcome (St * nat) :=
  match fuel with
  | O => OutOfFuel
  | S fuel' =>
      if cond s then
        s' <- body s ;;
        r <- while_loop fuel' cond body s' ;;
        Done (fst r, S (snd r))
      else Done (s, O)
  end.

(** [for (i = lo; cond; i++) body]. *)
Definition for_loop {St : Type} (fuel : nat) (lo : Z) (cond : Z -> bool)
  (body : Z -> St -> outcome St) (s : St) : outcome (St * nat) :=
  r <- while_loop fuel (fun p => cond (fst p))
         (fun p => s' <- body (fst p) (snd p) ;;
                   i' <- int_add (fst p) 1 ;;
                   Done (i', s'))
         (lo, s) ;;
  Done (snd (fst r), snd r).

(** ** Arithmetic of [float] *)

Class Arith (F : Type) : Type := {
  of_int : Z -> F;
  half : F;
  fadd : F -> F -> F;
  fsub : F -> F -> F;
  fmul : F -> F -> F;
  fdiv : F -> F -> F;
  flt : F -> F -> bool;
  fle : F -> F -> bool;
  feq : F -> F -> bool
}.

Definition fgt {F : Type} {AF : Arith F} (a b : F) : bool := flt b a.
Definition fge {F : Type} {AF : Arith F} (a b : F) : bool := fle b a.

(** IEEE 754 binary32. *)
Definition float32 : Type := spec_float.

(** The binary32 value nearest to [m * 2^e]. *)
Definition f32 (m e : Z) : float32 := binary_normalize 24 128 m e false.

Definition f32_of_int (z : Z) : float32 := f32 z 0.

#[export] Instance binary32 : Arith float32 := {
  of_int := f32_of_int;
  half := S754_finite false 8388608 (-24);
  fadd := SFadd 24 128;
  fsub := SFsub 24 128;
  fmul := SFmul 24 128;
  fdiv := SFdiv 24 128;
  flt := SFltb;
  fle := SFleb;
  feq := SFeqb
}.

Section Source.

Context {F : Type} {AF : Arith F}.

(** The C library's single precision inverse cosine and cosine. *)
Variable acosf : F -> F.
Variable cosf : F -> F.

Definition f0 : F := of_int 0.
Definition f1 : F := of_int 1.
Definition f2 : F := of_int 2.

(** *** [cheb_poly_eva] (lsp.c, lines 89-122) *)

(** Body of [for (i = 2; i <= order / 2; i++)]: the state is the block [T]
    and the offsets of [t], [u], [v] in it. *)
Definition cheb_fill (x : F) (s : list (cell F) * Z * Z * Z)
  : outcome (list (cell F) * Z * Z * Z) :=
  let '(T, t, u, v) := s in
  tu <- load_cell T u ;;
  tt <- load_cell T t ;;
  T' <- store_cell T v (fsub (fmul (fmul f2 x) tu) tt) ;;
  Done (T', t + 1, u + 1, v + 1).

(** Body of [for (i = 0; i <= order / 2; i++)]: the state is [sum] and the
    offset of [t]; [T] is only read. *)
Definition cheb_acc (coef T : list (cell F)) (order : Z) (i : Z) (s : F * Z)
  : outcome (F * Z) :=
  let '(sum, t) := s in
  c <- load_cell coef (Z.quot order 2 - i) ;;
  tv <- load_cell T t ;;
  Done (fadd sum (fmul c tv), t + 1).

Definition cheb_poly_eva (fuel : nat) (coef : list (cell F)) (x : F) (order : Z)
  : outcome F :=
  match malloc F (Z.quot order 2 + 1) with
  | None => Done f0
  | Some T =>
      let t := 0 in
      T <- store_cell T t f1 ;;
      let t := t + 1 in
      let u := t in
      let t := t - 1 in
      T <- store_cell T u x ;;
      let u := u + 1 in
      let v := u in
      let u := u - 1 in
      r <- for_loop fuel 2 (fun i => i <=? Z.quot order 2)
             (fun _ s => cheb_fill x s) (T, t, u, v) ;;
      let T := fst (fst (fst (fst r))) in
      let sum := f0 in
      let t := 0 in
      r <- for_loop fuel 0 (fun i => i <=? Z.quot order 2)
             (cheb_acc coef T order) (sum, t) ;;
      Done (fst (fst r))
  end.

(** *** [lpc_to_lsp] (lsp.c, lines 134-238) *)

(** Lines 166-185: the coefficients of P'(z) and Q'(z).  [P] and [Q] are the
    two blocks of [order + 1] cells.  The state of the first loop is the two
    blocks and the offsets of [px], [qx], [p], [q]. *)
Definition decompose_step (a : list F) (order : Z) (i : Z)
  (s : list (cell F) * list (cell F) * Z * Z * Z * Z)
  : outcome (list (cell F) * list (cell F) * Z * Z * Z * Z) :=
  let '(P, Q, px, qx, p, q) := s in
  ai <- load a i ;;
  aj <- load a (order + 1 - i) ;;
  pv <- load_cell P p ;;
  P' <- store_cell P px (fsub (fadd ai aj) pv) ;;
  qv <- load_cell Q q ;;
  Q' <- store_cell Q qx (fadd (fsub ai aj) qv) ;;
  Done (P', Q', px + 1, qx + 1, p + 1, q + 1).

(** Body of [for (i = 0; i < m; i++)]: the state is the two blocks and the
    offsets of [px] and [qx]. *)
Definition double_step (s : list (cell F) * list (cell F) * Z * Z)
  : outcome (list (cell F) * list (cell F) * Z * Z) :=
  let '(P, Q, px, qx) := s in
  pv <- load_cell P px ;;
  P' <- store_cell P px (fmul f2 pv) ;;
  qv <- load_cell Q qx ;;
  Q' <- store_cell Q qx (fmul f2 qv) ;;
  Done (P', Q', px + 1, qx + 1).

Definition decompose (fuel : nat) (a : list F) (order : Z)
  (P Q : list (cell F)) : outcome (list (cell F) * list (cell F)) :=
  let m := Z.quot order 2 in
  let px := 0 in
  let qx := 0 in
  let p := px in
  let q := qx in
  P <- store_cell P px f1 ;;
  let px := px + 1 in
  Q <- store_cell Q qx f1 ;;
  let qx := qx + 1 in
  r <- for_loop fuel 1 (fun i => i <=? m) (decompose_step a order)
         (P, Q, px, qx, p, q) ;;
  let '(P, Q, _, _, _, _) := fst r in
  let px := 0 in
  let qx := 0 in
  r <- for_loop fuel 0 (fun i => i <? m) (fun _ s => double_step s)
         (P, Q, px, qx) ;;
  let '(P, Q, _, _) := fst r in
  Done (P, Q).

(** Lines 208-218: the variables the bisection loop reads and writes.
    [psumr] and [psumm] are written there too, but never read before they
    are written again. *)
Record bracket : Type := {
  b_psuml : F;
  b_xl : F;
  b_xr : F;
  b_xm : F
}.

(** Body of [for (k = 0; k <= nb; k++)]. *)
Definition bisect_step (fuel : nat) (pt : list (cell F)) (order : Z)
  (b : bracket) : outcome bracket :=
  let xm := fdiv (fadd (b_xl b) (b_xr b)) f2 in
  psumm <- cheb_poly_eva fuel pt xm order ;;
  if fgt (fmul psumm (b_psuml b)) f0
  then Done {| b_psuml := psumm; b_xl := xm; b_xr := b_xr b; b_xm := xm |}
  else Done {| b_psuml := b_psuml b; b_xl := b_xl b; b_xr := xm; b_xm := xm |}.

Definition bisection (fuel : nat) (pt : list (cell F)) (order nb : Z)
  (b : bracket) : outcome (bracket * nat) :=
  for_loop fuel 0 (fun k => k <=? nb) (fun _ b => bisect_step fuel pt order b) b.

(** The variables live across the iterations of the root index loop. *)
Record search : Type := {
  xl : F;
  xr : F;
  xm : F;
  roots : Z;
  freq : list F
}.

(** The variables of the grid search of one root index. *)
Record grid : Type := {
  psuml : F;
  flag : Z;
  g : search
}.

(** Body of [while (flag && (xr >= -1.0f))] for root index [j]. *)
Definition grid_step (fuel : nat) (pt : list (cell F)) (order nb : Z)
  (delta : F) (j : Z) (s : grid) : outcome grid :=
  let xr' := fsub (xl (g s)) delta in
  psumr <- cheb_poly_eva fuel pt xr' order ;;
  if flt (fmul psumr (psuml s)) f0 || feq psumr f0 then
    roots' <- int_add (roots (g s)) 1 ;;
    r <- bisection fuel pt order nb
           {| b_psuml := psuml s; b_xl := xl (g s); b_xr := xr';
              b_xm := xm (g s) |} ;;
    let b := fst r in
    freq' <- store (freq (g s)) j (b_xm b) ;;
    Done {| psuml := b_psuml b; flag := 0;
            g := {| xl := b_xm b; xr := b_xr b; xm := b_xm b;
                    roots := roots'; freq := freq' |} |}
  else
    Done {| psuml := psumr; flag := flag s;
            g := {| xl := xr'; xr := xr'; xm := xm (g s);
                    roots := roots (g s); freq := freq (g s) |} |}.

Definition grid_cond (s : grid) : bool :=
  negb (flag s =? 0) && fge (xr (g s)) (of_int (-1)).

Definition grid_search (fuel : nat) (pt : list (cell F)) (order nb : Z)
  (delta : F) (j : Z) (s : grid) : outcome (grid * nat) :=
  while_loop fuel grid_cond (grid_step fuel pt order nb delta j) s.

(** Body of [for (j = 0; j < order; j++)]; [P] and [Q] are [px] and [qx]. *)
Definition root_step (fuel : nat) (P Q : list (cell F)) (order nb : Z)
  (delta : F) (j : Z) (s : search) : outcome search :=
  let pt := if negb (Z.rem j 2 =? 0) then Q else P in
  psuml0 <- cheb_poly_eva fuel pt (xl s) order ;;
  r <- grid_search fuel pt order nb delta j
         {| psuml := psuml0; flag := 1; g := s |} ;;
  Done (g (fst r)).

(** Lines 189-228. *)
Definition root_search (fuel : nat) (P Q : list (cell F)) (order nb : Z)
  (delta : F) (freq0 : list F) : outcome (search * nat) :=
  for_loop fuel 0 (fun j => j <? order) (root_step fuel P Q order nb delta)
    {| xl := f1; xr := f0; xm := f0; roots := 0; freq := freq0 |}.

(** Lines 231-233. *)
Definition to_radians (fuel : nat) (order : Z) (freq0 : list F)
  : outcome (list F * nat) :=
  for_loop fuel 0 (fun i => i <? order)
    (fun i fr => x <- load fr i ;; store fr i (acosf x)) freq0.

(** The result is the returned [int] and the contents of [freq]. *)
Definition lpc_to_lsp (fuel : nat) (a : list F) (order : Z) (freq0 : list F)
  (nb : Z) (delta : F) : outcome (Z * list F) :=
  n <- int_add order 1 ;;
  match malloc F n, malloc F n with
  | Some Q, Some P =>
      PQ <- decompose fuel a order P Q ;;
      r <- root_search fuel (fst PQ) (snd PQ) order nb delta freq0 ;;
      fr <- to_radians fuel order (freq (fst r)) ;;
      Done (roots (fst r), fst fr)
  | _, _ => Done (-1, freq0)
  end.

(** *** [lsp_to_lpc] (lsp.c, lines 251-311) *)

(** The variables live across the iterations of the two nested loops.
    [n4] is a null pointer until the stage loop sets it. *)
Record cascade : Type := {
  xin1 : F;
  xin2 : F;
  Wp : list (cell F);
  n4 : option Z
}.

(** Body of [for (i = 0; i < (order / 2); i++)]; [pw] is offset 0 of [Wp]. *)
Definition stage (fr : list (cell F)) (i : Z) (s : cascade) : outcome cascade :=
  i4 <- int_mul i 4 ;;
  let n1 := 0 + i4 in
  let n2 := n1 + 1 in
  let n3 := n2 + 1 in
  let n4' := n3 + 1 in
  i2 <- int_mul 2 i ;;
  fa <- load_cell fr i2 ;;
  w1 <- load_cell (Wp s) n1 ;;
  w2 <- load_cell (Wp s) n2 ;;
  let xout1 := fadd (fsub (xin1 s) (fmul (fmul f2 fa) w1)) w2 in
  i21 <- int_add i2 1 ;;
  fb <- load_cell fr i21 ;;
  w3 <- load_cell (Wp s) n3 ;;
  w4 <- load_cell (Wp s) n4' ;;
  let xout2 := fadd (fsub (xin2 s) (fmul (fmul f2 fb) w3)) w4 in
  W <- store_cell (Wp s) n2 w1 ;;
  w3' <- load_cell W n3 ;;
  W <- store_cell W n4' w3' ;;
  W <- store_cell W n1 (xin1 s) ;;
  W <- store_cell W n3 (xin2 s) ;;
  Done {| xin1 := xout1; xin2 := xout2; Wp := W; n4 := Some n4' |}.

(** Body of [for (j = 0; j <= order; j++)]: the state is the cascade
    variables and [ak]. *)
Definition clock (fuel : nat) (fr : list (cell F)) (order : Z) (j : Z)
  (s : cascade * list F) : outcome (cascade * list F) :=
  let '(c, ak) := s in
  r <- for_loop fuel 0 (fun i => i <? Z.quot order 2) (stage fr) c ;;
  let c := fst r in
  match n4 c with
  | None => Undefined
  | Some n =>
      t1 <- load_cell (Wp c) (n + 1) ;;
      let xout1 := fadd (xin1 c) t1 in
      t2 <- load_cell (Wp c) (n + 2) ;;
      let xout2 := fsub (xin2 c) t2 in
      ak' <- store ak j (fmul (fadd xout1 xout2) half) ;;
      W <- store_cell (Wp c) (n + 1) (xin1 c) ;;
      W <- store_cell W (n + 2) (xin2 c) ;;
      Done ({| xin1 := f0; xin2 := f0; Wp := W; n4 := n4 c |}, ak')
  end.

(** Line 270: [freq[i] = cosf(lsp[i])]. *)
Definition to_x_domain (fuel : nat) (lsp : list F) (order : Z)
  (fr : list (cell F)) : outcome (list (cell F) * nat) :=
  for_loop fuel 0 (fun i => i <? order)
    (fun i fr => w <- load lsp i ;; store_cell fr i (cosf w)) fr.

(** Lines 272-276: the zeroing of [Wp]; the state is the block and the
    offset of [pw]. *)
Definition zero_fill (fuel : nat) (order : Z) (W : list (cell F))
  : outcome (list (cell F) * nat) :=
  h <- int_mul 4 (Z.quot order 2) ;;
  hi <- int_add h 1 ;;
  r <- for_loop fuel 0 (fun i => i <=? hi)
         (fun _ s => W' <- store_cell (fst s) (snd s) f0 ;; Done (W', snd s + 1))
         (W, 0) ;;
  Done (fst (fst r), snd r).

(** The loop [for (j = lo; j <= hi; j++)] of lines 285-307; the source runs
    it from 0 to [order]. *)
Definition clock_loop (fuel : nat) (fr : list (cell F)) (order lo hi : Z)
  (s : cascade * list F) : outcome (cascade * list F * nat) :=
  for_loop fuel lo (fun j => j <=? hi) (clock fuel fr order) s.

(** The result is the contents of [ak]. *)
Definition lsp_to_lpc (fuel : nat) (lsp : list F) (ak : list F) (order : Z)
  : outcome (list F) :=
  o4 <- int_mul order 4 ;;
  n <- int_add o4 2 ;;
  match malloc F order, malloc F n with
  | Some fr, Some W =>
      r <- to_x_domain fuel lsp order fr ;;
      let fr := fst r in
      z <- zero_fill fuel order W ;;
      let W := fst z in
      r <- clock_loop fuel fr order 0 order
             ({| xin1 := f1; xin2 := f1; Wp := W; n4 := None |}, ak) ;;
      Done (snd (fst r))
  | _, _ => Done ak
  end.

End Source.

(** ** The specification's formulas *)

Section Formulas.

Context {F : Type} {AF : Arith F}.

(** [T_0 = 1], [T_1 = x], [T_i = 2x T_{i-1} - T_{i-2}]. *)
Fixpoint cheb_T (x : F) (i : nat) : F :=
  match i with
  | O => f1
  | S j =>
      match j with
      | O => x
      | S k => fsub (fmul (fmul f2 x) (cheb_T x j)) (cheb_T x k)
      end
  end.

(** The sum over [i < n] of [c (m - i) * T_i(x)], accumulated from [0] in
    increasing [i]. *)
Fixpoint cheb_series (c : nat -> F) (x : F) (m n : nat) : F :=
  match n with
  | O => f0
  | S k => fadd (cheb_series c x m k) (fmul (c (m - k)%nat) (cheb_T x k))
  end.

(** [P'[0] = 1], [P'[i] = a[i] + a[order+1-i] - P'[i-1]]. *)
Fixpoint P_rec (a : list F) (order : Z) (i : nat) : F :=
  match i with
  | O => f1
  | S k =>
      fsub (fadd (nth i a f0) (nth (Z.to_nat (order + 1 - Z.of_nat i)) a f0))
        (P_rec a order k)
  end.

(** [Q'[0] = 1], [Q'[i] = a[i] - a[order+1-i] + Q'[i-1]]. *)
Fixpoint Q_rec (a : list F) (order : Z) (i : nat) : F :=
  match i with
  | O => f1
  | S k =>
      fadd (fsub (nth i a f0) (nth (Z.to_nat (order + 1 - Z.of_nat i)) a f0))
        (Q_rec a order k)
  end.

(** Every entry except the last, the one of index [m], is doubled. *)
Definition doubled (m : nat) (c : nat -> F) (i : nat) : F :=
  if (i <? m)%nat then fmul f2 (c i) else c i.

(** [n] halvings of a bracket, each one step of the bisection loop. *)
Fixpoint bisect_n (fuel : nat) (pt : list (cell F)) (order : Z) (n : nat)
  (b : bracket) : outcome bracket :=
  match n with
  | O => Done b
  | S k => b' <- bisect_step fuel pt order b ;; bisect_n fuel pt order k b'
  end.

(** The grid point reached from [x] by [n] steps of size [delta]. *)
Fixpoint grid_point (delta : F) (n : nat) (x : F) : F :=
  match n with
  | O => x
  | S k => grid_point delta k (fsub x delta)
  end.

(** A clamp of [x] to the interval from -1 to 1. *)
Definition clamp (x : F) : F :=
  if flt x (of_int (-1)) then of_int (-1)
  else if fgt x f1 then f1 else x.

End Formulas.

(** ** Auxiliary definitions *)

(** A block whose first [n] cells hold [f 0 .. f (n-1)] and whose other [k]
    cells are indeterminate. *)
Definition filled {F : Type} (f : nat -> F) (n k : nat) : list (cell F) :=
  map Some (map f (seq 0 n)) ++ repeat None k.

(** A block whose first [n] cells all hold a value. *)
Definition ready {F : Type} (W : list (cell F)) (n : nat) : Prop :=
  exists ws r, W = map Some ws ++ r /\ length ws = n.

(** The binary32 values that are numbers: zeros and finite values. *)
Definition finite32 (x : float32) : bool :=
  match x with
  | S754_zero _ | S754_finite _ _ _ => true
  | S754_infinity _ | S754_nan => false
  end.

(** ** Single precision values as integers *)

(** A binary32 number: any value but NaN, in its canonical form. *)
Definition number32 (x : float32) : bool :=
  match x with
  | S754_nan => false
  | _ => valid_binary 24 128 x
  end.

(** The rank of an infinity, and the least magnitude that rounds to it:
    binary32 values are integer multiples of [2^-149] below [2^128]. *)
Definition TOP : Z := 2 ^ 300.
Definition LIM : Z := 2 ^ 277.

(** The rank of 1.0. *)
Definition ONE : Z := 2 ^ 149.

Definition mag (m : positive) (e : Z) : Z := Z.pos m * 2 ^ (e + 149).

Definition signed (s : bool) (v : Z) : Z := if s then - v else v.

(** The rank of a binary32 number: its value in units of [2^-149], the
    infinities at [TOP] and [- TOP]. *)
Definition rank32 (x : float32) : Z :=
  match x with
  | S754_zero _ | S754_nan => 0
  | S754_infinity s => if s then - TOP else TOP
  | S754_finite s m e => if s then - mag m e else mag m e
  end.

(** [z / 2^k] rounded to the nearest integer, ties to even. *)
Definition rnd_at (k z : Z) : Z :=
  let q := z / 2 ^ k in
  match 2 * (z mod 2 ^ k) ?= 2 ^ k with
  | Lt => q
  | Eq => if Z.even q then q else q + 1
  | Gt => q + 1
  end.

(** The number of low bits that a magnitude [z] loses in binary32. *)
Definition rshift (z : Z) : Z := Z.max (Z.log2 z - 23) 0.

(** The magnitude [z] rounded to 24 significant bits, ... *)
Definition RN (z : Z) : Z := rnd_at (rshift z) z * 2 ^ rshift z.

(** ... with overflow, ... *)
Definition RNcap (z : Z) : Z := if LIM <=? RN z then TOP else RN z.

(** ... and with a sign: the rank nearest to [z]. *)
Definition round32 (z : Z) : Z :=
  if LIM <=? RN (Z.abs z) then Z.sgn z * TOP else Z.sgn z * RN (Z.abs z).

(** The rank nearest to half of [r]. *)
Definition half_rank (r : Z) : Z :=
  if TOP <=? Z.abs r then r else Z.sgn r * rnd_at 1 (Z.abs r).

(** The integers that are ranks. *)
Definition is_rank (r : Z) : Prop :=
  (exists m j, 0 <= m < 2 ^ 24 /\ 0 <= j /\ Z.abs r = m * 2 ^ j) /\
  (Z.abs r < LIM \/ Z.abs r = TOP).

(** The position of a remainder [rho] in a step of [P]. *)
Definition loc_of (rho P : Z) : location :=
  if rho =? 0 then loc_Exact else loc_Inexact (2 * rho ?= P).

(** [r] is [z] shifted right by [k] bits, with the position of [z] between
    the two neighbouring multiples of [2^k]. *)
Definition locates (z k : Z) (r : shr_record) : Prop :=
  0 <= shr_m r /\
  0 <= z - shr_m r * 2 ^ k < 2 ^ k /\
  loc_of_shr_record r = loc_of (z - shr_m r * 2 ^ k) (2 ^ k).

(** The last stage of [binary_round_aux]: renormalise the rounded mantissa
    [q] at exponent [t] and detect overflow. *)
Definition finish32 (s : bool) (q t : Z) : float32 :=
  let '(mrs, e) := shr_fexp 24 128 q t loc_Exact in
  match shr_m mrs with
  | Z0 => S754_zero s
  | Zpos m => if e <=? 128 - 24 then S754_finite s m e else S754_infinity s
  | _ => S754_nan
  end.

(** 2.0f *)
Definition two32 : float32 := S754_finite false 8388608 (-22).



(** The rank of [2^-19]. *)
Definition GAP : Z := 2 ^ 130.


(** [x] lies in a grid cell of width [delta] whose upper end is between
    -1 and 1, ends included. *)
Definition in_cell {F : Type} {AF : Arith F} (delta x : F) : Prop :=
  exists y, fle (of_int (-1)) y = true /\ fle y f1 = true /\
            fle (fsub y delta) x = true /\ fle x y = true.

(** * Proofs *)

Unset Implicit Arguments.

(** ** The outcome monad *)

Lemma bind_done {A B : Type} (c : outcome A) (k : A -> outcome B) (b : B) :
  bind c k = Done b -> exists a, c = Done a /\ k a = Done b.
Proof.
  destruct c as [a| |]; simpl; intros H; try discriminate.
  exists a; split; [reflexivity | exact H].
Qed.

Ltac inv_bind H :=
  let a := fresh "v" in
  let Ha := fresh "E" in
  apply bind_done in H; destruct H as (a & Ha & H).

(** ** [int] *)

Lemma int_add_done (a b : Z) :
  INT_MIN <= a + b <= INT_MAX -> int_add a b = Done (a + b).
Proof.
  intros H. unfold int_add, in_int.
  destruct (Z.leb_spec INT_MIN (a + b)); [|lia].
  destruct (Z.leb_spec (a + b) INT_MAX); [reflexivity|lia].
Qed.

Lemma int_add_inv (a b r : Z) : int_add a b = Done r -> r = a + b.
Proof.
  unfold int_add. destruct (in_int (a + b)); congruence.
Qed.

Lemma int_mul_done (a b : Z) :
  INT_MIN <= a * b <= INT_MAX -> int_mul a b = Done (a * b).
Proof.
  intros H. unfold int_mul, in_int.
  destruct (Z.leb_spec INT_MIN (a * b)); [|lia].
  destruct (Z.leb_spec (a * b) INT_MAX); [reflexivity|lia].
Qed.

(** ** Arrays *)

Lemma update_length {A : Type} (l : list A) (n : nat) (v : A) :
  length (update l n v) = length l.
Proof.
  revert n; induction l as [|h t IH]; intros [|n]; simpl; auto.
Qed.

Lemma update_app_l {A : Type} (l r : list A) (n : nat) (v : A) :
  (n < length l)%nat -> update (l ++ r) n v = update l n v ++ r.
Proof.
  revert n; induction l as [|h t IH]; intros [|n]; simpl; intros H;
    try lia; auto.
  rewrite IH by lia. reflexivity.
Qed.

Lemma update_app_next {A : Type} (l r : list A) (c v : A) :
  update (l ++ c :: r) (length l) v = (l ++ [v]) ++ r.
Proof.
  induction l as [|h t IH]; simpl; [reflexivity|].
  rewrite IH. reflexivity.
Qed.

Lemma update_map {A B : Type} (f : A -> B) (l : list A) (n : nat) (v : A) :
  update (map f l) n (f v) = map f (update l n v).
Proof.
  revert n; induction l as [|h t IH]; intros [|n]; simpl; auto.
  rewrite IH. reflexivity.
Qed.

Lemma nth_error_update_same {A : Type} (l : list A) (n : nat) (v : A) :
  (n < length l)%nat -> nth_error (update l n v) n = Some v.
Proof.
  revert n; induction l as [|h t IH]; intros [|n]; simpl; intros H;
    try lia; auto.
  apply IH; lia.
Qed.

Lemma nth_error_update_other {A : Type} (l : list A) (n k : nat) (v : A) :
  n <> k -> nth_error (update l n v) k = nth_error l k.
Proof.
  revert n k; induction l as [|h t IH]; intros [|n] [|k]; simpl; intros H;
    try congruence; auto.
Qed.

Lemma load_done {A : Type} (buf : list A) (i : nat) (v : A) :
  nth_error buf i = Some v -> load buf (Z.of_nat i) = Done v.
Proof.
  intros H. unfold load.
  destruct (Z.leb_spec 0 (Z.of_nat i)); [|lia].
  rewrite Nat2Z.id, H. reflexivity.
Qed.

Lemma load_nth {A : Type} (buf : list A) (i : Z) (d : A) :
  0 <= i < Z.of_nat (length buf) -> load buf i = Done (nth (Z.to_nat i) buf d).
Proof.
  intros H. rewrite <- (Z2Nat.id i) at 1 by lia.
  apply load_done. apply nth_error_nth'. lia.
Qed.

Lemma store_done {A : Type} (buf : list A) (i : Z) (v : A) :
  0 <= i < Z.of_nat (length buf) ->
  store buf i v = Done (update buf (Z.to_nat i) v).
Proof.
  intros H. unfold store.
  destruct (Z.leb_spec 0 i); [|lia].
  destruct (Z.ltb_spec i (Z.of_nat (length buf))); [reflexivity|lia].
Qed.

Lemma store_inv {A : Type} (buf buf' : list A) (i : Z) (v : A) :
  store buf i v = Done buf' ->
  0 <= i < Z.of_nat (length buf) /\ buf' = update buf (Z.to_nat i) v.
Proof.
  unfold store.
  destruct (Z.leb_spec 0 i) as [Hi|Hi]; simpl; try discriminate.
  destruct (Z.ltb_spec i (Z.of_nat (length buf))) as [Hl|Hl]; try discriminate.
  intros E; inversion E; subst. split; [lia|reflexivity].
Qed.

Lemma load_cell_done {F : Type} (vs : list F) (r : list (cell F)) (i : Z) (d : F) :
  0 <= i < Z.of_nat (length vs) ->
  load_cell (map Some vs ++ r) i = Done (nth (Z.to_nat i) vs d).
Proof.
  intros H. unfold load_cell.
  rewrite <- (Z2Nat.id i) at 1 by lia.
  rewrite (@load_done _ _ _ (Some (nth (Z.to_nat i) vs d))); [reflexivity|].
  rewrite nth_error_app1 by (rewrite length_map; lia).
  rewrite nth_error_map, (nth_error_nth' vs d) by lia. reflexivity.
Qed.

Lemma store_cell_done {F : Type} (vs : list F) (r : list (cell F)) (i : Z) (v : F) :
  0 <= i < Z.of_nat (length vs) ->
  store_cell (map Some vs ++ r) i v
  = Done (map Some (update vs (Z.to_nat i) v) ++ r).
Proof.
  intros H. unfold store_cell.
  rewrite store_done by (rewrite length_app, length_map; lia).
  rewrite update_app_l by (rewrite length_map; lia).
  rewrite update_map. reflexivity.
Qed.

Lemma store_cell_next {F : Type} (vs : list F) (c : cell F) (r : list (cell F))
  (i : Z) (v : F) :
  i = Z.of_nat (length vs) ->
  store_cell (map Some vs ++ c :: r) i v = Done (map Some (vs ++ [v]) ++ r).
Proof.
  intros ->. unfold store_cell.
  rewrite store_done by (rewrite length_app, length_map; simpl; lia).
  rewrite Nat2Z.id.
  replace (length vs) with (length (map (@Some F) vs)) by apply length_map.
  rewrite update_app_next, map_app. reflexivity.
Qed.

(** ** Loop rules *)

Section LoopRules.

Context {St : Type}.

Lemma while_loop_inv (Inv : St -> Prop) (cond : St -> bool)
  (body : St -> outcome St) :
  (forall s s', Inv s -> cond s = true -> body s = Done s' -> Inv s') ->
  forall fuel s s' n,
    Inv s -> while_loop fuel cond body s = Done (s', n) ->
    Inv s' /\ cond s' = false.
Proof.
  intros Hstep. induction fuel as [|fuel IH]; simpl; intros s s' n Hs H;
    [discriminate|].
  destruct (cond s) eqn:Hc.
  - inv_bind H. inv_bind H. inversion H; subst; clear H.
    destruct v0 as [s2 k]; simpl.
    apply (IH v s2 k); [eapply Hstep; eauto | assumption].
  - inversion H; subst. split; assumption.
Qed.

Lemma while_loop_count (cond : St -> bool) (body : St -> outcome St) :
  forall fuel s s' n,
    while_loop fuel cond body s = Done (s', n) -> (n < fuel)%nat.
Proof.
  induction fuel as [|fuel IH]; simpl; intros s s' n H; [discriminate|].
  destruct (cond s).
  - inv_bind H. inv_bind H. inversion H; subst; clear H.
    destruct v0 as [s2 k]; simpl. apply IH in E0. lia.
  - inversion H; subst. lia.
Qed.

(** A loop whose condition fails after at most [n] iterations of a body
    that never fails returns, given a budget above [n]. *)
Lemma while_loop_run (Inv : St -> Prop) (rank : St -> nat)
  (cond : St -> bool) (body : St -> outcome St) :
  (forall s, Inv s -> cond s = true ->
     exists s', body s = Done s' /\ Inv s' /\ (rank s' < rank s)%nat) ->
  forall fuel s,
    Inv s -> (rank s < fuel)%nat ->
    exists s' n, while_loop fuel cond body s = Done (s', n) /\
                 Inv s' /\ cond s' = false /\ (n + rank s' <= rank s)%nat.
Proof.
  intros Hstep. induction fuel as [|fuel IH]; intros s Hs Hf; [lia|].
  simpl. destruct (cond s) eqn:Hc.
  - destruct (Hstep s Hs Hc) as (s1 & Hb & Hi & Hr).
    destruct (IH s1 Hi ltac:(lia)) as (s' & n & Hw & Hi' & Hc' & Hn).
    exists s', (S n). rewrite Hb; simpl. rewrite Hw; simpl.
    repeat split; auto; lia.
  - exists s, O. repeat split; auto.
Qed.

Lemma for_loop_inv (Inv : Z -> St -> Prop) (cond : Z -> bool)
  (body : Z -> St -> outcome St) :
  (forall i s s', Inv i s -> cond i = true -> body i s = Done s' ->
     Inv (i + 1) s') ->
  forall fuel lo s s' n,
    Inv lo s -> for_loop fuel lo cond body s = Done (s', n) ->
    Inv (lo + Z.of_nat n) s' /\ cond (lo + Z.of_nat n) = false.
Proof.
  intros Hstep fuel lo s s' n Hs H. unfold for_loop in H.
  inv_bind H. inversion H; subst; clear H.
  destruct v as [[i s2] k]; simpl.
  assert (G : forall fuel p p' k,
             Inv (fst p) (snd p) ->
             while_loop fuel (fun p => cond (fst p))
               (fun p => s' <- body (fst p) (snd p) ;;
                         i' <- int_add (fst p) 1 ;; Done (i', s')) p
             = Done (p', k) ->
             fst p' = fst p + Z.of_nat k /\ Inv (fst p') (snd p') /\
             cond (fst p') = false).
  { clear - Hstep. induction fuel as [|fuel IH]; simpl; intros p p' k Hp H;
      [discriminate|].
    destruct (cond (fst p)) eqn:Hc.
    - inv_bind H. inv_bind H. inversion H; subst; clear H.
      inv_bind E. inv_bind E. inversion E; subst; clear E.
      apply int_add_inv in E2; subst.
      destruct v0 as [p2 k2]; simpl.
      destruct (IH (fst p + 1, v1) p2 k2) as (H1 & H2 & H3); simpl; auto.
      { eapply Hstep; eauto. }
      simpl in H1. repeat split; auto. lia.
    - inversion H; subst. repeat split; auto. simpl. lia. }
  destruct (G fuel (lo, s) (i, s2) k Hs E) as (H1 & H2 & H3); simpl in *.
  subst i. split; assumption.
Qed.

Lemma for_loop_run (Inv : Z -> St -> Prop) (cond : Z -> bool)
  (body : Z -> St -> outcome St) (n : nat) :
  forall fuel lo s,
    (n < fuel)%nat ->
    INT_MIN <= lo + 1 -> lo + Z.of_nat n <= INT_MAX ->
    (forall i, lo <= i < lo + Z.of_nat n -> cond i = true) ->
    cond (lo + Z.of_nat n) = false ->
    Inv lo s ->
    (forall i s, lo <= i < lo + Z.of_nat n -> Inv i s ->
       exists s', body i s = Done s' /\ Inv (i + 1) s') ->
    exists s', for_loop fuel lo cond body s = Done (s', n) /\
               Inv (lo + Z.of_nat n) s'.
Proof.
  induction n as [|n IH]; intros fuel lo s Hf Hlo Hhi Hc Hstop Hs Hbody.
  - destruct fuel as [|fuel]; [lia|].
    exists s. unfold for_loop; simpl.
    change (Z.of_nat 0) with 0 in *. rewrite Z.add_0_r in *.
    rewrite Hstop. simpl. auto.
  - destruct fuel as [|fuel]; [lia|].
    destruct (Hbody lo s ltac:(lia) Hs) as (s1 & Hb & Hi).
    destruct (IH fuel (lo + 1) s1) as (s' & Hl & Hi'); try lia; auto.
    { intros i Hi0. apply Hc. lia. }
    { rewrite <- Hstop. f_equal. lia. }
    { intros i s0 Hi0. apply Hbody. lia. }
    exists s'. split.
    + unfold for_loop in *; simpl. rewrite Hc by lia. rewrite Hb; simpl.
      rewrite int_add_done by lia. simpl.
      inv_bind Hl. rewrite E. simpl. inversion Hl; subst. reflexivity.
    + replace (lo + Z.of_nat (S n)) with (lo + 1 + Z.of_nat n) by lia.
      exact Hi'.
Qed.

End LoopRules.

(** ** [cheb_poly_eva] *)

Section Evaluator.

Context {F : Type} {AF : Arith F}.

Lemma nth_tabulate (f : nat -> F) (n k : nat) (d : F) :
  (k < n)%nat -> nth k (map f (seq 0 n)) d = f k.
Proof.
  intros H. rewrite (nth_indep _ d (f 0%nat)) by (rewrite length_map, length_seq; lia).
  rewrite map_nth, seq_nth by lia. reflexivity.
Qed.

Lemma tabulate_S (f : nat -> F) (n : nat) :
  map f (seq 0 (S n)) = map f (seq 0 n) ++ [f n].
Proof.
  rewrite seq_S, map_app. reflexivity.
Qed.

Lemma malloc_done (n : Z) :
  0 <= n -> malloc F n = Some (repeat None (Z.to_nat n)).
Proof.
  intros H. unfold malloc. destruct (Z.ltb_spec n 0); [lia|reflexivity].
Qed.

Lemma filled_load (f : nat -> F) (n k : nat) (i : Z) :
  0 <= i < Z.of_nat n -> load_cell (filled f n k) i = Done (f (Z.to_nat i)).
Proof.
  intros H. unfold filled.
  rewrite (@load_cell_done _ _ _ _ (f 0%nat)) by (rewrite length_map, length_seq; lia).
  rewrite nth_tabulate by lia. reflexivity.
Qed.

Lemma filled_store (f : nat -> F) (n k : nat) (i : Z) :
  i = Z.of_nat n ->
  store_cell (filled f n (S k)) i (f n) = Done (filled f (S n) k).
Proof.
  intros H. unfold filled. simpl repeat.
  rewrite store_cell_next by (rewrite length_map, length_seq; exact H).
  rewrite <- tabulate_S. reflexivity.
Qed.

(** The evaluator on a coefficient array whose entries [0 .. order/2] are
    [c 0 .. c (order/2)]: no access leaves the scratch block or [coef], and
    the result is the Chebyshev series. *)
Lemma cheb_poly_eva_series (fuel : nat) (coef : list (cell F)) (c : nat -> F)
  (x : F) (order : Z) :
  2 <= order <= INT_MAX ->
  (Z.to_nat (Z.quot order 2) + 1 < fuel)%nat ->
  (forall i, (i <= Z.to_nat (Z.quot order 2))%nat ->
             nth_error coef i = Some (Some (c i))) ->
  cheb_poly_eva fuel coef x order
  = Done (cheb_series c x (Z.to_nat (Z.quot order 2))
            (S (Z.to_nat (Z.quot order 2)))).
Proof.
  intros Ho Hf Hc. unfold cheb_poly_eva, INT_MAX in *.
  assert (Hm : 1 <= Z.quot order 2 <= 1073741823).
  { rewrite Z.quot_div_nonneg by lia.
    pose proof (Z_div_mod_eq_full order 2).
    pose proof (Z.mod_pos_bound order 2 ltac:(lia)). lia. }
  remember (Z.quot order 2) as M eqn:EM.
  remember (Z.to_nat M) as m eqn:Em.
  rewrite malloc_done by lia.
  replace (Z.to_nat (M + 1)) with (S (S (m - 1))) by lia.
  cbv zeta.
  change (store_cell (repeat None (S (S (m - 1)))) 0 f1)
    with (store_cell (filled (cheb_T x) 0 (S (S (m - 1)))) 0 (cheb_T x 0)).
  rewrite (filled_store (cheb_T x) 0 (S (m - 1)) 0) by reflexivity.
  cbn [bind].
  change (store_cell (filled (cheb_T x) 1 (S (m - 1))) (0 + 1) x)
    with (store_cell (filled (cheb_T x) 1 (S (m - 1))) (0 + 1) (cheb_T x 1)).
  rewrite (filled_store (cheb_T x) 1 (m - 1) (0 + 1)) by reflexivity.
  cbn [bind].
  destruct (@for_loop_run (list (cell F) * Z * Z * Z)
              (fun i s => s = (filled (cheb_T x) (Z.to_nat i) (m + 1 - Z.to_nat i),
                               i - 2, i - 1, i))
              (fun i => i <=? M) (fun _ s => cheb_fill x s) (m - 1) fuel 2
              (filled (cheb_T x) 2 (m - 1), 0 + 1 - 1, 0 + 1 + 1 - 1, 0 + 1 + 1))
    as (s1 & Hl1 & Hs1).
  1-3: unfold INT_MIN, INT_MAX; lia.
  1:{ intros i Hi. apply Z.leb_le. lia. }
  1:{ apply Z.leb_gt. lia. }
  1:{ replace (m + 1 - Z.to_nat 2)%nat with (m - 1)%nat by lia. reflexivity. }
  1:{ intros i s Hi ->. eexists. split; [|reflexivity].
      unfold cheb_fill.
      rewrite !filled_load by lia. cbn [bind].
      replace (m + 1 - Z.to_nat i)%nat with (S (m + 1 - Z.to_nat (i + 1))) by lia.
      replace (fsub (fmul (fmul f2 x) (cheb_T x (Z.to_nat (i - 1))))
                 (cheb_T x (Z.to_nat (i - 2))))
        with (cheb_T x (Z.to_nat i)).
      2:{ replace (Z.to_nat i) with (S (S (Z.to_nat (i - 2)))) by lia.
          replace (Z.to_nat (i - 1)) with (S (Z.to_nat (i - 2))) by lia.
          reflexivity. }
      rewrite filled_store by lia. cbn [bind].
      replace (S (Z.to_nat i)) with (Z.to_nat (i + 1)) by lia.
      replace (i - 2 + 1) with (i + 1 - 2) by lia.
      replace (i - 1 + 1) with (i + 1 - 1) by lia.
      reflexivity. }
  rewrite Hl1. cbn [bind]. subst s1. cbn [fst snd].
  replace (Z.to_nat (2 + Z.of_nat (m - 1))) with (S m) by lia.
  replace (m + 1 - S m)%nat with 0%nat by lia.
  destruct (@for_loop_run (F * Z)
              (fun i s => s = (cheb_series c x m (Z.to_nat i), i))
              (fun i => i <=? M) (cheb_acc coef (filled (cheb_T x) (S m) 0) order)
              (S m) fuel 0 (f0, 0))
    as (s2 & Hl2 & Hs2).
  1-3: unfold INT_MIN, INT_MAX; lia.
  1:{ intros i Hi. apply Z.leb_le. lia. }
  1:{ apply Z.leb_gt. lia. }
  1:{ reflexivity. }
  1:{ intros i s Hi ->. eexists. split; [|reflexivity].
      unfold cheb_acc. rewrite <- EM.
      unfold load_cell at 1.
      replace (M - i) with (Z.of_nat (m - Z.to_nat i)) by lia.
      rewrite (load_done coef (m - Z.to_nat i) _ (Hc (m - Z.to_nat i)%nat ltac:(lia))).
      cbn [bind].
      rewrite filled_load by lia. cbn [bind].
      replace (Z.to_nat (i + 1)) with (S (Z.to_nat i)) by lia.
      reflexivity. }
  rewrite Hl2. cbn [bind]. subst s2. cbn [fst snd].
  replace (Z.to_nat (0 + Z.of_nat (S m))) with (S m) by lia.
  reflexivity.
Qed.

(** With [order / 2 = 0] the second initialisation, [*u++ = x], is a write
    outside the one-cell scratch block. *)
Lemma cheb_poly_eva_short (fuel : nat) (coef : list (cell F)) (x : F)
  (order : Z) :
  Z.quot order 2 = 0 -> cheb_poly_eva fuel coef x order = Undefined.
Proof.
  intros H. unfold cheb_poly_eva. rewrite H. reflexivity.
Qed.

End Evaluator.

(** ** The decomposition into P' and Q' *)

Section Decomposer.

Context {F : Type} {AF : Arith F}.

Lemma update_tabulate (f g : nat -> F) (v : F) :
  forall n s i,
    (i < n)%nat -> g (s + i)%nat = v ->
    (forall j, j <> (s + i)%nat -> g j = f j) ->
    update (map f (seq s n)) i v = map g (seq s n).
Proof.
  induction n as [|n IH]; intros s i Hi Hv Hg; [lia|].
  destruct i as [|i]; simpl.
  - rewrite Nat.add_0_r in *. f_equal; [congruence|].
    apply map_ext_in. intros j Hj. apply in_seq in Hj.
    symmetry. apply Hg. lia.
  - f_equal; [symmetry; apply Hg; lia|].
    apply IH; [lia | rewrite <- Hv; f_equal; lia |].
    intros j Hj. apply Hg. lia.
Qed.

Lemma filled_update (f g : nat -> F) (n k : nat) (i : Z) (v : F) :
  0 <= i < Z.of_nat n -> g (Z.to_nat i) = v ->
  (forall j, j <> Z.to_nat i -> g j = f j) ->
  store_cell (filled f n k) i v = Done (filled g n k).
Proof.
  intros Hi Hv Hg. unfold filled.
  rewrite store_cell_done by (rewrite length_map, length_seq; lia).
  rewrite (update_tabulate f g v) by (simpl; auto; lia).
  reflexivity.
Qed.

Lemma filled_ext (f g : nat -> F) (n k : nat) :
  (forall j, (j < n)%nat -> f j = g j) -> filled f n k = filled g n k.
Proof.
  intros H. unfold filled. f_equal. f_equal.
  apply map_ext_in. intros j Hj. apply in_seq in Hj. apply H. lia.
Qed.

Lemma quot2_bounds (order : Z) :
  0 <= order -> 0 <= Z.quot order 2 /\ 2 * Z.quot order 2 <= order.
Proof.
  intros H. rewrite Z.quot_div_nonneg by lia.
  pose proof (Z_div_mod_eq_full order 2).
  pose proof (Z.mod_pos_bound order 2 ltac:(lia)). lia.
Qed.

(** The two blocks after lines 166-185. *)
Lemma decompose_blocks (fuel : nat) (a : list F) (order : Z) :
  0 <= order < INT_MAX ->
  order + 1 <= Z.of_nat (length a) ->
  (Z.to_nat (Z.quot order 2) + 1 < fuel)%nat ->
  let m := Z.to_nat (Z.quot order 2) in
  decompose fuel a order (repeat None (Z.to_nat (order + 1)))
    (repeat None (Z.to_nat (order + 1)))
  = Done (filled (doubled m (P_rec a order)) (S m) (Z.to_nat order - m),
          filled (doubled m (Q_rec a order)) (S m) (Z.to_nat order - m)).
Proof.
  intros Ho Ha Hf m. unfold decompose, INT_MAX in *.
  destruct (quot2_bounds order ltac:(lia)) as [HM0 HM1].
  remember (Z.quot order 2) as M eqn:EM.
  assert (Em : m = Z.to_nat M) by reflexivity. clearbody m.
  cbv zeta.
  replace (Z.to_nat (order + 1)) with (S (Z.to_nat order)) by lia.
  change (store_cell (repeat None (S (Z.to_nat order))) 0 f1)
    with (store_cell (filled (P_rec a order) 0 (S (Z.to_nat order))) 0
            (P_rec a order 0)) at 1.
  rewrite filled_store by reflexivity. cbn [bind].
  change (store_cell (repeat None (S (Z.to_nat order))) 0 f1)
    with (store_cell (filled (Q_rec a order) 0 (S (Z.to_nat order))) 0
            (Q_rec a order 0)).
  rewrite filled_store by reflexivity. cbn [bind].
  destruct (@for_loop_run
              (list (cell F) * list (cell F) * Z * Z * Z * Z)
              (fun i s =>
                 s = (filled (P_rec a order) (Z.to_nat i)
                        (Z.to_nat order + 1 - Z.to_nat i),
                      filled (Q_rec a order) (Z.to_nat i)
                        (Z.to_nat order + 1 - Z.to_nat i),
                      i, i, i - 1, i - 1))
              (fun i => i <=? M) (decompose_step a order) m fuel 1
              (filled (P_rec a order) 1 (Z.to_nat order),
               filled (Q_rec a order) 1 (Z.to_nat order), 0 + 1, 0 + 1, 0, 0))
    as (s1 & Hl1 & Hs1).
  1-3: unfold INT_MIN, INT_MAX; lia.
  1:{ intros i Hi. apply Z.leb_le. lia. }
  1:{ apply Z.leb_gt. lia. }
  1:{ replace (Z.to_nat order + 1 - Z.to_nat 1)%nat with (Z.to_nat order) by lia.
      reflexivity. }
  1:{ intros i s Hi ->. eexists. split; [|reflexivity].
      unfold decompose_step.
      rewrite (load_nth a i f0) by lia. cbn [bind].
      rewrite (load_nth a (order + 1 - i) f0) by lia. cbn [bind].
      rewrite !filled_load by lia. cbn [bind].
      replace (Z.to_nat order + 1 - Z.to_nat i)%nat
        with (S (Z.to_nat order + 1 - Z.to_nat (i + 1))) by lia.
      replace (fsub (fadd (nth (Z.to_nat i) a f0)
                       (nth (Z.to_nat (order + 1 - i)) a f0))
                 (P_rec a order (Z.to_nat (i - 1))))
        with (P_rec a order (Z.to_nat i)).
      2:{ replace (Z.to_nat i) with (S (Z.to_nat (i - 1))) at 1 by lia.
          cbn [P_rec].
          replace (S (Z.to_nat (i - 1))) with (Z.to_nat i) by lia.
          rewrite Z2Nat.id by lia. reflexivity. }
      rewrite filled_store by lia. cbn [bind].
      replace (fadd (fsub (nth (Z.to_nat i) a f0)
                       (nth (Z.to_nat (order + 1 - i)) a f0))
                 (Q_rec a order (Z.to_nat (i - 1))))
        with (Q_rec a order (Z.to_nat i)).
      2:{ replace (Z.to_nat i) with (S (Z.to_nat (i - 1))) at 1 by lia.
          cbn [Q_rec].
          replace (S (Z.to_nat (i - 1))) with (Z.to_nat i) by lia.
          rewrite Z2Nat.id by lia. reflexivity. }
      rewrite filled_store by lia. cbn [bind].
      replace (S (Z.to_nat i)) with (Z.to_nat (i + 1)) by lia.
      replace (i + 1 - 1) with (i - 1 + 1) by lia.
      reflexivity. }
  rewrite Hl1. cbn [bind]. subst s1. cbn [fst snd].
  replace (Z.to_nat (1 + Z.of_nat m)) with (S m) by lia.
  replace (Z.to_nat order + 1 - S m)%nat with (Z.to_nat order - m)%nat by lia.
  destruct (@for_loop_run
              (list (cell F) * list (cell F) * Z * Z)
              (fun i s =>
                 s = (filled (doubled (Z.to_nat i) (P_rec a order)) (S m)
                        (Z.to_nat order - m),
                      filled (doubled (Z.to_nat i) (Q_rec a order)) (S m)
                        (Z.to_nat order - m),
                      i, i))
              (fun i => i <? M) (fun _ s => double_step s) m fuel 0
              (filled (P_rec a order) (S m) (Z.to_nat order - m),
               filled (Q_rec a order) (S m) (Z.to_nat order - m), 0, 0))
    as (s2 & Hl2 & Hs2).
  1-3: unfold INT_MIN, INT_MAX; lia.
  1:{ intros i Hi. apply Z.ltb_lt. lia. }
  1:{ apply Z.ltb_ge. lia. }
  1:{ reflexivity. }
  1:{ intros i s Hi ->. eexists. split; [|reflexivity].
      unfold double_step.
      rewrite filled_load by lia. cbn [bind].
      rewrite (filled_update (doubled (Z.to_nat i) (P_rec a order))
                 (doubled (Z.to_nat (i + 1)) (P_rec a order))).
      2: lia.
      2:{ unfold doubled.
          destruct (Nat.ltb_spec (Z.to_nat i) (Z.to_nat (i + 1))); [|lia].
          destruct (Nat.ltb_spec (Z.to_nat i) (Z.to_nat i)); [lia|].
          reflexivity. }
      2:{ intros j Hj. unfold doubled.
          destruct (Nat.ltb_spec j (Z.to_nat (i + 1)));
            destruct (Nat.ltb_spec j (Z.to_nat i)); try reflexivity; lia. }
      cbn [bind].
      rewrite filled_load by lia. cbn [bind].
      rewrite (filled_update (doubled (Z.to_nat i) (Q_rec a order))
                 (doubled (Z.to_nat (i + 1)) (Q_rec a order))).
      2: lia.
      2:{ unfold doubled.
          destruct (Nat.ltb_spec (Z.to_nat i) (Z.to_nat (i + 1))); [|lia].
          destruct (Nat.ltb_spec (Z.to_nat i) (Z.to_nat i)); [lia|].
          reflexivity. }
      2:{ intros j Hj. unfold doubled.
          destruct (Nat.ltb_spec j (Z.to_nat (i + 1)));
            destruct (Nat.ltb_spec j (Z.to_nat i)); try reflexivity; lia. }
      cbn [bind]. reflexivity. }
  rewrite Hl2. cbn [bind]. subst s2. cbn [fst snd].
  replace (Z.to_nat (0 + Z.of_nat m)) with m by lia.
  reflexivity.
Qed.

End Decomposer.

(** ** Unfolding a [for] loop *)

Section ForLoop.

Context {St : Type}.

Lemma for_loop_stop (fuel : nat) (lo : Z) (cond : Z -> bool)
  (body : Z -> St -> outcome St) (s : St) :
  cond lo = false -> for_loop (S fuel) lo cond body s = Done (s, O).
Proof.
  intros H. unfold for_loop. simpl. rewrite H. reflexivity.
Qed.

Lemma for_loop_step (fuel : nat) (lo : Z) (cond : Z -> bool)
  (body : Z -> St -> outcome St) (s : St) :
  cond lo = true -> INT_MIN <= lo + 1 <= INT_MAX ->
  for_loop (S fuel) lo cond body s
  = (s1 <- body lo s ;;
     r <- for_loop fuel (lo + 1) cond body s1 ;;
     Done (fst r, S (snd r))).
Proof.
  intros H Hi. unfold for_loop. simpl. rewrite H.
  destruct (body lo s) as [s1| |]; simpl; try reflexivity.
  rewrite int_add_done by exact Hi. simpl.
  destruct (while_loop fuel _ _ (lo + 1, s1)) as [[p k]| |]; reflexivity.
Qed.

End ForLoop.

(** ** The bisection loop *)

Section Bisection.

Context {F : Type} {AF : Arith F}.

Lemma bisection_from (fuel : nat) (pt : list (cell F)) (order nb : Z) :
  forall (n wf : nat) (lo : Z) (b : bracket),
    (n < wf)%nat -> INT_MIN <= lo + 1 -> nb < INT_MAX ->
    Z.of_nat n = Z.max 0 (nb + 1 - lo) ->
    for_loop wf lo (fun k => k <=? nb)
      (fun _ b => bisect_step fuel pt order b) b
    = (b' <- bisect_n fuel pt order n b ;; Done (b', n)).
Proof.
  induction n as [|n IH]; intros wf lo b Hf Hlo Hnb Hn;
    (destruct wf as [|wf]; [lia|]).
  - rewrite for_loop_stop by (apply Z.leb_gt; lia). reflexivity.
  - rewrite for_loop_step by (try apply Z.leb_le; lia).
    cbn [bisect_n].
    destruct (bisect_step fuel pt order b) as [b1| |]; cbn [bind];
      try reflexivity.
    rewrite IH by lia.
    destruct (bisect_n fuel pt order n b1); reflexivity.
Qed.

(** The loop [for (k = 0; k <= nb; k++)] is [nb + 1] bisection steps. *)
Lemma bisection_bisect_n (fuel : nat) (pt : list (cell F)) (order nb : Z)
  (b : bracket) :
  nb < INT_MAX -> (Z.to_nat (nb + 1) < fuel)%nat ->
  bisection fuel pt order nb b
  = (b' <- bisect_n fuel pt order (Z.to_nat (nb + 1)) b ;;
     Done (b', Z.to_nat (nb + 1))).
Proof.
  intros Hnb Hf. unfold bisection.
  apply bisection_from; unfold INT_MIN; lia.
Qed.

(** One step keeps one end of the bracket and moves the other one to the
    midpoint: the upper end when the polynomial has the sign of [psuml]
    there, the lower end otherwise. *)
Lemma bisect_step_halves (fuel : nat) (pt : list (cell F)) (order : Z)
  (b b' : bracket) :
  bisect_step fuel pt order b = Done b' ->
  let mid := fdiv (fadd (b_xl b) (b_xr b)) f2 in
  exists psumm,
    cheb_poly_eva fuel pt mid order = Done psumm /\
    b_xm b' = mid /\
    (if fgt (fmul psumm (b_psuml b)) f0
     then b_xl b' = mid /\ b_xr b' = b_xr b /\ b_psuml b' = psumm
     else b_xl b' = b_xl b /\ b_xr b' = mid /\ b_psuml b' = b_psuml b).
Proof.
  intros H. unfold bisect_step in H. cbv zeta in *.
  inv_bind H. exists v. split; [exact E|].
  destruct (fgt (fmul v (b_psuml b)) f0); inversion H; subst; simpl; auto.
Qed.

(** When every evaluation of [pt] is defined, so is any number of steps. *)
Lemma bisect_n_done (fuel : nat) (pt : list (cell F)) (order : Z) :
  (forall x, exists v, cheb_poly_eva fuel pt x order = Done v) ->
  forall n b, exists b', bisect_n fuel pt order n b = Done b'.
Proof.
  intros Hev. induction n as [|n IH]; intros b; simpl; [eauto|].
  unfold bisect_step.
  destruct (Hev (fdiv (fadd (b_xl b) (b_xr b)) f2)) as (v & ->). cbn [bind].
  destruct (fgt (fmul v (b_psuml b)) f0); cbn [bind]; apply IH.
Qed.

End Bisection.

(** ** The grid search of one root index *)

Section GridSearch.

Context {F : Type} {AF : Arith F}.

(** The branch taken on a bracket: count the root, bisect [nb + 1] times,
    record [xm], restart from [xm], clear [flag]. *)
Lemma grid_step_bracket (fuel : nat) (pt : list (cell F)) (order nb : Z)
  (delta : F) (j : Z) (s : grid) (psumr : F) :
  nb < INT_MAX -> (Z.to_nat (nb + 1) < fuel)%nat ->
  cheb_poly_eva fuel pt (fsub (xl (g s)) delta) order = Done psumr ->
  flt (fmul psumr (psuml s)) f0 || feq psumr f0 = true ->
  grid_step fuel pt order nb delta j s
  = (roots' <- int_add (roots (g s)) 1 ;;
     b <- bisect_n fuel pt order (Z.to_nat (nb + 1))
            {| b_psuml := psuml s; b_xl := xl (g s);
               b_xr := fsub (xl (g s)) delta; b_xm := xm (g s) |} ;;
     freq' <- store (freq (g s)) j (b_xm b) ;;
     Done {| psuml := b_psuml b; flag := 0;
             g := {| xl := b_xm b; xr := b_xr b; xm := b_xm b;
                     roots := roots'; freq := freq' |} |}).
Proof.
  intros Hnb Hf Hev Hbr. unfold grid_step. cbv zeta.
  rewrite Hev. cbn [bind]. rewrite Hbr.
  destruct (int_add (roots (g s)) 1); cbn [bind]; try reflexivity.
  rewrite bisection_bisect_n by assumption.
  destruct (bisect_n fuel pt order (Z.to_nat (nb + 1)) _); reflexivity.
Qed.

(** The other branch: move one grid step down. *)
Lemma grid_step_advance (fuel : nat) (pt : list (cell F)) (order nb : Z)
  (delta : F) (j : Z) (s : grid) (psumr : F) :
  cheb_poly_eva fuel pt (fsub (xl (g s)) delta) order = Done psumr ->
  flt (fmul psumr (psuml s)) f0 || feq psumr f0 = false ->
  grid_step fuel pt order nb delta j s
  = Done {| psuml := psumr; flag := flag s;
            g := {| xl := fsub (xl (g s)) delta; xr := fsub (xl (g s)) delta;
                    xm := xm (g s); roots := roots (g s);
                    freq := freq (g s) |} |}.
Proof.
  intros Hev Hbr. unfold grid_step. cbv zeta.
  rewrite Hev. cbn [bind]. rewrite Hbr. reflexivity.
Qed.

(** What one iteration of the grid search can do to the state. *)
Lemma grid_step_cases (fuel : nat) (pt : list (cell F)) (order nb : Z)
  (delta : F) (j : Z) (s s' : grid) :
  grid_step fuel pt order nb delta j s = Done s' ->
  (flag s' = 0 /\ roots (g s') = roots (g s) + 1 /\
   0 <= j < Z.of_nat (length (freq (g s))) /\
   freq (g s') = update (freq (g s)) (Z.to_nat j) (xm (g s')) /\
   xl (g s') = xm (g s') /\
   exists b k,
     bisection fuel pt order nb
       {| b_psuml := psuml s; b_xl := xl (g s);
          b_xr := fsub (xl (g s)) delta; b_xm := xm (g s) |} = Done (b, k) /\
     xm (g s') = b_xm b)
  \/
  (flag s' = flag s /\ roots (g s') = roots (g s) /\
   freq (g s') = freq (g s) /\ xm (g s') = xm (g s) /\
   xl (g s') = fsub (xl (g s)) delta /\ xr (g s') = fsub (xl (g s)) delta).
Proof.
  unfold grid_step. cbv zeta. intros H. inv_bind H.
  destruct (flt (fmul v (psuml s)) f0 || feq v f0).
  - left. inv_bind H. inv_bind H. inv_bind H.
    apply int_add_inv in E0. apply store_inv in E2. destruct E2 as [Hj Hu].
    inversion H; subst; clear H. cbn.
    repeat split; try lia.
    destruct v1 as [b k]. exists b, k. split; [exact E1|reflexivity].
  - right. inversion H; subst; clear H. cbn. repeat split.
Qed.

(** A grid search that starts with [flag = 1] finds at most one root, and
    [freq] keeps its length. *)
Lemma grid_search_roots (fuel : nat) (pt : list (cell F)) (order nb : Z)
  (delta : F) (j : Z) (s s' : grid) (k : nat) :
  grid_search fuel pt order nb delta j s = Done (s', k) ->
  flag s = 1 ->
  length (freq (g s')) = length (freq (g s)) /\
  ((flag s' = 1 /\ roots (g s') = roots (g s) /\ freq (g s') = freq (g s) /\
    xm (g s') = xm (g s))
   \/
   (flag s' = 0 /\ roots (g s') = roots (g s) + 1 /\
    0 <= j < Z.of_nat (length (freq (g s))) /\
    freq (g s') = update (freq (g s)) (Z.to_nat j) (xm (g s')) /\
    xl (g s') = xm (g s'))).
Proof.
  intros H Hfl. unfold grid_search in H.
  pose (Inv := fun t : grid =>
    length (freq (g t)) = length (freq (g s)) /\
    ((flag t = 1 /\ roots (g t) = roots (g s) /\ freq (g t) = freq (g s) /\
      xm (g t) = xm (g s))
     \/
     (flag t = 0 /\ roots (g t) = roots (g s) + 1 /\
      0 <= j < Z.of_nat (length (freq (g s))) /\
      freq (g t) = update (freq (g s)) (Z.to_nat j) (xm (g t)) /\
      xl (g t) = xm (g t)))).
  assert (Hs : Inv s) by (split; [reflexivity | left; auto]).
  destruct (while_loop_inv Inv grid_cond (grid_step fuel pt order nb delta j))
    with (fuel := fuel) (s := s) (s' := s') (n := k) as [Hi _]; auto.
  clear H Hs. intros t t' [Hlen Ht] Hc Hstep.
  unfold grid_cond in Hc. apply andb_prop in Hc. destruct Hc as [Hc _].
  destruct Ht as [(Hf1 & Hr & Hfr & Hxm) | (Hf0 & _)].
  2:{ rewrite Hf0 in Hc. discriminate. }
  apply grid_step_cases in Hstep.
  destruct Hstep as [(A1 & A2 & A3 & A4 & A5 & _) | (B1 & B2 & B3 & B4 & _)].
  - split.
    + rewrite A4, update_length. exact Hlen.
    + right. rewrite A2, A4, Hr, Hfr. rewrite Hfr in A3. auto.
  - split.
    + rewrite B3. exact Hlen.
    + left. rewrite B1, B2, B3, B4. auto.
Qed.

(** The grid search stops after at most [n] steps once the [n]-th grid
    point below [xl] is no longer at or above -1. *)
Lemma grid_search_bounded (fuel : nat) (pt : list (cell F)) (order nb : Z)
  (delta : F) (j : Z) :
  (forall x, exists v, cheb_poly_eva fuel pt x order = Done v) ->
  nb < INT_MAX -> (Z.to_nat (nb + 1) < fuel)%nat ->
  forall (n wf : nat) (s : grid),
    (1 <= n < wf)%nat ->
    0 <= j < Z.of_nat (length (freq (g s))) ->
    INT_MIN <= roots (g s) + 1 <= INT_MAX ->
    fge (grid_point delta n (xl (g s))) (of_int (-1)) = false ->
    exists s' k,
      while_loop wf grid_cond (grid_step fuel pt order nb delta j) s
      = Done (s', k) /\ (k <= n)%nat.
Proof.
  intros Hev Hnb Hf.
  induction n as [|n IH]; intros wf s Hn Hj Hr Hg; [lia|].
  destruct wf as [|wf]; [lia|]. cbn [while_loop].
  destruct (grid_cond s) eqn:Hc.
  2:{ exists s, O. split; [reflexivity|lia]. }
  destruct (Hev (fsub (xl (g s)) delta)) as (psumr & Hp).
  destruct (flt (fmul psumr (psuml s)) f0 || feq psumr f0) eqn:Hbr.
  - rewrite (grid_step_bracket fuel pt order nb delta j s psumr) by assumption.
    rewrite int_add_done by exact Hr. cbn [bind].
    destruct (bisect_n_done fuel pt order Hev (Z.to_nat (nb + 1))
                {| b_psuml := psuml s; b_xl := xl (g s);
                   b_xr := fsub (xl (g s)) delta; b_xm := xm (g s) |})
      as (b & ->).
    cbn [bind]. rewrite store_done by exact Hj. cbn [bind].
    destruct wf as [|wf]; [lia|]. cbn.
    eexists _, _. split; [reflexivity|lia].
  - rewrite (grid_step_advance fuel pt order nb delta j s psumr) by assumption.
    cbn [bind].
    destruct n as [|n].
    + destruct wf as [|wf]; [lia|]. cbn [while_loop].
      unfold grid_cond at 1. cbn [g xr]. cbn [grid_point] in Hg.
      rewrite Hg, andb_false_r. cbn [bind fst snd].
      eexists _, _. split; [reflexivity|lia].
    + destruct (IH wf {| psuml := psumr; flag := flag s;
                         g := {| xl := fsub (xl (g s)) delta;
                                 xr := fsub (xl (g s)) delta;
                                 xm := xm (g s); roots := roots (g s);
                                 freq := freq (g s) |} |})
        as (s' & k & Hw & Hk); cbn [g xl roots freq]; auto; try lia.
      rewrite Hw. cbn [bind fst snd].
      exists s', (S k). split; [reflexivity|lia].
Qed.

End GridSearch.

(** ** The loop over the root indices and the conversion to radians *)

Section RootSearch.

Context {F : Type} {AF : Arith F}.

Variable acosf : F -> F.

(** One root index records at most one root, at [freq[j]]. *)
Lemma root_step_cases (fuel : nat) (P Q : list (cell F)) (order nb : Z)
  (delta : F) (j : Z) (s s' : search) :
  root_step fuel P Q order nb delta j s = Done s' ->
  length (freq s') = length (freq s) /\
  ((roots s' = roots s /\ freq s' = freq s /\ xm s' = xm s)
   \/
   (roots s' = roots s + 1 /\ 0 <= j < Z.of_nat (length (freq s)) /\
    freq s' = update (freq s) (Z.to_nat j) (xm s') /\ xl s' = xm s')).
Proof.
  unfold root_step. cbv zeta. intros H. inv_bind H. inv_bind H.
  inversion H; subst; clear H. destruct v0 as [t k].
  apply grid_search_roots in E0; [|reflexivity].
  cbn [fst g flag] in *.
  destruct E0 as [Hlen [(_ & A) | (_ & B)]]; auto.
Qed.

(** The loop over [j] runs [order] times, counts between 0 and [order]
    roots and keeps the length of [freq]. *)
Lemma root_search_count (fuel : nat) (P Q : list (cell F)) (order nb : Z)
  (delta : F) (freq0 : list F) (st : search) (k : nat) :
  root_search fuel P Q order nb delta freq0 = Done (st, k) ->
  k = Z.to_nat order /\ 0 <= roots st <= Z.max 0 order /\
  length (freq st) = length freq0.
Proof.
  intros H. unfold root_search in H.
  apply (for_loop_inv
           (fun i s => 0 <= i <= Z.max 0 order /\ 0 <= roots s <= i /\
                       length (freq s) = length freq0)) in H.
  - destruct H as [(Hi & Hr & Hl) Hc]. apply Z.ltb_ge in Hc.
    repeat split; try lia; auto.
  - intros i s s' (Hi & Hr & Hl) Hc Hs. apply Z.ltb_lt in Hc.
    apply root_step_cases in Hs. destruct Hs as [Hlen Hs].
    rewrite Hlen. repeat split; try lia; auto;
      destruct Hs as [(A & _) | (B & _)]; lia.
  - cbn. repeat split; try lia.
Qed.

Lemma nth_converted (f : F -> F) (d : F) :
  forall (l : list F) (i : nat),
    (i < length l)%nat ->
    nth i (map f (firstn i l) ++ skipn i l) d = nth i l d.
Proof.
  induction l as [|h t IH]; intros [|i] Hi; simpl in *; try lia; auto.
  apply IH. lia.
Qed.

Lemma update_converted (f : F -> F) (d : F) :
  forall (l : list F) (i : nat),
    (i < length l)%nat ->
    update (map f (firstn i l) ++ skipn i l) i (f (nth i l d))
    = map f (firstn (S i) l) ++ skipn (S i) l.
Proof.
  induction l as [|h t IH]; intros [|i] Hi; simpl in *; try lia; auto.
  f_equal. apply IH. lia.
Qed.

Lemma converted_length (f : F -> F) (l : list F) (i : nat) :
  length (map f (firstn i l) ++ skipn i l) = length l.
Proof.
  rewrite length_app, length_map, <- length_app, firstn_skipn. reflexivity.
Qed.

(** Lines 231-233 replace each of the first [order] entries of [freq] by
    its [acosf]. *)
Lemma to_radians_map (fuel : nat) (order : Z) (fr : list F) :
  0 <= order <= INT_MAX -> order <= Z.of_nat (length fr) ->
  (Z.to_nat order < fuel)%nat ->
  to_radians acosf fuel order fr
  = Done (map acosf (firstn (Z.to_nat order) fr) ++ skipn (Z.to_nat order) fr,
          Z.to_nat order).
Proof.
  intros Ho Hl Hf. unfold to_radians.
  destruct (@for_loop_run (list F)
              (fun i s => s = map acosf (firstn (Z.to_nat i) fr)
                              ++ skipn (Z.to_nat i) fr)
              (fun i => i <? order)
              (fun i fr => x <- load fr i ;; store fr i (acosf x))
              (Z.to_nat order) fuel 0 fr)
    as (s1 & Hl1 & Hs1).
  1-3: unfold INT_MIN, INT_MAX in *; lia.
  1:{ intros i Hi. apply Z.ltb_lt. lia. }
  1:{ apply Z.ltb_ge. lia. }
  1:{ reflexivity. }
  1:{ intros i s Hi ->. eexists. split; [|reflexivity].
      rewrite (load_nth _ i f0) by (rewrite converted_length; lia).
      cbn [bind].
      rewrite store_done by (rewrite converted_length; lia).
      rewrite nth_converted, update_converted by lia.
      replace (Z.to_nat (i + 1)) with (S (Z.to_nat i)) by lia.
      reflexivity. }
  rewrite Hl1, Hs1. repeat f_equal; lia.
Qed.

(** [lpc_to_lsp] is the root search on the decomposition of [a], followed
    by [acosf] on each of the first [order] entries of [freq]. *)
Lemma lpc_to_lsp_unfold (fuel : nat) (a : list F) (order : Z)
  (freq0 : list F) (nb : Z) (delta : F) :
  0 <= order < INT_MAX ->
  order + 1 <= Z.of_nat (length a) ->
  order <= Z.of_nat (length freq0) ->
  (Z.to_nat order + 1 < fuel)%nat ->
  let m := Z.to_nat (Z.quot order 2) in
  let n := Z.to_nat order in
  lpc_to_lsp acosf fuel a order freq0 nb delta
  = (r <- root_search fuel
            (filled (doubled m (P_rec a order)) (S m) (n - m))
            (filled (doubled m (Q_rec a order)) (S m) (n - m))
            order nb delta freq0 ;;
     Done (roots (fst r),
           map acosf (firstn n (freq (fst r))) ++ skipn n (freq (fst r)))).
Proof.
  intros Ho Ha Hfr Hf m n. unfold lpc_to_lsp.
  rewrite int_add_done by (unfold INT_MIN, INT_MAX in *; lia). cbn [bind].
  rewrite malloc_done by lia.
  destruct (quot2_bounds order ltac:(lia)) as [HM0 HM1].
  rewrite decompose_blocks by (auto; lia).
  cbn [bind fst snd]. fold m n.
  destruct (root_search fuel _ _ order nb delta freq0) as [[st k]| |] eqn:E;
    cbn [bind]; try reflexivity.
  apply root_search_count in E. destruct E as (_ & _ & Hlen).
  cbn [fst snd].
  rewrite to_radians_map by (unfold INT_MAX in *; lia).
  reflexivity.
Qed.

(** A negative count makes both allocations fail; [lpc_to_lsp] then
    returns -1 at once. *)
Lemma lpc_to_lsp_alloc_failure (fuel : nat) (a : list F) (order : Z)
  (freq0 : list F) (nb : Z) (delta : F) :
  INT_MIN <= order < -1 ->
  lpc_to_lsp acosf fuel a order freq0 nb delta = Done (-1, freq0).
Proof.
  intros Ho. unfold lpc_to_lsp.
  rewrite int_add_done by (unfold INT_MIN, INT_MAX in *; lia). cbn [bind].
  unfold malloc. destruct (Z.ltb_spec (order + 1) 0); [reflexivity|lia].
Qed.

(** Otherwise the returned [int] is the number of roots found. *)
Lemma lpc_to_lsp_roots (fuel : nat) (a : list F) (order : Z)
  (freq0 : list F) (nb : Z) (delta : F) (r : Z) (lsp : list F) :
  -1 <= order ->
  lpc_to_lsp acosf fuel a order freq0 nb delta = Done (r, lsp) ->
  0 <= r <= Z.max 0 order /\ length lsp = length freq0.
Proof.
  intros Ho H. unfold lpc_to_lsp in H. inv_bind H.
  apply int_add_inv in E. subst v.
  unfold malloc in H. destruct (Z.ltb_spec (order + 1) 0); [lia|].
  inv_bind H. inv_bind H. inv_bind H. inversion H; subst; clear H.
  destruct v0 as [st k]. apply root_search_count in E0.
  destruct E0 as (_ & Hr & Hlen). cbn [fst] in *.
  split; [exact Hr|].
  unfold to_radians in E1. destruct v1 as [fr k'].
  apply (for_loop_inv (fun _ s => length s = length freq0)) in E1.
  - apply E1.
  - intros i s s' Hs _ Hb. inv_bind Hb. apply store_inv in Hb.
    destruct Hb as [_ ->]. rewrite update_length. exact Hs.
  - exact Hlen.
Qed.

End RootSearch.

(** ** Splitting a counting loop *)

Section ForSplit.

Context {St : Type}.

Lemma while_le_split (body : Z * St -> outcome (Z * St)) (mid hi : Z) :
  mid <= hi ->
  forall (fuel : nat) (p p1 : Z * St) (n : nat),
    while_loop fuel (fun p => fst p <=? mid) body p = Done (p1, n) ->
    while_loop fuel (fun p => fst p <=? hi) body p
    = (r <- while_loop (fuel - n) (fun p => fst p <=? hi) body p1 ;;
       Done (fst r, (n + snd r)%nat)).
Proof.
  intros Hmh. induction fuel as [|fuel IH]; intros p p1 n H;
    [discriminate|].
  cbn [while_loop] in H.
  destruct (Z.leb_spec (fst p) mid) as [Hc|Hc].
  - inv_bind H. inv_bind H. inversion H; subst; clear H.
    destruct v0 as [p2 k]. cbn [fst snd].
    cbn [while_loop]. destruct (Z.leb_spec (fst p) hi); [|lia].
    rewrite E. cbn [bind]. rewrite (IH v p2 k E0).
    replace (S fuel - S k)%nat with (fuel - k)%nat by lia.
    destruct (while_loop (fuel - k) _ body p2) as [[q c]| |]; reflexivity.
  - inversion H; subst; clear H.
    replace (S fuel - 0)%nat with (S fuel) by lia.
    destruct (while_loop (S fuel) _ body p1) as [[q c]| |]; reflexivity.
Qed.

(** The state after the iterations [lo .. mid] is the state in which the
    rest of the loop, from [mid + 1], starts. *)
Lemma for_loop_prefix (body : Z -> St -> outcome St) (lo mid hi : Z)
  (fuel : nat) (s s1 : St) (n : nat) :
  lo <= mid + 1 -> mid <= hi ->
  for_loop fuel lo (fun j => j <=? mid) body s = Done (s1, n) ->
  for_loop fuel lo (fun j => j <=? hi) body s
  = (r <- for_loop (fuel - n) (mid + 1) (fun j => j <=? hi) body s1 ;;
     Done (fst r, (n + snd r)%nat)).
Proof.
  intros Hlo Hmh H. unfold for_loop in *. inv_bind H.
  inversion H; subst; clear H. destruct v as [[i s1] n]. cbn [fst snd].
  assert (Hi : i = mid + 1).
  { pose proof E as E'.
    apply (while_loop_inv (fun p : Z * St => fst p <= mid + 1)) in E'.
    - cbn [fst] in E'. destruct E' as [A B]. apply Z.leb_gt in B. lia.
    - intros p p' Hp Hc Hb. apply Z.leb_le in Hc.
      inv_bind Hb. inv_bind Hb. apply int_add_inv in E1.
      inversion Hb; subst. cbn [fst]. lia.
    - cbn [fst]. lia. }
  subst i.
  rewrite (while_le_split _ mid hi Hmh fuel (lo, s) (mid + 1, s1) n E).
  destruct (while_loop (fuel - n) _ _ (mid + 1, s1)) as [[q c]| |];
    reflexivity.
Qed.

End ForSplit.

(** ** [lsp_to_lpc] *)

Section Cascade.

Context {F : Type} {AF : Arith F}.

Variable cosf : F -> F.

Lemma ready_load (W : list (cell F)) (n : nat) (i : Z) :
  ready W n -> 0 <= i < Z.of_nat n -> exists v, load_cell W i = Done v.
Proof.
  intros (ws & r & -> & Hl) Hi. exists (nth (Z.to_nat i) ws f0).
  apply load_cell_done. lia.
Qed.

Lemma ready_store (W : list (cell F)) (n : nat) (i : Z) (v : F) :
  ready W n -> 0 <= i < Z.of_nat n ->
  exists W', store_cell W i v = Done W' /\ ready W' n.
Proof.
  intros (ws & r & -> & Hl) Hi. eexists. split.
  - apply store_cell_done. lia.
  - exists (update ws (Z.to_nat i) v), r. split; [reflexivity|].
    rewrite update_length. exact Hl.
Qed.

Lemma filled_ready (f : nat -> F) (n k : nat) : ready (filled f n k) n.
Proof.
  exists (map f (seq 0 n)), (repeat None k). split; [reflexivity|].
  rewrite length_map, length_seq. reflexivity.
Qed.

(** Line 270 fills the block [freq] with the cosines. *)
Lemma to_x_domain_filled (fuel : nat) (lsp : list F) (order : Z) :
  0 <= order <= INT_MAX -> order <= Z.of_nat (length lsp) ->
  (Z.to_nat order < fuel)%nat ->
  to_x_domain cosf fuel lsp order (repeat None (Z.to_nat order))
  = Done (filled (fun k => cosf (nth k lsp f0)) (Z.to_nat order) 0,
          Z.to_nat order).
Proof.
  intros Ho Hl Hf. unfold to_x_domain.
  destruct (@for_loop_run (list (cell F))
              (fun i s => s = filled (fun k => cosf (nth k lsp f0))
                                (Z.to_nat i) (Z.to_nat order - Z.to_nat i))
              (fun i => i <? order)
              (fun i fr => w <- load lsp i ;; store_cell fr i (cosf w))
              (Z.to_nat order) fuel 0 (repeat None (Z.to_nat order)))
    as (s1 & Hl1 & Hs1).
  1-3: unfold INT_MIN, INT_MAX in *; lia.
  1:{ intros i Hi. apply Z.ltb_lt. lia. }
  1:{ apply Z.ltb_ge. lia. }
  1:{ unfold filled. cbn [Z.to_nat seq map app].
      rewrite Nat.sub_0_r. reflexivity. }
  1:{ intros i s Hi ->. eexists. split; [|reflexivity].
      rewrite (load_nth lsp i f0) by lia. cbn [bind].
      replace (Z.to_nat order - Z.to_nat i)%nat
        with (S (Z.to_nat order - Z.to_nat (i + 1))) by lia.
      rewrite (filled_store (fun k => cosf (nth k lsp f0))) by lia.
      replace (Z.to_nat (i + 1)) with (S (Z.to_nat i)) by lia.
      reflexivity. }
  rewrite Hl1, Hs1.
  replace (Z.to_nat (0 + Z.of_nat (Z.to_nat order))) with (Z.to_nat order)
    by lia.
  rewrite Nat.sub_diag. reflexivity.
Qed.

(** Lines 272-276 zero the first [4 * (order / 2) + 2] cells of [Wp]. *)
Lemma zero_fill_filled (fuel : nat) (order : Z) (k : nat) :
  0 <= order -> 4 * order + 2 <= INT_MAX ->
  let N := Z.to_nat (4 * Z.quot order 2 + 2) in
  (N < fuel)%nat ->
  zero_fill fuel order (repeat None (N + k))
  = Done (filled (fun _ => f0) N k, N).
Proof.
  intros Ho Hmax N Hf. unfold zero_fill.
  destruct (quot2_bounds order Ho) as [HM0 HM1].
  remember (Z.quot order 2) as M eqn:EM.
  rewrite int_mul_done by (unfold INT_MIN, INT_MAX in *; lia). cbn [bind].
  rewrite int_add_done by (unfold INT_MIN, INT_MAX in *; lia). cbn [bind].
  destruct (@for_loop_run (list (cell F) * Z)
              (fun i s => s = (filled (fun _ => f0) (Z.to_nat i)
                                 (N + k - Z.to_nat i), i))
              (fun i => i <=? 4 * M + 1)
              (fun _ s => W' <- store_cell (fst s) (snd s) f0 ;;
                          Done (W', snd s + 1))
              N fuel 0 (repeat None (N + k), 0))
    as (s1 & Hl1 & Hs1).
  1-3: unfold INT_MIN, INT_MAX in *; lia.
  1:{ intros i Hi. apply Z.leb_le. lia. }
  1:{ apply Z.leb_gt. lia. }
  1:{ unfold filled. cbn [Z.to_nat seq map app].
      rewrite Nat.sub_0_r. reflexivity. }
  1:{ intros i s Hi ->. eexists. split; [|reflexivity]. cbn [fst snd].
      replace (N + k - Z.to_nat i)%nat
        with (S (N + k - Z.to_nat (i + 1))) by lia.
      rewrite (filled_store (fun _ => f0)) by lia. cbn [bind].
      replace (Z.to_nat (i + 1)) with (S (Z.to_nat i)) by lia.
      reflexivity. }
  unfold cell in *. rewrite Hl1, Hs1. cbn [bind fst snd].
  replace (Z.to_nat (0 + Z.of_nat N)) with N by lia.
  replace (N + k - N)%nat with k by lia. reflexivity.
Qed.

(** One stage touches the four cells [4i .. 4i+3] and leaves [n4] at the
    last of them. *)
Lemma stage_done (fr : list (cell F)) (c : nat -> F) (order : Z) (i : Z)
  (s : cascade) :
  0 <= order -> 4 * order + 2 <= INT_MAX ->
  fr = filled c (Z.to_nat order) 0 ->
  ready (Wp s) (Z.to_nat (4 * Z.quot order 2 + 2)) ->
  0 <= i < Z.quot order 2 ->
  exists s', stage fr i s = Done s' /\
             ready (Wp s') (Z.to_nat (4 * Z.quot order 2 + 2)) /\
             n4 s' = Some (4 * i + 3).
Proof.
  intros Ho Hmax -> Hr Hi. unfold stage.
  destruct (quot2_bounds order Ho) as [HM0 HM1].
  remember (Z.quot order 2) as M eqn:EM.
  remember (Z.to_nat (4 * M + 2)) as N eqn:EN.
  rewrite int_mul_done by (unfold INT_MIN, INT_MAX in *; lia). cbn [bind].
  rewrite int_mul_done by (unfold INT_MIN, INT_MAX in *; lia). cbn [bind].
  rewrite filled_load by lia. cbn [bind].
  destruct (ready_load (Wp s) N (0 + i * 4) Hr ltac:(lia)) as (w1 & ->).
  cbn [bind].
  destruct (ready_load (Wp s) N (0 + i * 4 + 1) Hr ltac:(lia)) as (w2 & ->).
  cbn [bind].
  rewrite int_add_done by (unfold INT_MIN, INT_MAX in *; lia). cbn [bind].
  rewrite filled_load by lia. cbn [bind].
  destruct (ready_load (Wp s) N (0 + i * 4 + 1 + 1) Hr ltac:(lia))
    as (w3 & ->). cbn [bind].
  destruct (ready_load (Wp s) N (0 + i * 4 + 1 + 1 + 1) Hr ltac:(lia))
    as (w4 & ->). cbn [bind].
  destruct (ready_store (Wp s) N (0 + i * 4 + 1) w1 Hr ltac:(lia))
    as (W1 & -> & Hr1). cbn [bind].
  destruct (ready_load W1 N (0 + i * 4 + 1 + 1) Hr1 ltac:(lia)) as (w3' & ->).
  cbn [bind].
  destruct (ready_store W1 N (0 + i * 4 + 1 + 1 + 1) w3' Hr1 ltac:(lia))
    as (W2 & -> & Hr2). cbn [bind].
  destruct (ready_store W2 N (0 + i * 4) (xin1 s) Hr2 ltac:(lia))
    as (W3 & -> & Hr3). cbn [bind].
  destruct (ready_store W3 N (0 + i * 4 + 1 + 1) (xin2 s) Hr3 ltac:(lia))
    as (W4 & -> & Hr4). cbn [bind].
  eexists. split; [reflexivity|]. cbn [Wp n4]. split; [exact Hr4|].
  f_equal. lia.
Qed.

(** One iteration of the loop over [j]: it stores [ak[j]] and leaves 0.0
    in both accumulators. *)
Lemma clock_done (fuel : nat) (fr : list (cell F)) (c : nat -> F)
  (order j : Z) (s : cascade) (ak : list F) :
  2 <= order -> 4 * order + 2 <= INT_MAX ->
  (Z.to_nat (Z.quot order 2) < fuel)%nat ->
  fr = filled c (Z.to_nat order) 0 ->
  ready (Wp s) (Z.to_nat (4 * Z.quot order 2 + 2)) ->
  0 <= j < Z.of_nat (length ak) ->
  exists s' ak', clock fuel fr order j (s, ak) = Done (s', ak') /\
                 ready (Wp s') (Z.to_nat (4 * Z.quot order 2 + 2)) /\
                 length ak' = length ak /\
                 xin1 s' = f0 /\ xin2 s' = f0.
Proof.
  intros Ho Hmax Hf Hfr Hr Hj. unfold clock.
  destruct (quot2_bounds order ltac:(lia)) as [HM0 HM1].
  assert (HM2 : 1 <= Z.quot order 2).
  { rewrite Z.quot_div_nonneg by lia.
    pose proof (Z_div_mod_eq_full order 2).
    pose proof (Z.mod_pos_bound order 2 ltac:(lia)). lia. }
  destruct (@for_loop_run cascade
              (fun i t => ready (Wp t) (Z.to_nat (4 * Z.quot order 2 + 2)) /\
                          (1 <= i -> n4 t = Some (4 * i - 1)))
              (fun i => i <? Z.quot order 2) (stage fr)
              (Z.to_nat (Z.quot order 2)) fuel 0 s)
    as (s1 & Hl1 & Hr1 & Hn1).
  1-3: unfold INT_MIN, INT_MAX in *; lia.
  1:{ intros i Hi. apply Z.ltb_lt. lia. }
  1:{ apply Z.ltb_ge. lia. }
  1:{ split; [exact Hr|lia]. }
  1:{ intros i t Hi [Ht _].
      destruct (stage_done fr c order i t) as (t' & Hs & Hr' & Hn');
        auto; try lia.
      exists t'. split; [exact Hs|]. split; [exact Hr'|].
      intros _. rewrite Hn'. f_equal. lia. }
  rewrite Hl1. cbn [bind fst snd].
  rewrite Hn1 by lia.
  remember (Z.quot order 2) as M eqn:EM.
  remember (Z.to_nat (4 * M + 2)) as N eqn:EN.
  replace (4 * (0 + Z.of_nat (Z.to_nat M)) - 1) with (4 * M - 1) by lia.
  destruct (ready_load (Wp s1) N (4 * M - 1 + 1) Hr1 ltac:(lia)) as (t1 & ->).
  cbn [bind].
  destruct (ready_load (Wp s1) N (4 * M - 1 + 2) Hr1 ltac:(lia)) as (t2 & ->).
  cbn [bind].
  rewrite store_done by exact Hj. cbn [bind].
  destruct (ready_store (Wp s1) N (4 * M - 1 + 1) (xin1 s1) Hr1 ltac:(lia))
    as (W1 & -> & Hr2). cbn [bind].
  destruct (ready_store W1 N (4 * M - 1 + 2) (xin2 s1) Hr2 ltac:(lia))
    as (W2 & -> & Hr3). cbn [bind].
  eexists _, _. split; [reflexivity|]. cbn [Wp xin1 xin2].
  rewrite update_length. auto.
Qed.

(** The first [n] iterations of the loop over [j]. *)
Lemma clock_loop_done (fuel : nat) (fr : list (cell F)) (c : nat -> F)
  (order : Z) (W : list (cell F)) (ak : list F) (n : nat) :
  2 <= order -> 4 * order + 2 <= INT_MAX ->
  (Z.to_nat (Z.quot order 2) < fuel)%nat -> (n < fuel)%nat ->
  fr = filled c (Z.to_nat order) 0 ->
  ready W (Z.to_nat (4 * Z.quot order 2 + 2)) ->
  Z.of_nat n <= Z.of_nat (length ak) -> Z.of_nat n <= order + 1 ->
  exists s ak',
    clock_loop fuel fr order 0 (Z.of_nat n - 1)
      ({| xin1 := f1; xin2 := f1; Wp := W; n4 := None |}, ak)
    = Done (s, ak', n) /\
    (n = O -> xin1 s = f1 /\ xin2 s = f1) /\
    ((1 <= n)%nat -> xin1 s = f0 /\ xin2 s = f0).
Proof.
  intros Ho Hmax Hf Hn Hfr Hr Hak Hno. unfold clock_loop.
  destruct (@for_loop_run (cascade * list F)
              (fun i t => ready (Wp (fst t))
                            (Z.to_nat (4 * Z.quot order 2 + 2)) /\
                          length (snd t) = length ak /\
                          (i = 0 -> xin1 (fst t) = f1 /\ xin2 (fst t) = f1) /\
                          (1 <= i -> xin1 (fst t) = f0 /\ xin2 (fst t) = f0))
              (fun j => j <=? Z.of_nat n - 1) (clock fuel fr order)
              n fuel 0
              ({| xin1 := f1; xin2 := f1; Wp := W; n4 := None |}, ak))
    as ([s ak'] & Hl1 & Hr1 & Hlen & H0 & H1).
  1-3: unfold INT_MIN, INT_MAX in *; lia.
  1:{ intros i Hi. apply Z.leb_le. lia. }
  1:{ apply Z.leb_gt. lia. }
  1:{ cbn. repeat split; auto; lia. }
  1:{ intros i [t akt] Hi (Ht & Hlt & _). cbn [fst snd] in *.
      destruct (clock_done fuel fr c order i t akt)
        as (t' & ak1 & Hc & Hr' & Hl' & Hx1 & Hx2); auto; try lia.
      exists (t', ak1). split; [exact Hc|]. cbn [fst snd].
      repeat split; auto; try lia; congruence. }
  exists s, ak'. split; [exact Hl1|]. cbn [fst snd] in *.
  split; intros; [apply H0 | apply H1]; lia.
Qed.

(** [lsp_to_lpc] is the loop over [j] on the block of cosines and the
    zeroed block [Wp]. *)
Lemma lsp_to_lpc_unfold (fuel : nat) (lsp ak : list F) (order : Z) :
  0 <= order -> 4 * order + 2 <= INT_MAX ->
  order <= Z.of_nat (length lsp) ->
  (Z.to_nat (4 * order + 2) < fuel)%nat ->
  let N := Z.to_nat (4 * Z.quot order 2 + 2) in
  lsp_to_lpc cosf fuel lsp ak order
  = (r <- clock_loop fuel
            (filled (fun k => cosf (nth k lsp f0)) (Z.to_nat order) 0)
            order 0 order
            ({| xin1 := f1; xin2 := f1;
                Wp := filled (fun _ => f0) N (Z.to_nat (4 * order + 2) - N);
                n4 := None |}, ak) ;;
     Done (snd (fst r))).
Proof.
  intros Ho Hmax Hl Hf N. unfold lsp_to_lpc.
  destruct (quot2_bounds order Ho) as [HM0 HM1].
  rewrite int_mul_done by (unfold INT_MIN, INT_MAX in *; lia). cbn [bind].
  rewrite int_add_done by (unfold INT_MIN, INT_MAX in *; lia). cbn [bind].
  rewrite !malloc_done by lia.
  rewrite to_x_domain_filled by (unfold INT_MAX in *; lia).
  cbn [bind fst snd].
  replace (Z.to_nat (order * 4 + 2))
    with (N + (Z.to_nat (4 * order + 2) - N))%nat by lia.
  rewrite zero_fill_filled by (auto; fold N; lia).
  cbn [bind fst snd]. fold N.
  replace (N + (Z.to_nat (4 * order + 2) - N) - N)%nat
    with (Z.to_nat (4 * order + 2) - N)%nat by lia.
  reflexivity.
Qed.

End Cascade.

(** ** Blocks on which the evaluator is defined *)

Section Evaluable.

Context {F : Type} {AF : Arith F}.

Lemma filled_nth_error (c : nat -> F) (n k i : nat) :
  (i < n)%nat -> nth_error (filled c n k) i = Some (Some (c i)).
Proof.
  intros H. unfold filled.
  rewrite nth_error_app1 by (rewrite !length_map, length_seq; lia).
  rewrite !nth_error_map, nth_error_seq.
  destruct (Nat.ltb_spec i n); [reflexivity|lia].
Qed.

Lemma filled_evaluable (fuel : nat) (c : nat -> F) (order : Z) (k : nat) :
  2 <= order <= INT_MAX ->
  (Z.to_nat (Z.quot order 2) + 1 < fuel)%nat ->
  forall x, exists v,
    cheb_poly_eva fuel (filled c (S (Z.to_nat (Z.quot order 2))) k) x order
    = Done v.
Proof.
  intros Ho Hf x. eexists.
  apply (cheb_poly_eva_series fuel _ c x order Ho Hf).
  intros i Hi. apply filled_nth_error. lia.
Qed.

End Evaluable.

(** ** Lists written by index *)


(** ** Single precision *)

(** The operations of [binary32] are those of [SpecFloat].  This part
    relates them to integer arithmetic: on numbers, a comparison is the
    comparison of the ranks, and a sum, a difference or a half is the
    exact result on the ranks rounded to the nearest rank, ties to even,
    with overflow to an infinity.  The order laws that the searches of
    [lpc_to_lsp] rely on follow. *)


(** *** Rounding to 24 bits *)

Lemma rnd_at_range (k z : Z) :
  0 <= k -> z / 2 ^ k <= rnd_at k z <= z / 2 ^ k + 1.
Proof.
  intros Hk. unfold rnd_at. cbv zeta.
  destruct (2 * (z mod 2 ^ k) ?= 2 ^ k); [destruct (Z.even _)| |]; lia.
Qed.

Lemma rnd_at_mono (k z1 z2 : Z) :
  0 <= k -> z1 <= z2 -> rnd_at k z1 <= rnd_at k z2.
Proof.
  intros Hk Hz.
  assert (HP : 0 < 2 ^ k) by (apply Z.pow_pos_nonneg; lia).
  pose proof (Z.div_le_mono z1 z2 (2 ^ k) HP Hz) as Hq.
  destruct (Z.eq_dec (z1 / 2 ^ k) (z2 / 2 ^ k)) as [E|E].
  - pose proof (Z.div_mod z1 (2 ^ k) ltac:(lia)) as D1.
    pose proof (Z.div_mod z2 (2 ^ k) ltac:(lia)) as D2.
    unfold rnd_at. cbv zeta. rewrite <- E.
    destruct (Z.compare_spec (2 * (z1 mod 2 ^ k)) (2 ^ k));
      destruct (Z.compare_spec (2 * (z2 mod 2 ^ k)) (2 ^ k));
      destruct (Z.even (z1 / 2 ^ k)); nia.
  - pose proof (rnd_at_range k z1 Hk). pose proof (rnd_at_range k z2 Hk). lia.
Qed.

Lemma rnd_at_exact (k m : Z) : 0 <= k -> rnd_at k (m * 2 ^ k) = m.
Proof.
  intros Hk.
  assert (HP : 0 < 2 ^ k) by (apply Z.pow_pos_nonneg; lia).
  unfold rnd_at. cbv zeta. rewrite Z.mod_mul, Z.div_mul by lia.
  destruct (Z.compare_spec (2 * 0) (2 ^ k)); lia.
Qed.

Lemma rshift_nonneg (z : Z) : 0 <= rshift z.
Proof. unfold rshift. lia. Qed.

Lemma rshift_mono (z1 z2 : Z) : z1 <= z2 -> rshift z1 <= rshift z2.
Proof.
  intros H. unfold rshift. pose proof (Z.log2_le_mono z1 z2 H). lia.
Qed.

Lemma RN_nonneg (z : Z) : 0 <= z -> 0 <= RN z.
Proof.
  intros Hz. unfold RN. pose proof (rshift_nonneg z) as Hk.
  assert (HP : 0 < 2 ^ rshift z) by (apply Z.pow_pos_nonneg; lia).
  pose proof (rnd_at_range (rshift z) z Hk).
  pose proof (Z.div_pos z (2 ^ rshift z) Hz HP). nia.
Qed.

(** Below 2^(24+k) the quotient is below 2^24. *)
Lemma RN_upper (z : Z) : 0 <= z -> RN z <= 2 ^ (24 + rshift z).
Proof.
  intros Hz. unfold RN. pose proof (rshift_nonneg z) as Hk.
  set (k := rshift z) in *.
  assert (HP : 0 < 2 ^ k) by (apply Z.pow_pos_nonneg; lia).
  assert (Hlt : z < 2 ^ (24 + k)).
  { destruct (Z.eq_dec z 0) as [->|Hne].
    - apply Z.pow_pos_nonneg; lia.
    - pose proof (Z.log2_spec z ltac:(lia)) as [_ Hs].
      eapply Z.lt_le_trans; [exact Hs|].
      apply Z.pow_le_mono_r; [lia|]. unfold k, rshift. lia. }
  rewrite Z.pow_add_r in * by lia.
  assert (Hq : z / 2 ^ k < 2 ^ 24).
  { apply Z.div_lt_upper_bound; lia. }
  pose proof (rnd_at_range k z Hk). nia.
Qed.

Lemma RN_lower (z : Z) : 0 < rshift z -> 2 ^ (23 + rshift z) <= RN z.
Proof.
  intros Hk. unfold RN. set (k := rshift z) in *.
  assert (HP : 0 < 2 ^ k) by (apply Z.pow_pos_nonneg; lia).
  assert (Hz : 0 < z).
  { destruct (Z.lt_trichotomy z 0) as [H|[H|H]]; [| |exact H].
    - unfold k, rshift in Hk. rewrite Z.log2_nonpos in Hk by lia. lia.
    - subst z. unfold k, rshift in Hk. simpl in Hk. lia. }
  pose proof (Z.log2_spec z Hz) as [Hs _].
  assert (Hlog : Z.log2 z = 23 + k) by (unfold k, rshift in *; lia).
  rewrite Hlog in Hs. rewrite Z.pow_add_r in * by lia.
  assert (Hq : 2 ^ 23 <= z / 2 ^ k).
  { apply Z.div_le_lower_bound; lia. }
  pose proof (rnd_at_range k z ltac:(lia)). nia.
Qed.

Lemma RN_mono (z1 z2 : Z) : 0 <= z1 -> z1 <= z2 -> RN z1 <= RN z2.
Proof.
  intros H1 H12.
  pose proof (rshift_mono z1 z2 H12) as Hk.
  pose proof (rshift_nonneg z1) as Hk1.
  destruct (Z.eq_dec (rshift z1) (rshift z2)) as [E|E].
  - unfold RN. rewrite <- E.
    assert (HP : 0 < 2 ^ rshift z1) by (apply Z.pow_pos_nonneg; lia).
    pose proof (rnd_at_mono (rshift z1) z1 z2 Hk1 H12). nia.
  - pose proof (RN_upper z1 H1). pose proof (RN_lower z2 ltac:(lia)).
    assert (2 ^ (24 + rshift z1) <= 2 ^ (23 + rshift z2))
      by (apply Z.pow_le_mono_r; lia).
    lia.
Qed.

Lemma RN_id (m j : Z) : 0 <= m < 2 ^ 24 -> 0 <= j -> RN (m * 2 ^ j) = m * 2 ^ j.
Proof.
  intros Hm Hj. unfold RN. set (z := m * 2 ^ j).
  pose proof (rshift_nonneg z) as Hk.
  assert (HPj : 0 < 2 ^ j) by (apply Z.pow_pos_nonneg; lia).
  assert (Hkj : rshift z <= j).
  { unfold rshift. destruct (Z.eq_dec m 0) as [->|Hne].
    - unfold z. simpl. lia.
    - assert (Hz : 0 < z) by (unfold z; nia).
      pose proof (Z.log2_spec z Hz) as [Hs _].
      assert (z < 2 ^ (24 + j)).
      { rewrite Z.pow_add_r by lia. unfold z. nia. }
      assert (Z.log2 z < 24 + j).
      { apply Z.pow_lt_mono_r_iff with 2; try lia. }
      lia. }
  set (k := rshift z) in *.
  assert (E : z = (m * 2 ^ (j - k)) * 2 ^ k).
  { unfold z. rewrite <- Z.mul_assoc, <- Z.pow_add_r by lia.
    replace (j - k + k) with j by lia. reflexivity. }
  rewrite E at 1. rewrite rnd_at_exact by lia. symmetry. exact E.
Qed.

(** *** The nearest rank *)

Lemma TOP_LIM : LIM < TOP.
Proof. unfold LIM, TOP. apply Z.pow_lt_mono_r; lia. Qed.

Lemma LIM_pos : 0 < LIM.
Proof. unfold LIM. apply Z.pow_pos_nonneg; lia. Qed.

Lemma round32_cap (z : Z) : round32 z = Z.sgn z * RNcap (Z.abs z).
Proof. unfold round32, RNcap. destruct (LIM <=? RN (Z.abs z)); reflexivity. Qed.

Lemma RNcap_nonneg (z : Z) : 0 <= z -> 0 <= RNcap z.
Proof.
  intros H. unfold RNcap. pose proof (RN_nonneg z H). pose proof TOP_LIM.
  pose proof LIM_pos. destruct (LIM <=? RN z); lia.
Qed.

Lemma RNcap_mono (z1 z2 : Z) : 0 <= z1 -> z1 <= z2 -> RNcap z1 <= RNcap z2.
Proof.
  intros H1 H12. unfold RNcap. pose proof (RN_mono z1 z2 H1 H12).
  pose proof TOP_LIM.
  destruct (Z.leb_spec LIM (RN z1)); destruct (Z.leb_spec LIM (RN z2)); lia.
Qed.

Lemma RNcap_0 : RNcap 0 = 0.
Proof. reflexivity. Qed.

Lemma round32_opp (z : Z) : round32 (- z) = - round32 z.
Proof. rewrite !round32_cap, Z.abs_opp, Z.sgn_opp. lia. Qed.

Lemma round32_mono (z1 z2 : Z) : z1 <= z2 -> round32 z1 <= round32 z2.
Proof.
  intros H. rewrite !round32_cap.
  pose proof (RNcap_nonneg (Z.abs z1) (Z.abs_nonneg _)).
  pose proof (RNcap_nonneg (Z.abs z2) (Z.abs_nonneg _)).
  destruct (Z.sgn_spec z1) as [[A1 ->]|[[A1 ->]|[A1 ->]]];
    destruct (Z.sgn_spec z2) as [[A2 ->]|[[A2 ->]|[A2 ->]]]; try lia.
  - pose proof (RNcap_mono (Z.abs z1) (Z.abs z2) ltac:(lia) ltac:(lia)). lia.
  - pose proof (RNcap_mono (Z.abs z2) (Z.abs z1) ltac:(lia) ltac:(lia)). lia.
Qed.

Lemma round32_id (r : Z) : is_rank r -> round32 r = r.
Proof.
  intros [(m & j & Hm & Hj & E) Hr]. rewrite round32_cap. unfold RNcap.
  rewrite E, RN_id, <- E by assumption. pose proof TOP_LIM.
  destruct (Z.leb_spec LIM (Z.abs r)); lia.
Qed.

Lemma round32_sat (z : Z) : LIM <= Z.abs z -> round32 z = Z.sgn z * TOP.
Proof.
  intros H. rewrite round32_cap. unfold RNcap.
  assert (E : RN LIM = LIM).
  { unfold LIM. rewrite <- (Z.mul_1_l (2 ^ 277)). apply RN_id; lia. }
  pose proof (RN_mono LIM (Z.abs z) ltac:(pose proof LIM_pos; lia) H).
  destruct (Z.leb_spec LIM (RN (Z.abs z))); [reflexivity|lia].
Qed.

Lemma round32_bound (z : Z) : - TOP <= round32 z <= TOP.
Proof.
  rewrite round32_cap. unfold RNcap. pose proof TOP_LIM. pose proof LIM_pos.
  pose proof (RN_nonneg (Z.abs z) (Z.abs_nonneg _)).
  destruct (Z.leb_spec LIM (RN (Z.abs z)));
    destruct (Z.sgn_spec z) as [[A ->]|[[A ->]|[A ->]]]; lia.
Qed.

Lemma is_rank_0 : is_rank 0.
Proof.
  split; [exists 0, 0; simpl; lia | left; apply LIM_pos].
Qed.

Lemma is_rank_opp (r : Z) : is_rank r -> is_rank (- r).
Proof. unfold is_rank. rewrite Z.abs_opp. auto. Qed.

Lemma is_rank_double (r : Z) : is_rank r -> 2 * Z.abs r < LIM -> is_rank (2 * r).
Proof.
  intros [(m & j & Hm & Hj & E) _] H. split; [|left; lia].
  exists m, (j + 1). split; [exact Hm|]. split; [lia|].
  rewrite Z.pow_add_r by lia. lia.
Qed.

(** Subtracting a non-negative value never gives more. *)
Lemma round32_sub_le (rx rd : Z) :
  is_rank rx -> 0 <= rd -> round32 (rx - rd) <= rx.
Proof.
  intros Hx Hd. rewrite <- (round32_id rx Hx) at 2.
  apply round32_mono. lia.
Qed.

Lemma half_rank_opp (r : Z) : half_rank (- r) = - half_rank r.
Proof.
  unfold half_rank. rewrite Z.abs_opp, Z.sgn_opp.
  destruct (TOP <=? Z.abs r); lia.
Qed.

Lemma half_rank_range (r : Z) : 0 <= r -> 0 <= half_rank r <= r.
Proof.
  intros H. unfold half_rank. rewrite Z.abs_eq by lia.
  destruct (Z.leb_spec TOP r); [lia|].
  pose proof (rnd_at_range 1 r ltac:(lia)) as R.
  change (2 ^ 1) with 2 in R.
  destruct (Z.eq_dec r 0) as [->|Hne];
    [change (rnd_at 1 0) with 0; simpl; lia|].
  rewrite Z.sgn_pos by lia.
  destruct (Z.eq_dec r 1) as [->|Hne1]; [change (rnd_at 1 1) with 0; lia|].
  pose proof (Z.div_mod r 2 ltac:(lia)).
  pose proof (Z.mod_pos_bound r 2 ltac:(lia)). lia.
Qed.

Lemma half_rank_mono (r1 r2 : Z) : r1 <= r2 -> half_rank r1 <= half_rank r2.
Proof.
  assert (Hpos : forall a b, 0 <= a -> a <= b -> half_rank a <= half_rank b).
  { intros a b Ha Hab. unfold half_rank. rewrite !Z.abs_eq by lia.
    pose proof (rnd_at_mono 1 a b ltac:(lia) Hab) as M.
    pose proof (half_rank_range a Ha) as Ra. unfold half_rank in Ra.
    rewrite Z.abs_eq in Ra by lia.
    destruct (Z.leb_spec TOP a); destruct (Z.leb_spec TOP b); try lia.
    destruct (Z.eq_dec a 0) as [->|Hne].
    - pose proof (rnd_at_range 1 b ltac:(lia)).
      pose proof (Z.div_pos b (2 ^ 1) ltac:(lia) ltac:(lia)).
      change (Z.sgn 0) with 0.
      destruct (Z.sgn_spec b) as [[A ->]|[[A ->]|[A ->]]]; lia.
    - rewrite !Z.sgn_pos by lia. lia. }
  intros H.
  destruct (Z.le_gt_cases 0 r1) as [H1|H1].
  - apply Hpos; lia.
  - destruct (Z.le_gt_cases 0 r2) as [H2|H2].
    + pose proof (half_rank_range r2 H2).
      pose proof (half_rank_range (- r1) ltac:(lia)).
      rewrite half_rank_opp in *. lia.
    + pose proof (Hpos (- r2) (- r1) ltac:(lia) ltac:(lia)).
      rewrite !half_rank_opp in *. lia.
Qed.

Lemma half_rank_double (r : Z) : 2 * Z.abs r < TOP -> half_rank (2 * r) = r.
Proof.
  intros H. unfold half_rank. rewrite Z.abs_mul, Z.sgn_mul.
  change (Z.abs 2) with 2. change (Z.sgn 2) with 1.
  destruct (Z.leb_spec TOP (2 * Z.abs r)); [lia|].
  replace (2 * Z.abs r) with (Z.abs r * 2 ^ 1) by (change (2 ^ 1) with 2; lia).
  rewrite rnd_at_exact by lia.
  destruct (Z.sgn_spec r) as [[A ->]|[[A ->]|[A ->]]]; lia.
Qed.

Lemma half_rank_top (r : Z) : TOP <= Z.abs r -> half_rank r = r.
Proof.
  intros H. unfold half_rank. destruct (Z.leb_spec TOP (Z.abs r)); lia.
Qed.

(** Half of a rounded value is not above a rank it does not exceed twice,
    ... *)
Lemma half_round_upper (U z : Z) :
  is_rank U -> 2 * U < LIM -> z <= 2 * U -> half_rank (round32 z) <= U.
Proof.
  intros HU Hb Hz. pose proof TOP_LIM.
  assert (M : round32 z <= round32 (2 * U)) by (apply round32_mono; lia).
  apply half_rank_mono in M.
  destruct (Z.lt_ge_cases (2 * Z.abs U) LIM) as [Hs|Hs].
  - rewrite (round32_id (2 * U)) in M by (apply is_rank_double; assumption).
    rewrite half_rank_double in M by lia. exact M.
  - assert (Hneg : U < 0) by lia.
    rewrite (round32_sat (2 * U)) in M by lia.
    rewrite (Z.sgn_neg (2 * U)) in M by lia.
    rewrite (half_rank_top (-1 * TOP)) in M by lia.
    destruct HU as [_ [HU|HU]]; lia.
Qed.

(** ... and, short of overflow, not below one it reaches twice. *)
Lemma half_round_lower (V z : Z) :
  is_rank V -> 2 * Z.abs V < LIM -> 2 * V <= z -> V <= half_rank (round32 z).
Proof.
  intros HV Hb Hz. pose proof TOP_LIM.
  assert (M : round32 (2 * V) <= round32 z) by (apply round32_mono; lia).
  apply half_rank_mono in M.
  rewrite (round32_id (2 * V)) in M by (apply is_rank_double; assumption).
  rewrite half_rank_double in M by lia. exact M.
Qed.

(** *** The rank of a binary32 value *)

Lemma digits2_pos_log2 (m : positive) :
  Z.pos (digits2_pos m) = Z.log2 (Z.pos m) + 1.
Proof.
  assert (E : forall p, digits2_pos p = Pos.size p)
    by (induction p; simpl; congruence).
  destruct m; simpl; rewrite ?E; lia.
Qed.

Lemma bounded_spec (m : positive) (e : Z) :
  bounded 24 128 m e = true <->
  -149 <= e <= 104 /\ Z.pos m < 2 ^ 24 /\ (e = -149 \/ 2 ^ 23 <= Z.pos m).
Proof.
  unfold bounded, canonical_mantissa, fexp, emin.
  rewrite digits2_pos_log2, andb_true_iff, Z.eqb_eq, Z.leb_le.
  change (3 - 128 - 24) with (-149). change (128 - 24) with 104.
  rewrite (Z.log2_lt_pow2 (Z.pos m) 24) by lia.
  rewrite (Z.log2_le_pow2 (Z.pos m) 23) by lia.
  lia.
Qed.

Lemma mag_bounds (m : positive) (e : Z) :
  bounded 24 128 m e = true -> 0 < mag m e < LIM.
Proof.
  intros H. apply bounded_spec in H. destruct H as (He & Hm & _).
  unfold mag, LIM.
  assert (0 < 2 ^ (e + 149)) by (apply Z.pow_pos_nonneg; lia).
  assert (2 ^ (e + 149) <= 2 ^ 253) by (apply Z.pow_le_mono_r; lia).
  change (2 ^ 277) with (2 ^ 24 * 2 ^ 253). nia.
Qed.

Lemma mag_lt_exp (m1 m2 : positive) (e1 e2 : Z) :
  bounded 24 128 m1 e1 = true -> bounded 24 128 m2 e2 = true ->
  e1 < e2 -> mag m1 e1 < mag m2 e2.
Proof.
  intros H1 H2 He. apply bounded_spec in H1, H2.
  destruct H1 as (He1 & Hm1 & _). destruct H2 as (He2 & Hm2 & Hn2).
  unfold mag.
  assert (P1 : 0 < 2 ^ (e1 + 149)) by (apply Z.pow_pos_nonneg; lia).
  assert (P2 : 2 ^ (e1 + 149 + 1) <= 2 ^ (e2 + 149))
    by (apply Z.pow_le_mono_r; lia).
  rewrite Z.pow_add_r in P2 by lia. change (2 ^ 1) with 2 in P2.
  change (2 ^ 24) with (2 * 2 ^ 23) in Hm1.
  assert (2 ^ 23 <= Z.pos m2) by lia.
  assert (0 < 2 ^ 23) by reflexivity. nia.
Qed.

Lemma mag_compare (m1 m2 : positive) (e : Z) :
  -149 <= e -> (mag m1 e ?= mag m2 e) = (m1 ?= m2)%positive.
Proof.
  intros He. unfold mag.
  assert (P : 0 < 2 ^ (e + 149)) by (apply Z.pow_pos_nonneg; lia).
  change (m1 ?= m2)%positive with (Z.pos m1 ?= Z.pos m2).
  destruct (Z.compare_spec (Z.pos m1) (Z.pos m2)) as [E|E|E].
  - rewrite E. apply Z.compare_refl.
  - apply Z.compare_lt_iff. nia.
  - apply Z.compare_gt_iff. nia.
Qed.

Lemma finite_compare (m1 m2 : positive) (e1 e2 : Z) :
  bounded 24 128 m1 e1 = true -> bounded 24 128 m2 e2 = true ->
  match e1 ?= e2 with
  | Lt => Lt
  | Gt => Gt
  | Eq => Pos.compare_cont Eq m1 m2
  end = (mag m1 e1 ?= mag m2 e2).
Proof.
  intros H1 H2. symmetry.
  destruct (Z.compare_spec e1 e2) as [E|E|E].
  - subst e2. apply mag_compare. apply bounded_spec in H1. lia.
  - apply Z.compare_lt_iff. apply mag_lt_exp; assumption.
  - apply Z.compare_gt_iff. apply mag_lt_exp; assumption.
Qed.

(** On binary32 numbers the comparison is that of the ranks. *)
Lemma compare_rank (x y : float32) :
  number32 x = true -> number32 y = true ->
  SFcompare x y = Some (rank32 x ?= rank32 y).
Proof.
  pose proof TOP_LIM as HT. pose proof LIM_pos as HL.
  destruct x as [sx|sx| |sx mx ex]; destruct y as [sy|sy| |sy my ey];
    try discriminate; cbn [number32 valid_binary rank32 SFcompare];
    intros Hx Hy;
    try (pose proof (mag_bounds _ _ Hx) as Bx);
    try (pose proof (mag_bounds _ _ Hy) as By).
  9:{ pose proof (finite_compare _ _ _ _ Hx Hy) as C.
      destruct sx, sy; f_equal.
      - rewrite Z.compare_opp.
        rewrite (Z.compare_antisym (mag mx ex) (mag my ey)), <- C.
        destruct (ex ?= ey); reflexivity.
      - symmetry. apply Z.compare_lt_iff. lia.
      - symmetry. apply Z.compare_gt_iff. lia.
      - exact C. }
  all: try (destruct sx); try (destruct sy); f_equal; symmetry;
    try (apply Z.compare_eq_iff; lia);
    try (apply Z.compare_lt_iff; lia);
    try (apply Z.compare_gt_iff; lia).
Qed.

Lemma SFleb_rank (x y : float32) :
  number32 x = true -> number32 y = true ->
  SFleb x y = (rank32 x <=? rank32 y).
Proof.
  intros Hx Hy. unfold SFleb. rewrite compare_rank by assumption.
  unfold Z.leb. destruct (rank32 x ?= rank32 y); reflexivity.
Qed.

Lemma SFltb_rank (x y : float32) :
  number32 x = true -> number32 y = true ->
  SFltb x y = (rank32 x <? rank32 y).
Proof.
  intros Hx Hy. unfold SFltb. rewrite compare_rank by assumption.
  unfold Z.ltb. destruct (rank32 x ?= rank32 y); reflexivity.
Qed.

(** A comparison that holds has two numbers for arguments. *)
Lemma SFleb_not_nan (x y : float32) :
  SFleb x y = true -> x <> S754_nan /\ y <> S754_nan.
Proof.
  unfold SFleb. destruct x, y; simpl; intros H; split; congruence.
Qed.

Lemma rank_is_rank (x : float32) : number32 x = true -> is_rank (rank32 x).
Proof.
  destruct x as [s|s| |s m e]; try discriminate; cbn [number32 valid_binary rank32];
    intros H.
  - apply is_rank_0.
  - assert (R : is_rank TOP).
    { split; [exists 1, 300; unfold TOP; lia | right; pose proof TOP_LIM;
                                                pose proof LIM_pos; lia]. }
    destruct s; [apply is_rank_opp|]; exact R.
  - pose proof (mag_bounds m e H) as B.
    assert (R : is_rank (mag m e)).
    { apply bounded_spec in H. split; [|left; lia].
      exists (Z.pos m), (e + 149). unfold mag in *. lia. }
    destruct s; [apply is_rank_opp|]; exact R.
Qed.

(** *** The shifts of the rounding algorithm *)

Lemma loc_of_cases (rho P : Z) (l : location) :
  loc_of rho P = l ->
  match l with
  | loc_Exact => rho = 0
  | loc_Inexact Lt => rho <> 0 /\ 2 * rho < P
  | loc_Inexact Eq => rho <> 0 /\ 2 * rho = P
  | loc_Inexact Gt => rho <> 0 /\ 2 * rho > P
  end.
Proof.
  unfold loc_of. destruct (Z.eqb_spec rho 0) as [E|E]; intros <-; [exact E|].
  destruct (Z.compare_spec (2 * rho) P); split; auto; lia.
Qed.

Lemma loc_of_intro (rho P : Z) (l : location) :
  match l with
  | loc_Exact => rho = 0
  | loc_Inexact Lt => rho <> 0 /\ 2 * rho < P
  | loc_Inexact Eq => rho <> 0 /\ 2 * rho = P
  | loc_Inexact Gt => rho <> 0 /\ 2 * rho > P
  end -> loc_of rho P = l.
Proof.
  unfold loc_of. destruct l as [|[| |]]; intros H.
  - subst. reflexivity.
  - destruct H as [H1 H2]. destruct (Z.eqb_spec rho 0); [lia|].
    f_equal. apply Z.compare_eq_iff. exact H2.
  - destruct H as [H1 H2]. destruct (Z.eqb_spec rho 0); [lia|].
    f_equal. apply Z.compare_lt_iff. exact H2.
  - destruct H as [H1 H2]. destruct (Z.eqb_spec rho 0); [lia|].
    f_equal. apply Z.compare_gt_iff. lia.
Qed.

Lemma locates_start (m : Z) :
  0 <= m -> locates m 0 (shr_record_of_loc m loc_Exact).
Proof.
  intros H. unfold locates. cbn [shr_record_of_loc shr_m loc_of_shr_record].
  change (2 ^ 0) with 1. rewrite Z.mul_1_r, Z.sub_diag.
  split; [exact H|]. split; [lia|reflexivity].
Qed.

Lemma locates_step (z k : Z) (r : shr_record) :
  0 <= k -> locates z k r -> locates z (k + 1) (shr_1 r).
Proof.
  intros Hk (Hm & Hr & Hl).
  assert (HP : 0 < 2 ^ k) by (apply Z.pow_pos_nonneg; lia).
  unfold locates. rewrite Z.pow_add_r by lia. change (2 ^ 1) with 2.
  destruct r as [m rb sb]. cbn [shr_m] in *.
  symmetry in Hl. apply loc_of_cases in Hl.
  destruct m as [|[p|p|]|p]; try lia;
    destruct rb, sb; cbn [shr_1 shr_m loc_of_shr_record orb] in *;
    (split; [lia|]); (split; [lia|]); symmetry; apply loc_of_intro; lia.
Qed.

Lemma iter_pos_locates (z : Z) :
  forall (p : positive) (k : Z) (r : shr_record),
    0 <= k -> locates z k r -> locates z (k + Z.pos p) (iter_pos shr_1 p r).
Proof.
  induction p as [p IH|p IH|]; intros k r Hk H; cbn [iter_pos].
  - replace (k + Z.pos p~1) with (k + 1 + Z.pos p + Z.pos p) by lia.
    apply IH; [lia|]. apply IH; [lia|]. apply locates_step; assumption.
  - replace (k + Z.pos p~0) with (k + Z.pos p + Z.pos p) by lia.
    apply IH; [lia|]. apply IH; assumption.
  - apply locates_step; assumption.
Qed.

Lemma locates_round (z k : Z) (r : shr_record) :
  0 <= k -> locates z k r ->
  shr_m r = z / 2 ^ k /\
  round_nearest_even (shr_m r) (loc_of_shr_record r) = rnd_at k z.
Proof.
  intros Hk (Hm & Hr & Hl).
  assert (HP : 0 < 2 ^ k) by (apply Z.pow_pos_nonneg; lia).
  set (rho := z - shr_m r * 2 ^ k) in *.
  assert (Hq : z / 2 ^ k = shr_m r).
  { symmetry. apply Z.div_unique with rho; [lia|]. unfold rho. lia. }
  assert (Hrho : z mod 2 ^ k = rho).
  { symmetry. apply Z.mod_unique with (shr_m r); [lia|]. unfold rho. lia. }
  split; [congruence|].
  unfold rnd_at. cbv zeta. rewrite Hq, Hrho, Hl.
  unfold loc_of. destruct (Z.eqb_spec rho 0) as [E|E].
  - rewrite E. change (2 * 0) with 0. cbn [round_nearest_even].
    destruct (Z.compare_spec 0 (2 ^ k)); lia.
  - cbn [round_nearest_even]. destruct (2 * rho ?= 2 ^ k); reflexivity.
Qed.

(** The first shift of [binary_round_aux] on an exact input. *)
Lemma shr_fexp_exact (m e n : Z) :
  0 < m -> n = fexp 24 128 (Zdigits2 m + e) - e -> 0 <= n ->
  exists r, shr_fexp 24 128 m e loc_Exact = (r, e + n) /\ locates m n r.
Proof.
  intros Hm Hn Hn0. unfold shr_fexp. rewrite <- Hn.
  pose proof (locates_start m ltac:(lia)) as H0.
  destruct n as [|p|p]; try lia; cbn [shr].
  - rewrite Z.add_0_r. eauto.
  - eexists. split; [reflexivity|].
    apply (iter_pos_locates m p 0); [lia|exact H0].
Qed.

Lemma rnd_at_shift (n a m : Z) :
  0 <= n -> 0 <= a -> rnd_at (n + a) (m * 2 ^ a) = rnd_at n m.
Proof.
  intros Hn Ha.
  assert (Pa : 0 < 2 ^ a) by (apply Z.pow_pos_nonneg; lia).
  assert (Pn : 0 < 2 ^ n) by (apply Z.pow_pos_nonneg; lia).
  unfold rnd_at. cbv zeta. rewrite Z.pow_add_r by lia.
  rewrite Z.div_mul_cancel_r, Z.mul_mod_distr_r by lia.
  replace (2 * (m mod 2 ^ n * 2 ^ a)) with (2 * (m mod 2 ^ n) * 2 ^ a) by lia.
  assert (C : (2 * (m mod 2 ^ n) * 2 ^ a ?= 2 ^ n * 2 ^ a)
              = (2 * (m mod 2 ^ n) ?= 2 ^ n)).
  { destruct (Z.compare_spec (2 * (m mod 2 ^ n)) (2 ^ n)) as [E|E|E].
    - rewrite E. apply Z.compare_refl.
    - apply Z.compare_lt_iff. nia.
    - apply Z.compare_gt_iff. nia. }
  rewrite C. reflexivity.
Qed.

(** *** [binary_normalize] *)

Lemma binary_round_aux_finish (s : bool) (m e : Z) (l : location) :
  binary_round_aux 24 128 s m e l
  = finish32 s
      (round_nearest_even (shr_m (fst (shr_fexp 24 128 m e l)))
         (loc_of_shr_record (fst (shr_fexp 24 128 m e l))))
      (snd (shr_fexp 24 128 m e l)).
Proof.
  unfold binary_round_aux, finish32.
  destruct (shr_fexp 24 128 m e l) as [mrs e']. reflexivity.
Qed.

Lemma pow2_277 (t : Z) : -149 <= t -> 2 ^ 24 * 2 ^ (t + 149) = 2 ^ (t + 173).
Proof.
  intros H. rewrite <- Z.pow_add_r by lia. f_equal. lia.
Qed.

Lemma finish32_spec (s : bool) (q t : Z) :
  0 < q <= 2 ^ 24 -> -149 <= t -> (t = -149 \/ 2 ^ 23 <= q) ->
  number32 (finish32 s q t) = true /\
  rank32 (finish32 s q t)
  = signed s (if LIM <=? q * 2 ^ (t + 149) then TOP else q * 2 ^ (t + 149)).
Proof.
  intros Hq Ht Hn.
  assert (P : 0 < 2 ^ (t + 149)) by (apply Z.pow_pos_nonneg; lia).
  destruct (Z.eq_dec q (2 ^ 24)) as [E|E].
  - subst q. change (2 ^ 24) with 16777216 in *.
    unfold finish32, shr_fexp. cbn [Zdigits2 digits2_pos Pos.succ].
    replace (fexp 24 128 (25 + t) - t) with 1 by (unfold fexp, emin; lia).
    cbn [shr shr_record_of_loc iter_pos shr_1 shr_m].
    change (128 - 24) with 104.
    destruct (Z.leb_spec (t + 1) 104) as [Hle|Hgt].
    + assert (B : bounded 24 128 8388608 (t + 1) = true).
      { apply bounded_spec. split; [lia|]. split; [reflexivity|].
        right. discriminate. }
      split; [exact B|]. cbn [rank32]. pose proof (mag_bounds _ _ B) as M.
      unfold mag in *. replace (t + 1 + 149) with (t + 149 + 1) in * by lia.
      rewrite Z.pow_add_r in * by lia. change (2 ^ 1) with 2 in *.
      replace (16777216 * 2 ^ (t + 149))
        with (8388608 * (2 ^ (t + 149) * 2)) by lia.
      destruct (Z.leb_spec LIM (8388608 * (2 ^ (t + 149) * 2))); [lia|].
      reflexivity.
    + split; [reflexivity|]. cbn [rank32].
      assert (LIM <= 16777216 * 2 ^ (t + 149)).
      { change 16777216 with (2 ^ 24). rewrite pow2_277 by lia.
        unfold LIM. apply Z.pow_le_mono_r; lia. }
      destruct (Z.leb_spec LIM (16777216 * 2 ^ (t + 149))); [|lia].
      destruct s; reflexivity.
  - destruct q as [|p|p]; try lia.
    assert (Hlt : Z.pos p < 2 ^ 24) by lia.
    unfold finish32, shr_fexp. cbn [Zdigits2].
    replace (fexp 24 128 (Z.pos (digits2_pos p) + t) - t) with 0.
    2:{ unfold fexp, emin. rewrite digits2_pos_log2.
        apply (Z.log2_lt_pow2 (Z.pos p) 24) in Hlt; [|lia].
        destruct Hn as [Hn|Hn]; [lia|].
        apply (Z.log2_le_pow2 (Z.pos p) 23) in Hn; [|lia]. lia. }
    cbn [shr shr_record_of_loc shr_m]. change (128 - 24) with 104.
    destruct (Z.leb_spec t 104) as [Hle|Hgt].
    + assert (B : bounded 24 128 p t = true).
      { apply bounded_spec. split; [lia|]. split; [exact Hlt|exact Hn]. }
      split; [exact B|]. cbn [rank32]. pose proof (mag_bounds _ _ B) as M.
      unfold mag in *.
      destruct (Z.leb_spec LIM (Z.pos p * 2 ^ (t + 149))); [lia|].
      reflexivity.
    + split; [reflexivity|]. cbn [rank32].
      assert (LIM <= Z.pos p * 2 ^ (t + 149)).
      { destruct Hn as [Hn|Hn]; [lia|].
        assert (2 ^ 254 <= 2 ^ (t + 149)) by (apply Z.pow_le_mono_r; lia).
        unfold LIM. change (2 ^ 277) with (2 ^ 23 * 2 ^ 254).
        assert (0 < 2 ^ 23) by reflexivity. assert (0 < 2 ^ 254) by reflexivity.
        nia. }
      destruct (Z.leb_spec LIM (Z.pos p * 2 ^ (t + 149))); [|lia].
      destruct s; reflexivity.
Qed.

Lemma rshift_mag (m : positive) (e : Z) :
  -149 <= e ->
  rshift (mag m e) = fexp 24 128 (Z.pos (digits2_pos m) + e) + 149.
Proof.
  intros He. unfold rshift, mag, fexp, emin.
  rewrite Z.log2_mul_pow2, digits2_pos_log2 by lia. lia.
Qed.

(** [binary_round_aux] on an exact value whose exponent is not above the
    one of its format: a binary32 number of the rank that [RNcap] gives. *)
Lemma binary_round_aux_exact (s : bool) (m : positive) (e : Z) :
  -149 <= e -> e <= fexp 24 128 (Z.pos (digits2_pos m) + e) ->
  number32 (binary_round_aux 24 128 s (Z.pos m) e loc_Exact) = true /\
  rank32 (binary_round_aux 24 128 s (Z.pos m) e loc_Exact)
  = signed s (RNcap (mag m e)).
Proof.
  intros He Hn.
  set (n := fexp 24 128 (Z.pos (digits2_pos m) + e) - e).
  destruct (shr_fexp_exact (Z.pos m) e n) as (r & Hr & Hloc);
    [lia | reflexivity | unfold n; lia |].
  rewrite binary_round_aux_finish, Hr. cbn [fst snd].
  assert (Hn0 : 0 <= n) by (unfold n; lia).
  destruct (locates_round _ _ _ Hn0 Hloc) as [Hq ->].
  pose proof (rshift_mag m e He) as Hk.
  assert (HRN : RN (mag m e) = rnd_at n (Z.pos m) * 2 ^ (e + n + 149)).
  { unfold RN. rewrite Hk.
    replace (fexp 24 128 (Z.pos (digits2_pos m) + e) + 149)
      with (n + (e + 149)) by (unfold n; lia).
    unfold mag. rewrite rnd_at_shift by lia.
    f_equal. f_equal. lia. }
  pose proof (Z.log2_spec (Z.pos m) ltac:(lia)) as [L1 L2].
  assert (Hfexp : n = Z.max (Z.log2 (Z.pos m) - 23) (-149 - e)).
  { unfold n, fexp, emin. rewrite digits2_pos_log2. lia. }
  assert (B : 0 < rnd_at n (Z.pos m) <= 2 ^ 24 /\
              (e + n = -149 \/ 2 ^ 23 <= rnd_at n (Z.pos m))).
  { destruct (Z.eq_dec n 0) as [E|E].
    - rewrite E in *. rewrite <- (Z.mul_1_r (Z.pos m)) at 1 2 3.
      change 1 with (2 ^ 0) at 1 2 3. rewrite rnd_at_exact by lia.
      assert (Z.log2 (Z.pos m) <= 23) by lia.
      assert (Z.pos m < 2 ^ 24).
      { apply Z.log2_lt_pow2; lia. }
      split; [lia|].
      destruct (Z.eq_dec e (-149)) as [E1|E1]; [left; lia|right].
      apply Z.log2_le_pow2; lia.
    - assert (En : Z.log2 (Z.pos m) = 23 + n) by lia.
      rewrite En in *.
      assert (Pn : 0 < 2 ^ n) by (apply Z.pow_pos_nonneg; lia).
      replace (Z.succ (23 + n)) with (24 + n) in L2 by lia.
      rewrite Z.pow_add_r in L1, L2 by lia.
      assert (2 ^ 23 <= Z.pos m / 2 ^ n)
        by (apply Z.div_le_lower_bound; lia).
      assert (Z.pos m / 2 ^ n < 2 ^ 24)
        by (apply Z.div_lt_upper_bound; lia).
      pose proof (rnd_at_range n (Z.pos m) Hn0).
      assert (0 < 2 ^ 23) by reflexivity. lia. }
  destruct B as [B1 B2].
  destruct (finish32_spec s (rnd_at n (Z.pos m)) (e + n) B1 ltac:(lia) B2)
    as [F1 F2].
  split; [exact F1|]. rewrite F2. unfold RNcap. rewrite HRN. reflexivity.
Qed.

Lemma pos_iter_xO (m d : positive) :
  Z.pos (Pos.iter xO m d) = Z.pos m * 2 ^ Z.pos d.
Proof.
  induction d as [|d IH] using Pos.peano_ind.
  - simpl. lia.
  - rewrite Pos.iter_succ, Pos2Z.inj_succ, Z.pow_succ_r by lia.
    rewrite Pos2Z.inj_xO, IH. lia.
Qed.

(** Alignment to a lower exponent keeps the value. *)
Lemma shl_align_spec (m : positive) (e t : Z) :
  snd (shl_align m e t) = Z.min e t /\
  Z.pos (fst (shl_align m e t)) = Z.pos m * 2 ^ (e - Z.min e t).
Proof.
  unfold shl_align. destruct (t - e) as [|d|d] eqn:E; cbn [fst snd].
  - replace (Z.min e t) with e by lia. rewrite Z.sub_diag. simpl. lia.
  - replace (Z.min e t) with e by lia. rewrite Z.sub_diag. simpl. lia.
  - replace (Z.min e t) with t by lia. split; [reflexivity|].
    rewrite pos_iter_xO. f_equal. f_equal. lia.
Qed.

Lemma binary_round_rank (s : bool) (m : positive) (e : Z) :
  -149 <= e ->
  number32 (binary_round 24 128 s m e) = true /\
  rank32 (binary_round 24 128 s m e) = signed s (RNcap (mag m e)).
Proof.
  intros He. unfold binary_round.
  remember (fexp 24 128 (Z.pos (digits2_pos m) + e)) as t eqn:Et.
  pose proof (shl_align_spec m e t) as [A1 A2].
  destruct (shl_align m e t) as [mz ez]. cbn [fst snd] in *.
  assert (Ht : -149 <= t) by (rewrite Et; unfold fexp, emin; lia).
  assert (Hmag : mag mz ez = mag m e).
  { unfold mag. rewrite A2, A1, <- Z.mul_assoc, <- Z.pow_add_r by lia.
    f_equal. f_equal. lia. }
  rewrite <- Hmag. apply binary_round_aux_exact; [lia|].
  assert (D : Z.log2 (Z.pos mz) = Z.log2 (Z.pos m) + (e - ez)).
  { rewrite A2, A1, Z.log2_mul_pow2 by lia. lia. }
  unfold fexp, emin in *. rewrite !digits2_pos_log2 in *. lia.
Qed.

(** The binary32 value nearest to [M * 2^e], as a rank. *)
Lemma binary_normalize_rank (M e : Z) (sz : bool) :
  -149 <= e ->
  number32 (binary_normalize 24 128 M e sz) = true /\
  rank32 (binary_normalize 24 128 M e sz) = round32 (M * 2 ^ (e + 149)).
Proof.
  intros He.
  assert (P : 0 < 2 ^ (e + 149)) by (apply Z.pow_pos_nonneg; lia).
  destruct M as [|m|m]; cbn [binary_normalize].
  - split; reflexivity.
  - destruct (binary_round_rank false m e He) as [A B].
    split; [exact A|]. rewrite B, round32_cap. cbn [signed].
    fold (mag m e). pose proof (Z.mul_pos_pos _ _ (Pos2Z.is_pos m) P).
    unfold mag in *. rewrite Z.sgn_pos, Z.abs_eq by lia. lia.
  - destruct (binary_round_rank true m e He) as [A B].
    split; [exact A|]. rewrite B, round32_cap. cbn [signed].
    pose proof (Z.mul_pos_pos _ _ (Pos2Z.is_pos m) P).
    assert (E : Z.neg m * 2 ^ (e + 149) = - mag m e) by (unfold mag; lia).
    rewrite E, Z.sgn_neg, Z.abs_neq by (unfold mag; lia).
    rewrite Z.opp_involutive. lia.
Qed.

(** *** Sums and differences *)

Lemma TOP_2LIM : 2 * LIM <= TOP.
Proof.
  unfold LIM, TOP. change (2 * 2 ^ 277) with (2 ^ 278).
  apply Z.pow_le_mono_r; lia.
Qed.

Lemma aligned_mag (s : bool) (m : positive) (e ez : Z) :
  -149 <= ez <= e ->
  cond_Zopp s (Z.pos (fst (shl_align m e ez))) * 2 ^ (ez + 149)
  = signed s (mag m e).
Proof.
  intros H. destruct (shl_align_spec m e ez) as [_ A]. rewrite A.
  replace (Z.min e ez) with ez by lia.
  assert (E : Z.pos m * 2 ^ (e - ez) * 2 ^ (ez + 149) = mag m e).
  { unfold mag. rewrite <- Z.mul_assoc, <- Z.pow_add_r by lia.
    f_equal. f_equal. lia. }
  destruct s; cbn [cond_Zopp signed]; lia.
Qed.

Lemma rank_finite (s : bool) (m : positive) (e : Z) :
  rank32 (S754_finite s m e) = signed s (mag m e).
Proof. reflexivity. Qed.

Lemma round32_rank (x : float32) :
  number32 x = true -> round32 (rank32 x) = rank32 x.
Proof. intros H. apply round32_id. apply rank_is_rank. exact H. Qed.

Lemma rank_bound (x : float32) :
  number32 x = true ->
  (Z.abs (rank32 x) < LIM \/ Z.abs (rank32 x) = TOP).
Proof. intros H. apply rank_is_rank in H. apply H. Qed.

(** Subtraction in binary32 is the rounded difference of the ranks, short
    of the undefined difference of two infinities. *)
Lemma fsub32_rank (x y : float32) :
  number32 x = true -> number32 y = true ->
  rank32 x < TOP -> - TOP < rank32 y ->
  number32 (SFsub 24 128 x y) = true /\
  rank32 (SFsub 24 128 x y) = round32 (rank32 x - rank32 y).
Proof.
  intros Hx Hy Bx By.
  pose proof TOP_LIM. pose proof LIM_pos. pose proof TOP_2LIM.
  pose proof (rank_bound x Hx) as Rx. pose proof (rank_bound y Hy) as Ry.
  destruct x as [sx|sx| |sx mx ex]; try discriminate;
    destruct y as [sy|sy| |sy my ey]; try discriminate.
  - split; [destruct sx, sy; reflexivity|].
    destruct sx, sy; reflexivity.
  - destruct sy; cbn [rank32] in By; [lia|].
    split; [reflexivity|]. cbn [SFsub rank32 negb].
    rewrite round32_sat by lia. rewrite Z.sgn_neg by lia. lia.
  - cbn [SFsub]. split; [exact Hy|].
    change (rank32 (S754_zero sx)) with 0. rewrite Z.sub_0_l.
    rewrite <- (round32_rank (S754_finite (negb sy) my ey)) by exact Hy.
    f_equal. rewrite !rank_finite. destruct sy; cbn [negb signed]; lia.
  - destruct sx; cbn [rank32] in Bx; [|lia].
    split; [destruct sy; reflexivity|].
    assert (E : SFsub 24 128 (S754_infinity true) (S754_zero sy)
                = S754_infinity true) by (destruct sy; reflexivity).
    rewrite E. cbn [rank32]. rewrite round32_sat by lia.
    rewrite Z.sgn_neg by lia. lia.
  - destruct sx; cbn [rank32] in Bx; [|lia].
    destruct sy; cbn [rank32] in By; [lia|].
    split; [reflexivity|]. cbn [SFsub rank32].
    rewrite round32_sat by lia. rewrite Z.sgn_neg by lia. lia.
  - destruct sx; cbn [rank32] in Bx; [|lia].
    split; [reflexivity|]. cbn [SFsub].
    remember (rank32 (S754_finite sy my ey)) as ry. cbn [rank32].
    rewrite round32_sat by lia. rewrite Z.sgn_neg by lia. lia.
  - cbn [SFsub]. split; [exact Hx|].
    change (rank32 (S754_zero sy)) with 0. rewrite Z.sub_0_r.
    symmetry. apply round32_rank. exact Hx.
  - destruct sy; cbn [rank32] in By; [lia|].
    split; [reflexivity|]. cbn [SFsub negb].
    remember (rank32 (S754_finite sx mx ex)) as rx. cbn [rank32].
    rewrite round32_sat by lia. rewrite Z.sgn_neg by lia. lia.
  - cbn [number32 valid_binary] in Hx, Hy.
    pose proof (proj1 (bounded_spec _ _) Hx) as (Ex & _).
    pose proof (proj1 (bounded_spec _ _) Hy) as (Ey & _).
    cbn [SFsub]. cbv zeta.
    destruct (binary_normalize_rank
                (cond_Zopp sx (Z.pos (fst (shl_align mx ex (Z.min ex ey))))
                 - cond_Zopp sy (Z.pos (fst (shl_align my ey (Z.min ex ey)))))
                (Z.min ex ey) false ltac:(lia)) as [A B].
    split; [exact A|]. rewrite B. f_equal.
    rewrite Z.mul_sub_distr_r, !aligned_mag by lia. reflexivity.
Qed.

(** Addition in binary32 is the rounded sum of the ranks, when neither
    argument is the positive infinity. *)
Lemma fadd32_rank (x y : float32) :
  number32 x = true -> number32 y = true ->
  rank32 x < TOP -> rank32 y < TOP ->
  number32 (SFadd 24 128 x y) = true /\
  rank32 (SFadd 24 128 x y) = round32 (rank32 x + rank32 y).
Proof.
  intros Hx Hy Bx By.
  pose proof TOP_LIM. pose proof LIM_pos. pose proof TOP_2LIM.
  pose proof (rank_bound x Hx) as Rx. pose proof (rank_bound y Hy) as Ry.
  destruct x as [sx|sx| |sx mx ex]; try discriminate;
    destruct y as [sy|sy| |sy my ey]; try discriminate.
  - split; destruct sx, sy; reflexivity.
  - destruct sy; cbn [rank32] in By; [|lia].
    split; [reflexivity|]. cbn [SFadd rank32].
    rewrite round32_sat by lia. rewrite Z.sgn_neg by lia. lia.
  - cbn [SFadd]. split; [exact Hy|].
    change (rank32 (S754_zero sx)) with 0. rewrite Z.add_0_l.
    symmetry. apply round32_rank. exact Hy.
  - destruct sx; cbn [rank32] in Bx; [|lia].
    split; [reflexivity|]. cbn [SFadd rank32].
    rewrite round32_sat by lia. rewrite Z.sgn_neg by lia. lia.
  - destruct sx; cbn [rank32] in Bx; [|lia].
    destruct sy; cbn [rank32] in By; [|lia].
    split; [reflexivity|]. cbn [SFadd rank32].
    rewrite round32_sat by lia. rewrite Z.sgn_neg by lia. lia.
  - destruct sx; cbn [rank32] in Bx; [|lia].
    split; [reflexivity|]. cbn [SFadd].
    remember (rank32 (S754_finite sy my ey)) as ry. cbn [rank32].
    rewrite round32_sat by lia. rewrite Z.sgn_neg by lia. lia.
  - cbn [SFadd]. split; [exact Hx|].
    change (rank32 (S754_zero sy)) with 0. rewrite Z.add_0_r.
    symmetry. apply round32_rank. exact Hx.
  - destruct sy; cbn [rank32] in By; [|lia].
    split; [reflexivity|]. cbn [SFadd].
    remember (rank32 (S754_finite sx mx ex)) as rx. cbn [rank32].
    rewrite round32_sat by lia. rewrite Z.sgn_neg by lia. lia.
  - cbn [number32 valid_binary] in Hx, Hy.
    pose proof (proj1 (bounded_spec _ _) Hx) as (Ex & _).
    pose proof (proj1 (bounded_spec _ _) Hy) as (Ey & _).
    cbn [SFadd]. cbv zeta.
    destruct (binary_normalize_rank
                (cond_Zopp sx (Z.pos (fst (shl_align mx ex (Z.min ex ey))))
                 + cond_Zopp sy (Z.pos (fst (shl_align my ey (Z.min ex ey)))))
                (Z.min ex ey) false ltac:(lia)) as [A B].
    split; [exact A|]. rewrite B. f_equal.
    rewrite Z.mul_add_distr_r, !aligned_mag by lia. reflexivity.
Qed.

(** *** Halves *)

Lemma div_eucl_pair (a b : Z) : Z.div_eucl a b = (a / b, a mod b).
Proof.
  unfold Z.div, Z.modulo. destruct (Z.div_eucl a b); reflexivity.
Qed.

Lemma half_rank_signed (s : bool) (v : Z) :
  0 <= v < LIM -> half_rank (signed s v) = signed s (rnd_at 1 v).
Proof.
  intros H. pose proof TOP_LIM.
  assert (E : half_rank v = rnd_at 1 v).
  { unfold half_rank. rewrite Z.abs_eq by lia.
    destruct (Z.leb_spec TOP v); [lia|].
    destruct (Z.eq_dec v 0) as [->|Hne]; [reflexivity|].
    rewrite Z.sgn_pos by lia. lia. }
  destruct s; cbn [signed]; [rewrite half_rank_opp|]; rewrite E; reflexivity.
Qed.

Lemma RNcap_small (v : Z) : 0 <= v < 2 ^ 24 -> RNcap v = v.
Proof.
  intros H. unfold RNcap.
  pose proof (RN_id v 0 H ltac:(lia)) as E.
  change (2 ^ 0) with 1 in E. rewrite Z.mul_1_r in E. rewrite E.
  assert (2 ^ 24 < LIM) by (unfold LIM; apply Z.pow_lt_mono_r; lia).
  destruct (Z.leb_spec LIM v); lia.
Qed.

(** Division by 2.0f in binary32 halves the rank, to the nearest even
    rank where the half is not one. *)
Lemma fhalf32_rank (x : float32) :
  number32 x = true ->
  number32 (SFdiv 24 128 x two32) = true /\
  rank32 (SFdiv 24 128 x two32) = half_rank (rank32 x).
Proof.
  intros Hx. pose proof TOP_LIM. pose proof LIM_pos.
  destruct x as [sx|sx| |sx mx ex]; try discriminate.
  - split; reflexivity.
  - split; [reflexivity|]. cbn [SFdiv two32 rank32]. rewrite xorb_false_r.
    rewrite half_rank_top; [reflexivity|]. destruct sx; lia.
  - cbn [number32 valid_binary] in Hx.
    pose proof (mag_bounds _ _ Hx) as Mx.
    pose proof (proj1 (bounded_spec _ _) Hx) as (Ex & Hm & Hn).
    rewrite rank_finite, half_rank_signed by lia.
    unfold two32. cbn [SFdiv]. rewrite xorb_false_r.
    unfold SFdiv_core_binary. cbn [Zdigits2 digits2_pos Pos.succ].
    pose proof (digits2_pos_log2 mx) as D.
    destruct (Z.eq_dec ex (-149)) as [E|E].
    + (* the lowest binade: the half may need rounding *)
      subst ex.
      assert (L : Z.log2 (Z.pos mx) < 24) by (apply Z.log2_lt_pow2; lia).
      replace (Z.min (fexp 24 128 (Z.pos (digits2_pos mx) + -149 - (24 + -22)))
                 (-149 - -22)) with (-149)
        by (unfold fexp, emin; lia).
      change (-149 - -22 - -149) with 22.
      rewrite Z.shiftl_mul_pow2 by lia.
      rewrite div_eucl_pair.
      change 8388608 with (2 * 2 ^ 22).
      rewrite Z.div_mul_cancel_r, Z.mul_mod_distr_r by lia.
      change (2 * 2 ^ 22) with 8388608.
      assert (Hmag : mag mx (-149) = Z.pos mx)
        by (unfold mag; change (2 ^ (-149 + 149)) with 1; lia).
      rewrite Hmag.
      pose proof (Z.div_mod (Z.pos mx) 2 ltac:(lia)) as DM.
      pose proof (Z.mod_pos_bound (Z.pos mx) 2 ltac:(lia)) as MB.
      assert (Hq : 0 <= Z.pos mx / 2 < 2 ^ 23) by lia.
      unfold new_location. change (Z.even 8388608) with true. cbv iota.
      unfold new_location_even.
      destruct (Z.eq_dec (Z.pos mx mod 2) 0) as [R|R].
      * rewrite R. change (0 * 2 ^ 22 =? 0) with true. cbv iota.
        assert (Hr : rnd_at 1 (Z.pos mx) = Z.pos mx / 2).
        { replace (Z.pos mx) with (Z.pos mx / 2 * 2 ^ 1) at 1
            by (change (2 ^ 1) with 2; lia).
          apply rnd_at_exact. lia. }
        rewrite Hr.
        destruct (Z.pos mx / 2) as [|q|q] eqn:Eq; try lia.
        destruct (binary_round_aux_exact sx q (-149) ltac:(lia)) as [A B].
        { unfold fexp, emin. lia. }
        split; [exact A|]. rewrite B. f_equal.
        unfold mag. change (2 ^ (-149 + 149)) with 1. rewrite Z.mul_1_r.
        apply RNcap_small. lia.
      * assert (R1 : Z.pos mx mod 2 = 1) by lia. rewrite R1.
        change (1 * 2 ^ 22 =? 0) with false. cbv iota.
        change (2 * (1 * 2 ^ 22) ?= 8388608) with Eq.
        assert (Hr : rnd_at 1 (Z.pos mx)
                     = if Z.even (Z.pos mx / 2) then Z.pos mx / 2
                       else Z.pos mx / 2 + 1).
        { unfold rnd_at. cbv zeta. change (2 ^ 1) with 2. rewrite R1.
          reflexivity. }
        rewrite Hr.
        rewrite binary_round_aux_finish.
        assert (S : shr_fexp 24 128 (Z.pos mx / 2) (-149) (loc_Inexact Eq)
                    = (shr_record_of_loc (Z.pos mx / 2) (loc_Inexact Eq),
                       -149)).
        { unfold shr_fexp.
          replace (fexp 24 128 (Zdigits2 (Z.pos mx / 2) + -149) - -149)
            with 0; [reflexivity|].
          unfold fexp, emin.
          destruct (Z.pos mx / 2) as [|q|q] eqn:Eq; try lia; cbn [Zdigits2];
            [lia|].
          rewrite digits2_pos_log2.
          assert (Z.log2 (Z.pos q) < 23) by (apply Z.log2_lt_pow2; lia).
          lia. }
        rewrite S. cbn [fst snd shr_record_of_loc shr_m loc_of_shr_record
                        round_nearest_even].
        set (q' := if Z.even (Z.pos mx / 2) then Z.pos mx / 2
                   else Z.pos mx / 2 + 1).
        assert (Hq' : 0 <= q' <= 2 ^ 23)
          by (unfold q'; destruct (Z.even _); lia).
        clearbody q'. change (2 ^ 23) with 8388608 in Hq'.
        destruct (Z.eq_dec q' 0) as [Z0|Z0].
        -- rewrite Z0. split; [reflexivity|]. destruct sx; reflexivity.
        -- destruct (finish32_spec sx q' (-149)) as [A B].
           { change (2 ^ 24) with 16777216. lia. }
           { lia. }
           { left. reflexivity. }
           split; [exact A|]. rewrite B. f_equal.
           change (2 ^ (-149 + 149)) with 1. rewrite Z.mul_1_r.
           assert (2 ^ 23 < LIM) by (unfold LIM; apply Z.pow_lt_mono_r; lia).
           change (2 ^ 23) with 8388608 in *.
           destruct (Z.leb_spec LIM q'); lia.
    + (* above it the half is a number of the format *)
      assert (Hn' : 2 ^ 23 <= Z.pos mx) by lia.
      assert (L : Z.log2 (Z.pos mx) = 23).
      { apply Z.log2_unique; [lia|]. split; [exact Hn'|exact Hm]. }
      assert (Hhalf : mag mx ex = Z.pos mx * 2 ^ (ex + 148) * 2 ^ 1).
      { unfold mag. rewrite <- Z.mul_assoc, <- Z.pow_add_r by lia.
        f_equal. f_equal. lia. }
      assert (Hr : rnd_at 1 (mag mx ex) = Z.pos mx * 2 ^ (ex + 148)).
      { rewrite Hhalf. apply rnd_at_exact. lia. }
      rewrite Hr.
      assert (P : 0 < 2 ^ (ex + 148)) by (apply Z.pow_pos_nonneg; lia).
      assert (Hcap : RNcap (Z.pos mx * 2 ^ (ex + 148))
                     = Z.pos mx * 2 ^ (ex + 148)).
      { unfold RNcap. rewrite RN_id by lia.
        change (2 ^ 1) with 2 in Hhalf.
        destruct (Z.leb_spec LIM (Z.pos mx * 2 ^ (ex + 148))); lia. }
      set (e' := Z.max (ex - 2) (-149)).
      replace (Z.min (fexp 24 128 (Z.pos (digits2_pos mx) + ex - (24 + -22)))
                 (ex - -22)) with e'
        by (unfold e', fexp, emin; lia).
      assert (Hs : ex - -22 - e' = 24 \/ ex - -22 - e' = 23)
        by (unfold e'; lia).
      assert (Hdiv : forall s, 23 <= s ->
                Z.div_eucl (Z.pos mx * 2 ^ s) 8388608
                = (Z.pos mx * 2 ^ (s - 23), 0)).
      { intros s Hs'. rewrite div_eucl_pair.
        replace (Z.pos mx * 2 ^ s) with (Z.pos mx * 2 ^ (s - 23) * 8388608).
        2:{ change 8388608 with (2 ^ 23).
            rewrite <- Z.mul_assoc, <- Z.pow_add_r by lia.
            f_equal. f_equal. lia. }
        rewrite Z.div_mul, Z.mod_mul by lia. reflexivity. }
      assert (Hround : forall s, 23 <= s -> s = ex - -22 - e' ->
                number32 (binary_round_aux 24 128 sx
                            (Z.pos mx * 2 ^ (s - 23)) e' loc_Exact) = true /\
                rank32 (binary_round_aux 24 128 sx
                        (Z.pos mx * 2 ^ (s - 23)) e' loc_Exact)
                = signed sx (Z.pos mx * 2 ^ (ex + 148))).
      { intros s Hs1 Hs2.
        assert (Ps : 0 < 2 ^ (s - 23)) by (apply Z.pow_pos_nonneg; lia).
        destruct (Z.pos mx * 2 ^ (s - 23)) as [|q|q] eqn:Eq; try lia.
        assert (Lq : Z.log2 (Z.pos q) = 23 + (s - 23)).
        { rewrite <- Eq, Z.log2_mul_pow2 by lia. lia. }
        destruct (binary_round_aux_exact sx q e') as [A B].
        { unfold e'. lia. }
        { unfold fexp, emin. rewrite digits2_pos_log2. unfold e' in *. lia. }
        split; [exact A|]. rewrite B. f_equal. rewrite <- Hcap. f_equal.
        unfold mag. rewrite <- Eq, <- Z.mul_assoc, <- Z.pow_add_r
          by (unfold e'; lia).
        f_equal. f_equal. unfold e' in *. lia. }
      unfold new_location. change (Z.even 8388608) with true. cbv iota.
      unfold new_location_even.
      destruct Hs as [Hs|Hs]; rewrite Hs; cbv iota;
        rewrite Z.shiftl_mul_pow2, Hdiv by lia;
        change (0 =? 0) with true; cbv iota;
        apply Hround; lia.
Qed.

(** *** The order laws of binary32 *)

Lemma ONE_pos : 0 < ONE.
Proof. reflexivity. Qed.

Lemma ONE_LIM : 8 * ONE < LIM.
Proof. reflexivity. Qed.

Lemma f32_one : number32 (@f1 float32 binary32) = true /\
                rank32 (@f1 float32 binary32) = ONE.
Proof. split; reflexivity. Qed.

Lemma f32_minus_one : number32 (@of_int float32 binary32 (-1)) = true /\
                      rank32 (@of_int float32 binary32 (-1)) = - ONE.
Proof. split; reflexivity. Qed.

Lemma f32_zero : number32 (@f0 float32 binary32) = true /\
                 rank32 (@f0 float32 binary32) = 0.
Proof. split; reflexivity. Qed.

Lemma fle32 (x y : float32) :
  number32 x = true -> number32 y = true ->
  fle x y = true <-> rank32 x <= rank32 y.
Proof.
  intros Hx Hy. cbn [fle binary32]. rewrite SFleb_rank by assumption.
  apply Z.leb_le.
Qed.

Lemma flt32 (x y : float32) :
  number32 x = true -> number32 y = true ->
  flt x y = true <-> rank32 x < rank32 y.
Proof.
  intros Hx Hy. cbn [flt binary32]. rewrite SFltb_rank by assumption.
  apply Z.ltb_lt.
Qed.

Lemma fle32_false (x y : float32) :
  number32 x = true -> number32 y = true ->
  rank32 y < rank32 x -> fle x y = false.
Proof.
  intros Hx Hy H. cbn [fle binary32]. rewrite SFleb_rank by assumption.
  apply Z.leb_gt. exact H.
Qed.

(** A comparison that holds is between numbers, once they are well
    formed. *)
Lemma fle32_number (x y : float32) :
  valid_binary 24 128 x = true -> valid_binary 24 128 y = true ->
  fle x y = true -> number32 x = true /\ number32 y = true.
Proof.
  intros Vx Vy H. apply SFleb_not_nan in H. destruct H as [Hx Hy].
  destruct x, y; try congruence; auto.
Qed.

Lemma flt32_number (x y : float32) :
  valid_binary 24 128 x = true -> valid_binary 24 128 y = true ->
  flt x y = true -> number32 x = true /\ number32 y = true.
Proof.
  intros Vx Vy H.
  assert (Hn : x <> S754_nan /\ y <> S754_nan).
  { cbn [flt binary32] in H. unfold SFltb in H.
    destruct x, y; simpl in H; split; congruence. }
  destruct Hn as [Hx Hy]. destruct x, y; try congruence; auto.
Qed.

(** [x - d] for a number [x] other than the positive infinity and a
    number [d >= 0]. *)
Lemma fsub32 (x d : float32) :
  number32 x = true -> number32 d = true ->
  rank32 x < TOP -> 0 <= rank32 d ->
  number32 (fsub x d) = true /\
  rank32 (fsub x d) = round32 (rank32 x - rank32 d) /\
  rank32 (fsub x d) <= rank32 x.
Proof.
  intros Hx Hd Bx Bd. pose proof TOP_LIM. pose proof LIM_pos.
  destruct (fsub32_rank x d Hx Hd Bx ltac:(lia)) as [A B].
  cbn [fsub binary32]. split; [exact A|]. split; [exact B|].
  rewrite B. apply round32_sub_le; [apply rank_is_rank; exact Hx | exact Bd].
Qed.

Lemma fsub32_mono (x y d : float32) :
  number32 x = true -> number32 y = true -> number32 d = true ->
  rank32 x <= rank32 y -> rank32 y < TOP -> 0 <= rank32 d ->
  rank32 (fsub x d) <= rank32 (fsub y d).
Proof.
  intros Hx Hy Hd Hxy By Bd.
  destruct (fsub32 x d Hx Hd ltac:(lia) Bd) as (_ & -> & _).
  destruct (fsub32 y d Hy Hd By Bd) as (_ & -> & _).
  apply round32_mono. lia.
Qed.

Lemma fmid32_rank (a b : float32) :
  number32 a = true -> number32 b = true ->
  rank32 a < TOP -> rank32 b < TOP ->
  number32 (fdiv (fadd a b) f2) = true /\
  rank32 (fdiv (fadd a b) f2) = half_rank (round32 (rank32 a + rank32 b)).
Proof.
  intros Ha Hb Ba Bb.
  destruct (fadd32_rank a b Ha Hb Ba Bb) as [A B].
  destruct (fhalf32_rank _ A) as [C D].
  change (fdiv (fadd a b) f2) with (SFdiv 24 128 (SFadd 24 128 a b) two32).
  split; [exact C|]. rewrite D, B. reflexivity.
Qed.

(** The midpoint of two numbers is not above a rank that bounds both. *)
Lemma fmid32_upper (a b : float32) (U : Z) :
  number32 a = true -> number32 b = true ->
  is_rank U -> 2 * U < LIM -> rank32 a <= U -> rank32 b <= U ->
  number32 (fdiv (fadd a b) f2) = true /\ rank32 (fdiv (fadd a b) f2) <= U.
Proof.
  intros Ha Hb HU HB Ua Ub. pose proof TOP_LIM. pose proof LIM_pos.
  destruct (fmid32_rank a b Ha Hb ltac:(lia) ltac:(lia)) as [A B].
  split; [exact A|]. rewrite B. apply half_round_upper; auto. lia.
Qed.

(** Short of overflow it is not below a rank that both reach. *)
Lemma fmid32_lower (a b : float32) (V : Z) :
  number32 a = true -> number32 b = true ->
  rank32 a < TOP -> rank32 b < TOP ->
  is_rank V -> 2 * Z.abs V < LIM -> V <= rank32 a -> V <= rank32 b ->
  V <= rank32 (fdiv (fadd a b) f2).
Proof.
  intros Ha Hb Ba Bb HV HB Va Vb.
  destruct (fmid32_rank a b Ha Hb Ba Bb) as [A B].
  rewrite B. apply half_round_lower; auto. lia.
Qed.

(** [n] steps of size [d] are monotone in the point they start from. *)
Lemma grid_point32 (d : float32) :
  number32 d = true -> 0 <= rank32 d ->
  forall (n : nat) (x y : float32),
    number32 x = true -> number32 y = true ->
    rank32 x <= rank32 y -> rank32 y < TOP ->
    number32 (grid_point d n x) = true /\
    number32 (grid_point d n y) = true /\
    rank32 (grid_point d n x) <= rank32 (grid_point d n y) /\
    rank32 (grid_point d n y) <= rank32 y.
Proof.
  intros Hd Bd. induction n as [|n IH]; intros x y Hx Hy Hxy By;
    cbn [grid_point].
  - repeat split; auto. lia.
  - destruct (fsub32 x d Hx Hd ltac:(lia) Bd) as (A1 & _ & A3).
    destruct (fsub32 y d Hy Hd By Bd) as (B1 & _ & B3).
    pose proof (fsub32_mono x y d Hx Hy Hd Hxy By Bd) as M.
    destruct (IH (fsub x d) (fsub y d) A1 B1 M ltac:(lia))
      as (C1 & C2 & C3 & C4).
    repeat split; auto. lia.
Qed.

(** *** How far rounding moves a value *)

(** The multiples of a power of two that have at most 24 bits are ranks. *)
Lemma is_rank_multiple (k j : Z) :
  Z.abs k < 2 ^ 24 -> 0 <= j <= 200 -> is_rank (k * 2 ^ j).
Proof.
  intros Hk Hj.
  assert (P : 0 < 2 ^ j) by (apply Z.pow_pos_nonneg; lia).
  assert (E : Z.abs (k * 2 ^ j) = Z.abs k * 2 ^ j).
  { rewrite Z.abs_mul, (Z.abs_eq (2 ^ j)) by lia. reflexivity. }
  split.
  - exists (Z.abs k), j. rewrite E. lia.
  - left. rewrite E. unfold LIM.
    assert (A : Z.abs k * 2 ^ j < 2 ^ 24 * 2 ^ j)
      by (apply Z.mul_lt_mono_pos_r; lia).
    assert (B : 2 ^ 24 * 2 ^ j <= 2 ^ 24 * 2 ^ 200).
    { apply Z.mul_le_mono_nonneg_l; [lia|]. apply Z.pow_le_mono_r; lia. }
    assert (C : 2 ^ 24 * 2 ^ 200 < 2 ^ 277).
    { rewrite <- Z.pow_add_r by lia. apply Z.pow_lt_mono_r; lia. }
    lia.
Qed.

(** A value of magnitude at most [2^(j+23)] is rounded to a rank within
    [2^j] of it. *)
Lemma round32_near (j z : Z) :
  0 <= j <= 200 -> Z.abs z <= 2 ^ (j + 23) ->
  z - 2 ^ j <= round32 z <= z + 2 ^ j.
Proof.
  intros Hj Hz.
  assert (P : 0 < 2 ^ j) by (apply Z.pow_pos_nonneg; lia).
  rewrite Z.pow_add_r in Hz by lia.
  pose proof (Z.div_mod z (2 ^ j) ltac:(lia)) as D.
  pose proof (Z.mod_pos_bound z (2 ^ j) P) as M.
  set (k := z / 2 ^ j) in *. set (r := z mod 2 ^ j) in *.
  assert (K : - 2 ^ 23 <= k <= 2 ^ 23) by nia.
  assert (A : round32 (k * 2 ^ j) = k * 2 ^ j).
  { apply round32_id. apply is_rank_multiple; lia. }
  assert (B : round32 ((k + 1) * 2 ^ j) = (k + 1) * 2 ^ j).
  { apply round32_id. apply is_rank_multiple; lia. }
  pose proof (round32_mono (k * 2 ^ j) z ltac:(lia)) as L.
  pose proof (round32_mono z ((k + 1) * 2 ^ j) ltac:(lia)) as U.
  lia.
Qed.

(** Halving a rank moves it by at most half a unit. *)
Lemma half_rank_near (r : Z) :
  Z.abs r < TOP -> r - 1 <= 2 * half_rank r <= r + 1.
Proof.
  intros H. unfold half_rank.
  destruct (Z.leb_spec TOP (Z.abs r)) as [C|_]; [lia|].
  assert (R : Z.abs r - 1 <= 2 * rnd_at 1 (Z.abs r) <= Z.abs r + 1).
  { unfold rnd_at. cbv zeta. change (2 ^ 1) with 2.
    pose proof (Z.div_mod (Z.abs r) 2 ltac:(lia)) as D.
    pose proof (Z.mod_pos_bound (Z.abs r) 2 ltac:(lia)) as M.
    destruct (Z.compare_spec (2 * (Z.abs r mod 2)) 2) as [E|E|E];
      [destruct (Z.even _)| |]; lia. }
  destruct (Z.sgn_spec r) as [[A ->]|[[A ->]|[A ->]]]; lia.
Qed.

(** A difference of magnitude at most [2^(j+23)] is computed within
    [2^j]. *)
Lemma fsub32_near (j : Z) (x d : float32) :
  number32 x = true -> number32 d = true ->
  rank32 x < TOP -> 0 <= rank32 d -> 0 <= j <= 200 ->
  Z.abs (rank32 x - rank32 d) <= 2 ^ (j + 23) ->
  rank32 x - rank32 d - 2 ^ j <= rank32 (fsub x d)
  <= rank32 x - rank32 d + 2 ^ j.
Proof.
  intros Nx Nd Bx Bd Hj Hz.
  destruct (fsub32 x d Nx Nd Bx Bd) as (_ & E & _). rewrite E.
  apply round32_near; assumption.
Qed.

(** The midpoint of two numbers whose sum has magnitude at most
    [2^(j+23)] is computed within [2^(j-1)], and half a unit. *)
Lemma fmid32_near (j : Z) (a b : float32) :
  number32 a = true -> number32 b = true ->
  rank32 a < TOP -> rank32 b < TOP -> 0 <= j <= 200 ->
  Z.abs (rank32 a + rank32 b) <= 2 ^ (j + 23) ->
  number32 (fdiv (fadd a b) f2) = true /\
  rank32 a + rank32 b - 2 ^ j - 1 <= 2 * rank32 (fdiv (fadd a b) f2)
  <= rank32 a + rank32 b + 2 ^ j + 1.
Proof.
  intros Na Nb Ba Bb Hj Hz. pose proof TOP_LIM as HT. pose proof LIM_pos as HL.
  pose proof TOP_2LIM as HT2.
  assert (P : 2 ^ (j + 23) < LIM /\ 2 ^ j < LIM).
  { unfold LIM. split; apply Z.pow_lt_mono_r; lia. }
  destruct P as [P1 P2].
  destruct (fmid32_rank a b Na Nb Ba Bb) as [N E]. split; [exact N|].
  rewrite E.
  pose proof (round32_near j (rank32 a + rank32 b) Hj Hz) as R.
  pose proof (half_rank_near (round32 (rank32 a + rank32 b)) ltac:(lia)).
  lia.
Qed.

(** The rank of a power of two. *)
Lemma f32_pow2 (e : Z) :
  -149 <= e ->
  number32 (f32 1 e) = true /\
  (e < 128 -> rank32 (f32 1 e) = 2 ^ (e + 149)) /\
  (128 <= e -> rank32 (f32 1 e) = TOP).
Proof.
  intros He. unfold f32.
  destruct (binary_normalize_rank 1 e false He) as [N R].
  split; [exact N|]. rewrite R, Z.mul_1_l.
  assert (P : 0 < 2 ^ (e + 149)) by (apply Z.pow_pos_nonneg; lia).
  split; intros H.
  - apply round32_id. split.
    + exists 1, (e + 149). rewrite Z.abs_eq by lia. lia.
    + left. rewrite Z.abs_eq by lia. unfold LIM.
      apply Z.pow_lt_mono_r; lia.
  - rewrite round32_sat.
    + rewrite Z.sgn_pos by lia. lia.
    + rewrite Z.abs_eq by lia. unfold LIM. apply Z.pow_le_mono_r; lia.
Qed.



(** *** The searches of [lpc_to_lsp] in binary32 *)





(** Bisection never takes an end of the bracket, or [xm], above a rank
    that bounds both ends. *)
Lemma bisect_n_below32 (fuel : nat) (pt : list (cell float32)) (order : Z)
  (U : Z) :
  is_rank U -> 2 * U < LIM ->
  forall (n : nat) (b b' : bracket),
    number32 (b_xl b) = true -> number32 (b_xr b) = true ->
    rank32 (b_xl b) <= U -> rank32 (b_xr b) <= U ->
    bisect_n fuel pt order n b = Done b' ->
    number32 (b_xl b') = true /\ number32 (b_xr b') = true /\
    rank32 (b_xl b') <= U /\ rank32 (b_xr b') <= U /\
    ((1 <= n)%nat -> number32 (b_xm b') = true /\ rank32 (b_xm b') <= U).
Proof.
  intros HU HB. induction n as [|n IH]; intros b b' Nl Nr Ul Ur H;
    cbn [bisect_n] in H.
  - inversion H; subst. repeat split; auto; lia.
  - inv_bind H. apply bisect_step_halves in E. cbv zeta in E.
    destruct E as (psumm & _ & Hxm & Hcase).
    destruct (fmid32_upper (b_xl b) (b_xr b) U Nl Nr HU HB Ul Ur) as [M1 M2].
    assert (H1 : number32 (b_xl v) = true /\ number32 (b_xr v) = true /\
                 rank32 (b_xl v) <= U /\ rank32 (b_xr v) <= U /\
                 number32 (b_xm v) = true /\ rank32 (b_xm v) <= U).
    { destruct (fgt (fmul psumm (b_psuml b)) f0);
        destruct Hcase as (A & B & _); rewrite A, B, Hxm; repeat split; auto. }
    destruct H1 as (A1 & A2 & A3 & A4 & A5 & A6).
    destruct (IH v b' A1 A2 A3 A4 H) as (B1 & B2 & B3 & B4 & B5).
    repeat split; auto; destruct n as [|n];
      try (cbn [bisect_n] in H; inversion H; subst; assumption);
      apply B5; lia.
Qed.

(** The grid search of one root index never moves [xl] up. *)
Lemma grid_search_below32 (fuel : nat) (pt : list (cell float32))
  (order nb : Z) (delta : float32) (j : Z) (s s' : grid) (k : nat) :
  number32 delta = true -> 0 <= rank32 delta -> 0 <= nb < INT_MAX ->
  (Z.to_nat (nb + 1) < fuel)%nat ->
  grid_search fuel pt order nb delta j s = Done (s', k) -> flag s = 1 ->
  number32 (xl (g s)) = true -> 2 * rank32 (xl (g s)) < LIM ->
  number32 (xl (g s')) = true /\ rank32 (xl (g s')) <= rank32 (xl (g s)).
Proof.
  intros Nd Bd Hnb Hf H Hfl Nx Bx. unfold grid_search in H.
  pose proof TOP_LIM. pose proof LIM_pos.
  pose (Inv := fun t : grid =>
    number32 (xl (g t)) = true /\ rank32 (xl (g t)) <= rank32 (xl (g s))).
  assert (Hs : Inv s) by (split; [exact Nx|lia]).
  destruct (while_loop_inv Inv grid_cond (grid_step fuel pt order nb delta j))
    with (fuel := fuel) (s := s) (s' := s') (n := k) as [Hi _]; auto.
  clear H Hs. intros t t' [Nt Bt] Hc Hstep. unfold Inv.
  destruct (fsub32 (xl (g t)) delta Nt Nd ltac:(lia) Bd) as (S1 & _ & S3).
  apply grid_step_cases in Hstep.
  destruct Hstep as [(A1 & A2 & _ & _ & A5 & b & c & Hbis & A6)
                    | (B1 & B2 & _ & _ & B5 & _)].
  - rewrite bisection_bisect_n in Hbis by (auto; lia).
    inv_bind Hbis. inversion Hbis; subst b c; clear Hbis.
    apply (bisect_n_below32 fuel pt order (rank32 (xl (g t)))) in E;
      cbn [b_xl b_xr]; auto; try lia.
    2:{ apply rank_is_rank. exact Nt. }
    destruct E as (_ & _ & _ & _ & E). destruct E as [E1 E2]; [lia|].
    rewrite A5, A6. split; [exact E1|lia].
  - rewrite B5. split; [exact S1|lia].
Qed.

Lemma root_step_below32 (fuel : nat) (P Q : list (cell float32))
  (order nb : Z) (delta : float32) (j : Z) (s s' : search) :
  number32 delta = true -> 0 <= rank32 delta -> 0 <= nb < INT_MAX ->
  (Z.to_nat (nb + 1) < fuel)%nat ->
  root_step fuel P Q order nb delta j s = Done s' ->
  number32 (xl s) = true -> 2 * rank32 (xl s) < LIM ->
  number32 (xl s') = true /\ rank32 (xl s') <= rank32 (xl s).
Proof.
  intros Nd Bd Hnb Hf H Nx Bx. unfold root_step in H. cbv zeta in H.
  inv_bind H. inv_bind H. inversion H; subst; clear H.
  destruct v0 as [t k].
  apply grid_search_below32 in E0; auto.
Qed.


(** A grid whose [n]-th point from 1.0 is below -1 leaves the interval
    within [n] steps from any number at or below 1. *)
Lemma grid_exhausts32 (delta : float32) (n : nat) (x : float32) :
  number32 delta = true -> 0 <= rank32 delta ->
  flt (grid_point delta n f1) (of_int (-1)) = true ->
  number32 x = true -> rank32 x <= ONE ->
  fge (grid_point delta n x) (of_int (-1)) = false.
Proof.
  intros Nd Bd H Nx Bx. pose proof TOP_LIM. pose proof ONE_LIM.
  pose proof LIM_pos.
  destruct f32_one as [N1 R1]. destruct f32_minus_one as [Nm Rm].
  destruct (grid_point32 delta Nd Bd n x f1 Nx N1 ltac:(lia) ltac:(lia))
    as (A & B & C & _).
  apply flt32 in H; [|exact B|exact Nm].
  unfold fge. apply fle32_false; [exact Nm|exact A|lia].
Qed.

(** With such a grid the loop over the root indices returns. *)
Lemma root_search_terminates32 (fuel : nat) (P Q : list (cell float32))
  (order nb : Z) (delta : float32) (freq0 : list float32) (n : nat) :
  number32 delta = true -> 0 <= rank32 delta -> 0 <= nb < INT_MAX ->
  (Z.to_nat (nb + 1) < fuel)%nat -> (1 <= n < fuel)%nat ->
  0 <= order < INT_MAX -> (Z.to_nat order < fuel)%nat ->
  order <= Z.of_nat (length freq0) ->
  (forall x, exists v, cheb_poly_eva fuel P x order = Done v) ->
  (forall x, exists v, cheb_poly_eva fuel Q x order = Done v) ->
  flt (grid_point delta n f1) (of_int (-1)) = true ->
  exists st, root_search fuel P Q order nb delta freq0
             = Done (st, Z.to_nat order).
Proof.
  intros Nd Bd Hnb Hf Hn Ho Hfo Hlen HP HQ Hgrid. unfold root_search.
  pose proof ONE_LIM as HL. pose proof ONE_pos as HO.
  destruct f32_one as [N1 R1].
  destruct (@for_loop_run search
              (fun i s => number32 (xl s) = true /\ rank32 (xl s) <= ONE /\
                          0 <= roots s <= i /\
                          length (freq s) = length freq0)
              (fun j => j <? order) (root_step fuel P Q order nb delta)
              (Z.to_nat order) fuel 0
              {| xl := f1; xr := f0; xm := f0; roots := 0; freq := freq0 |})
    as (st & Hl & _).
  1-3: unfold INT_MIN, INT_MAX in *; lia.
  1:{ intros i Hi. apply Z.ltb_lt. lia. }
  1:{ apply Z.ltb_ge. lia. }
  1:{ cbn [xl roots freq]. split; [exact N1|]. split; [lia|].
      split; [lia|reflexivity]. }
  2:{ exists st. exact Hl. }
  intros i s Hi (Nx & Bx & Hr & Hl).
  assert (Hpt : forall x, exists v,
             cheb_poly_eva fuel (if negb (Z.rem i 2 =? 0) then Q else P)
               x order = Done v).
  { destruct (negb (Z.rem i 2 =? 0)); assumption. }
  destruct (Hpt (xl s)) as (psuml0 & Hp).
  destruct (grid_search_bounded fuel _ order nb delta i Hpt
              ltac:(lia) Hf n fuel {| psuml := psuml0; flag := 1; g := s |})
    as (t & k & Hw & _); cbn [g xl roots freq];
    try (unfold INT_MIN, INT_MAX in *; lia).
  { apply grid_exhausts32; assumption. }
  assert (Hstep : root_step fuel P Q order nb delta i s = Done (g t)).
  { unfold root_step. cbv zeta. rewrite Hp. cbn [bind].
    unfold grid_search. rewrite Hw. reflexivity. }
  exists (g t). split; [exact Hstep|].
  pose proof (root_step_below32 _ _ _ _ _ _ _ _ _ Nd Bd Hnb Hf Hstep Nx
                ltac:(lia)) as [Nx' Bx'].
  apply root_step_cases in Hstep. destruct Hstep as [Hlen' Hcase].
  split; [exact Nx'|]. split; [lia|]. split; [|congruence].
  destruct Hcase as [(A & _) | (B & _)]; lia.
Qed.

Lemma rank_abs_bound (V U r : Z) :
  V <= r <= U -> 2 * Z.abs V < LIM -> 2 * Z.abs U < LIM ->
  2 * Z.abs r < LIM.
Proof. lia. Qed.

(** Short of overflow, bisection keeps the bracket ordered and inside the
    initial one, and after at least one step [xm] is one of its ends. *)
Lemma bisect_n_nested32 (fuel : nat) (pt : list (cell float32)) (order : Z)
  (V U : Z) :
  2 * Z.abs V < LIM -> 2 * Z.abs U < LIM ->
  forall (n : nat) (b b' : bracket),
    number32 (b_xl b) = true -> number32 (b_xr b) = true ->
    V <= rank32 (b_xr b) -> rank32 (b_xr b) <= rank32 (b_xl b) ->
    rank32 (b_xl b) <= U ->
    bisect_n fuel pt order n b = Done b' ->
    number32 (b_xl b') = true /\ number32 (b_xr b') = true /\
    V <= rank32 (b_xr b') /\ rank32 (b_xr b') <= rank32 (b_xl b') /\
    rank32 (b_xl b') <= U /\
    ((1 <= n)%nat -> b_xm b' = b_xl b' \/ b_xm b' = b_xr b').
Proof.
  intros HV HU. pose proof TOP_LIM as HT. pose proof LIM_pos as HL.
  induction n as [|n IH]; intros b b' Nl Nr Vr Hrl Ul H;
    cbn [bisect_n] in H.
  - inversion H; subst. repeat split; auto; lia.
  - inv_bind H. apply bisect_step_halves in E. cbv zeta in E.
    destruct E as (psumm & _ & Hxm & Hcase).
    destruct (fmid32_upper (b_xl b) (b_xr b) (rank32 (b_xl b)) Nl Nr)
      as [M1 M2]; try lia.
    { apply rank_is_rank. exact Nl. }
    pose proof (fmid32_lower (b_xl b) (b_xr b) (rank32 (b_xr b)) Nl Nr) as M3.
    specialize (M3 ltac:(lia) ltac:(lia) (rank_is_rank _ Nr) ltac:(lia)
                  ltac:(lia) ltac:(lia)).
    assert (H1 : number32 (b_xl v) = true /\ number32 (b_xr v) = true /\
                 V <= rank32 (b_xr v) /\ rank32 (b_xr v) <= rank32 (b_xl v) /\
                 rank32 (b_xl v) <= U /\
                 (b_xm v = b_xl v \/ b_xm v = b_xr v)).
    { destruct (fgt (fmul psumm (b_psuml b)) f0);
        destruct Hcase as (A & B & _); rewrite A, B, Hxm;
        repeat split; auto; lia. }
    destruct H1 as (A1 & A2 & A3 & A4 & A5 & A6).
    destruct (IH v b' A1 A2 A3 A4 A5 H) as (B1 & B2 & B3 & B4 & B5 & B6).
    repeat split; auto. intros _. destruct n as [|n]; [|apply B6; lia].
    cbn [bisect_n] in H. inversion H; subst. exact A6.
Qed.

(** The state after the branch taken on a bracket. *)
Lemma grid_step_found {F : Type} {AF : Arith F} (fuel : nat)
  (pt : list (cell F)) (order nb : Z) (delta : F) (j : Z) (s s' : grid) :
  grid_step fuel pt order nb delta j s = Done s' ->
  flag s <> 0 -> flag s' = 0 ->
  exists b k,
    bisection fuel pt order nb
      {| b_psuml := psuml s; b_xl := xl (g s);
         b_xr := fsub (xl (g s)) delta; b_xm := xm (g s) |} = Done (b, k) /\
    xl (g s') = b_xm b /\ xr (g s') = b_xr b /\ xm (g s') = b_xm b.
Proof.
  unfold grid_step. cbv zeta. intros H Hfl Hfl'. inv_bind H.
  destruct (flt (fmul v (psuml s)) f0 || feq v f0).
  - inv_bind H. inv_bind H. inv_bind H. inversion H; subst; clear H.
    destruct v1 as [b k]. exists b, k. cbn. auto.
  - inversion H; subst; clear H. cbn in Hfl'. contradiction.
Qed.

Lemma f32_two_rank : number32 (@f2 float32 binary32) = true /\
                     rank32 (@f2 float32 binary32) = 2 * ONE.
Proof. split; reflexivity. Qed.

(** *** Roots that stay apart *)







(** From a point at or below 1, [n] steps of a size between [2^-20] and 2
    lead below -1 or at least [n] times [delta - 2^-21] down. *)
Lemma grid_descends32 (d : float32) :
  number32 d = true -> 2 ^ 129 <= rank32 d <= 2 * ONE ->
  forall (n : nat) (x : float32),
    number32 x = true -> rank32 x <= ONE ->
    rank32 (grid_point d n x) < - ONE \/
    rank32 (grid_point d n x)
    <= rank32 x - Z.of_nat n * (rank32 d - 2 ^ 128).
Proof.
  intros Nd Bd. pose proof TOP_LIM as HT. pose proof ONE_LIM as HL.
  pose proof ONE_pos as HP.
  assert (G : 0 < 2 ^ 128 < 2 ^ 129) by lia.
  induction n as [|n IH]; intros x Nx Bx.
  - right. cbn [grid_point]. lia.
  - destruct (Z.lt_ge_cases (rank32 x) (- ONE)) as [C|C].
    + left.
      destruct (grid_point32 d Nd ltac:(lia) (S n) x x Nx Nx ltac:(lia)
                  ltac:(lia)) as (_ & _ & _ & D).
      lia.
    + cbn [grid_point].
      destruct (fsub32 x d Nx Nd ltac:(lia) ltac:(lia)) as (S1 & _ & S3).
      pose proof (fsub32_near 128 x d Nx Nd ltac:(lia) ltac:(lia) ltac:(lia))
        as S4.
      change (2 ^ (128 + 23)) with (4 * ONE) in S4.
      specialize (S4 ltac:(lia)).
      destruct (IH (fsub x d) S1 ltac:(lia)) as [L|R]; [left; exact L|].
      right. rewrite Nat2Z.inj_succ. lia.
Qed.

(** More than [2 / (delta - 2^-21)] such steps lead from 1.0 below -1. *)
Lemma grid_leaves32 (d : float32) (n : nat) :
  number32 d = true -> 2 ^ 129 <= rank32 d <= 2 * ONE ->
  2 * ONE / (rank32 d - 2 ^ 128) < Z.of_nat n ->
  flt (grid_point d n f1) (of_int (-1)) = true.
Proof.
  intros Nd Bd Hn. pose proof TOP_LIM as HT. pose proof ONE_LIM as HL.
  pose proof ONE_pos as HP.
  destruct f32_one as [N1 R1]. destruct f32_minus_one as [Nm Rm].
  assert (G : 0 < 2 ^ 128 < 2 ^ 129) by lia.
  destruct (grid_point32 d Nd ltac:(lia) n f1 f1 N1 N1 ltac:(lia) ltac:(lia))
    as (A & _).
  apply flt32; [exact A|exact Nm|]. rewrite Rm.
  remember (rank32 d - 2 ^ 128) as w eqn:Ew.
  assert (Hw : 0 < w) by lia.
  pose proof (Z.div_mod (2 * ONE) w ltac:(lia)) as D.
  pose proof (Z.mod_pos_bound (2 * ONE) w Hw) as M.
  assert (K : 2 * ONE < Z.of_nat n * w) by nia.
  destruct (grid_descends32 d Nd Bd n f1 N1 ltac:(lia)) as [L|R]; [exact L|].
  rewrite <- Ew in R. lia.
Qed.

(** * Main results *)

Section Results.

Context {F : Type} {AF : Arith F}.

Variable acosf : F -> F.
Variable cosf : F -> F.

(** C3, amended.  Whenever the grid search of [lpc_to_lsp] detects a
    bracket (a sign change between [xl] and [xr = xl - delta], or a zero at
    [xr]), it counts the root, bisects the bracket exactly [nb + 1] times
    (the loop is [for (k = 0; k <= nb; k++)], with [nb < INT_MAX]; no time
    when [nb < 0]), and
    only then records [freq[j] = xm].  Each bisection moves one end of the
    bracket to the midpoint: the upper end [xl] when the polynomial there
    has the sign of [psuml], the lower end [xr] otherwise. *)
Theorem bracket_bisected_nb_plus_one_times (fuel : nat) (pt : list (cell F))
  (order nb : Z) (delta : F) (j : Z) (s : grid) (psumr : F) :
  nb < INT_MAX -> (Z.to_nat (nb + 1) < fuel)%nat ->
  cheb_poly_eva fuel pt (fsub (xl (g s)) delta) order = Done psumr ->
  flt (fmul psumr (psuml s)) f0 || feq psumr f0 = true ->
  grid_step fuel pt order nb delta j s
  = (roots' <- int_add (roots (g s)) 1 ;;
     b <- bisect_n fuel pt order (Z.to_nat (nb + 1))
            {| b_psuml := psuml s; b_xl := xl (g s);
               b_xr := fsub (xl (g s)) delta; b_xm := xm (g s) |} ;;
     freq' <- store (freq (g s)) j (b_xm b) ;;
     Done {| psuml := b_psuml b; flag := 0;
             g := {| xl := b_xm b; xr := b_xr b; xm := b_xm b;
                     roots := roots'; freq := freq' |} |})
  /\
  (forall b b' k,
     bisection fuel pt order nb b = Done (b', k) -> k = Z.to_nat (nb + 1))
  /\
  (forall b b',
     bisect_step fuel pt order b = Done b' ->
     exists psumm,
       cheb_poly_eva fuel pt (fdiv (fadd (b_xl b) (b_xr b)) f2) order
       = Done psumm /\
       b_xm b' = fdiv (fadd (b_xl b) (b_xr b)) f2 /\
       (if fgt (fmul psumm (b_psuml b)) f0
        then b_xl b' = b_xm b' /\ b_xr b' = b_xr b
        else b_xl b' = b_xl b /\ b_xr b' = b_xm b')).
Proof.
  intros Hnb Hf Hev Hbr. split; [|split].
  - apply grid_step_bracket with (psumr := psumr); assumption.
  - intros b b' k H. rewrite bisection_bisect_n in H by assumption.
    inv_bind H. inversion H; subst. reflexivity.
  - intros b b' H. apply bisect_step_halves in H. cbv zeta in H.
    destruct H as (psumm & H1 & H2 & H3). exists psumm.
    split; [exact H1|]. split; [exact H2|]. rewrite H2.
    destruct (fgt (fmul psumm (b_psuml b)) f0);
      destruct H3 as (A & B & _); auto.
Qed.

(** C4, amended.  In [lsp_to_lpc], for order >= 2, the accumulators [xin1]
    and [xin2] both hold 1.0 at the start of the first iteration of the loop
    over [j] only; at the start of each of the other [order] iterations they
    both hold 0.0, the iteration before having reset them.  The state [s] in
    which iteration [j] starts is the one the loop reaches after iterations
    [0 .. j-1]; the rest of the loop runs from it. *)
Theorem lsp_to_lpc_accumulators_at_iteration_start (fuel : nat)
  (lsp ak : list F) (order j : Z) :
  Z.even order = true -> 2 <= order -> 4 * order + 2 <= INT_MAX ->
  order <= Z.of_nat (length lsp) -> order + 1 <= Z.of_nat (length ak) ->
  (Z.to_nat (4 * order + 2) < fuel)%nat ->
  0 <= j <= order ->
  let N := Z.to_nat (4 * Z.quot order 2 + 2) in
  let fr := filled (fun k => cosf (nth k lsp f0)) (Z.to_nat order) 0 in
  let start :=
    ({| xin1 := f1; xin2 := f1;
        Wp := filled (fun _ => f0) N (Z.to_nat (4 * order + 2) - N);
        n4 := None |}, ak) in
  lsp_to_lpc cosf fuel lsp ak order
  = (r <- clock_loop fuel fr order 0 order start ;; Done (snd (fst r)))
  /\
  exists s ak',
    clock_loop fuel fr order 0 (j - 1) start = Done (s, ak', Z.to_nat j) /\
    clock_loop fuel fr order 0 order start
    = (r <- for_loop (fuel - Z.to_nat j) j (fun i => i <=? order)
              (clock fuel fr order) (s, ak') ;;
       Done (fst r, (Z.to_nat j + snd r)%nat)) /\
    (j = 0 -> xin1 s = f1 /\ xin2 s = f1) /\
    (1 <= j -> xin1 s = f0 /\ xin2 s = f0).
Proof.
  intros _ Ho Hmax Hl Hak Hf Hj N fr start. split.
  - apply lsp_to_lpc_unfold; auto; lia.
  - destruct (quot2_bounds order ltac:(lia)) as [HM0 HM1].
    destruct (clock_loop_done fuel fr (fun k => cosf (nth k lsp f0)) order
                (filled (fun _ => f0) N (Z.to_nat (4 * order + 2) - N))
                ak (Z.to_nat j))
      as (s & ak' & Hrun & H0 & H1); auto; try lia.
    { apply filled_ready. }
    replace (Z.of_nat (Z.to_nat j) - 1) with (j - 1) in Hrun by lia.
    exists s, ak'. split; [exact Hrun|]. split.
    + unfold clock_loop in *.
      rewrite (for_loop_prefix (clock fuel fr order) 0 (j - 1) order fuel
                 start (s, ak') (Z.to_nat j)) by (auto; lia).
      replace (j - 1 + 1) with j by lia. reflexivity.
    + split; intros; [apply H0 | apply H1]; lia.
Qed.

(** C5, amended.  After all [order] root indices have been attempted,
    [lpc_to_lsp] replaces each of the entries [freq[0 .. order-1]], whether
    or not a root was recorded there, by [acosf] of the stored value itself:
    the argument is not clamped. *)
Theorem lpc_to_lsp_converts_without_clamp (fuel : nat) (a : list F)
  (order : Z) (freq0 : list F) (nb : Z) (delta : F) :
  0 <= order < INT_MAX ->
  order + 1 <= Z.of_nat (length a) ->
  order <= Z.of_nat (length freq0) ->
  (Z.to_nat order + 1 < fuel)%nat ->
  let m := Z.to_nat (Z.quot order 2) in
  let n := Z.to_nat order in
  lpc_to_lsp acosf fuel a order freq0 nb delta
  = (r <- root_search fuel
            (filled (doubled m (P_rec a order)) (S m) (n - m))
            (filled (doubled m (Q_rec a order)) (S m) (n - m))
            order nb delta freq0 ;;
     Done (roots (fst r),
           map acosf (firstn n (freq (fst r))) ++ skipn n (freq (fst r)))).
Proof.
  intros Ho Ha Hfr Hf. apply lpc_to_lsp_unfold; assumption.
Qed.

(** C6, amended.  [lpc_to_lsp] validates neither the parity of [order] nor
    the array lengths.  Its only rejection is the return value -1, given
    before any computation and with [freq] untouched, when the scratch
    allocation fails (here: for a negative element count).  For every
    order >= 0 a returned value is the count of roots found, between 0 and
    [order]; an odd order of 3 or more is processed like an even one, with
    [order / 2] rounded down. *)
Theorem lpc_to_lsp_rejects_only_failed_allocation (fuel : nat) (a : list F)
  (order : Z) (freq0 : list F) (nb : Z) (delta : F) :
  INT_MIN <= order <= INT_MAX ->
  (order < -1 ->
   lpc_to_lsp acosf fuel a order freq0 nb delta = Done (-1, freq0))
  /\
  (0 <= order ->
   forall r lsp,
     lpc_to_lsp acosf fuel a order freq0 nb delta = Done (r, lsp) ->
     0 <= r <= order)
  /\
  (Z.odd order = true -> 3 <= order < INT_MAX ->
   order + 1 <= Z.of_nat (length a) ->
   order <= Z.of_nat (length freq0) ->
   (Z.to_nat order + 1 < fuel)%nat ->
   let m := Z.to_nat (Z.quot order 2) in
   let n := Z.to_nat order in
   lpc_to_lsp acosf fuel a order freq0 nb delta
   = (r <- root_search fuel
             (filled (doubled m (P_rec a order)) (S m) (n - m))
             (filled (doubled m (Q_rec a order)) (S m) (n - m))
             order nb delta freq0 ;;
      Done (roots (fst r),
            map acosf (firstn n (freq (fst r))) ++ skipn n (freq (fst r))))).
Proof.
  intros Hint. split; [|split].
  - intros Ho. apply lpc_to_lsp_alloc_failure. lia.
  - intros Ho r lsp H. apply lpc_to_lsp_roots in H; lia.
  - intros _ Ho Ha Hfr Hf. apply lpc_to_lsp_unfold; auto; lia.
Qed.

(** C7.  For an LPC vector [a[0 .. order]] of even order, lines 166-185 of
    [lpc_to_lsp] leave in the first [order/2 + 1] cells of its two blocks
    the polynomials P' and Q' with [P'[0] = Q'[0] = 1],
    [P'[i] = a[i] + a[order+1-i] - P'[i-1]] and
    [Q'[i] = a[i] - a[order+1-i] + Q'[i-1]] for [i = 1 .. order/2], every
    entry except the last one doubled afterwards. *)
Theorem decompose_half_order_polynomials (fuel : nat) (a : list F)
  (order : Z) :
  Z.even order = true -> 0 <= order < INT_MAX ->
  Z.of_nat (length a) = order + 1 ->
  (Z.to_nat (Z.quot order 2) + 1 < fuel)%nat ->
  let m := Z.to_nat (Z.quot order 2) in
  exists P' Q' : nat -> F,
    P' O = f1 /\ Q' O = f1 /\
    (forall i, (1 <= i <= m)%nat ->
       P' i = fsub (fadd (nth i a f0) (nth (Z.to_nat order + 1 - i) a f0))
                (P' (i - 1)%nat) /\
       Q' i = fadd (fsub (nth i a f0) (nth (Z.to_nat order + 1 - i) a f0))
                (Q' (i - 1)%nat)) /\
    decompose fuel a order (repeat None (Z.to_nat (order + 1)))
      (repeat None (Z.to_nat (order + 1)))
    = Done (filled (fun i => if (i <? m)%nat then fmul f2 (P' i) else P' i)
              (S m) (Z.to_nat order - m),
            filled (fun i => if (i <? m)%nat then fmul f2 (Q' i) else Q' i)
              (S m) (Z.to_nat order - m)).
Proof.
  intros _ Ho Ha Hf m.
  exists (P_rec a order), (Q_rec a order).
  split; [reflexivity|]. split; [reflexivity|]. split.
  - intros i Hi. destruct (quot2_bounds order ltac:(lia)) as [HM0 HM1].
    destruct i as [|i]; [lia|]. cbn [P_rec Q_rec].
    replace (Z.to_nat (order + 1 - Z.of_nat (S i)))
      with (Z.to_nat order + 1 - S i)%nat by lia.
    replace (S i - 1)%nat with i by lia. split; reflexivity.
  - apply decompose_blocks; auto; lia.
Qed.

(** X12.  For order >= 2, a coefficient sequence [coef] of length
    [order/2 + 1] and any point [x], [cheb_poly_eva] returns the sum over
    [i = 0 .. order/2] of [coef[order/2 - i] * T_i(x)], accumulated from 0.0
    in increasing [i], where [T_0 = 1], [T_1 = x] and
    [T_i = 2x T_{i-1} - T_{i-2}]. *)
Theorem cheb_poly_eva_chebyshev_series (fuel : nat) (coef : list F) (x : F)
  (order : Z) :
  2 <= order <= INT_MAX ->
  Z.of_nat (length coef) = Z.quot order 2 + 1 ->
  (Z.to_nat (Z.quot order 2) + 1 < fuel)%nat ->
  let m := Z.to_nat (Z.quot order 2) in
  cheb_poly_eva fuel (map Some coef) x order
  = Done (cheb_series (fun i => nth i coef f0) x m (S m)).
Proof.
  intros Ho Hl Hf m. apply cheb_poly_eva_series; auto.
  destruct (quot2_bounds order ltac:(lia)) as [HM0 _].
  intros i Hi. rewrite nth_error_map, (nth_error_nth' coef f0) by lia.
  reflexivity.
Qed.

(** C10.  For even order >= 2 every array access of [cheb_poly_eva] lies
    inside its scratch block of [order/2 + 1] cells and inside [coef]: the
    evaluation never reaches the undefined branch of the checked accesses.
    The bound on [order] is needed: the function writes scratch index 1
    unconditionally, outside the one-cell block it allocates for order 0. *)
Theorem cheb_poly_eva_accesses_in_bounds (fuel : nat) (coef : list F) (x : F)
  (order : Z) :
  Z.even order = true -> 2 <= order <= INT_MAX ->
  Z.of_nat (length coef) = Z.quot order 2 + 1 ->
  (Z.to_nat (Z.quot order 2) + 1 < fuel)%nat ->
  (exists v, cheb_poly_eva fuel (map Some coef) x order = Done v)
  /\
  (forall fuel' (coef' : list (cell F)) (x' : F),
     cheb_poly_eva fuel' coef' x' 0 = Undefined)
  /\
  (malloc F (Z.quot 0 2 + 1) = Some [None] /\
   forall x' : F, store_cell [Some f1] 1 x' = Undefined).
Proof.
  intros _ Ho Hl Hf. split; [|split].
  - eexists. apply cheb_poly_eva_series with (c := fun i => nth i coef f0);
      auto.
    destruct (quot2_bounds order ltac:(lia)) as [HM0 _].
    intros i Hi. rewrite nth_error_map, (nth_error_nth' coef f0) by lia.
    reflexivity.
  - intros fuel' coef' x'. apply cheb_poly_eva_short. reflexivity.
  - split; [reflexivity|]. intros x'. reflexivity.
Qed.

End Results.

Section SingleResults.

Variable acosf : float32 -> float32.


(** C9, amended.  In single precision, for even order >= 2, a step
    [delta > 0], [0 <= nb] and a number [n] of steps of size [delta] that
    takes 1.0 below -1, [lpc_to_lsp] terminates: the loop over the root
    indices performs exactly [order] iterations, the grid search of a root
    index started at or below 1 at most [n] steps, and each bisection
    exactly [nb + 1] iterations.  For [2^-20 <= delta <= 2] every number
    of steps above [2 / (delta - 2^-21)] takes 1.0 below -1; [2 * ONE] and
    [rank32 delta - 2^128] are 2 and [delta - 2^-21] in units of
    [2^-149]. *)
Theorem lpc_to_lsp_terminates_on_exhausting_grid (fuel : nat)
  (a : list float32) (order : Z) (freq0 : list float32) (nb : Z)
  (delta : float32) (n : nat) :
  Z.even order = true -> 2 <= order < INT_MAX ->
  order + 1 <= Z.of_nat (length a) ->
  order <= Z.of_nat (length freq0) ->
  0 <= nb < INT_MAX -> number32 delta = true -> flt f0 delta = true ->
  (1 <= n < fuel)%nat -> (Z.to_nat (nb + 1) < fuel)%nat ->
  (Z.to_nat order + 1 < fuel)%nat ->
  flt (grid_point delta n f1) (of_int (-1)) = true ->
  let m := Z.to_nat (Z.quot order 2) in
  let P := filled (doubled m (P_rec a order)) (S m) (Z.to_nat order - m) in
  let Q := filled (doubled m (Q_rec a order)) (S m) (Z.to_nat order - m) in
  (exists r lsp, lpc_to_lsp acosf fuel a order freq0 nb delta = Done (r, lsp))
  /\
  (exists st,
     root_search fuel P Q order nb delta freq0 = Done (st, Z.to_nat order))
  /\
  (forall pt j s,
     pt = P \/ pt = Q ->
     0 <= j < Z.of_nat (length (freq (g s))) ->
     INT_MIN <= roots (g s) + 1 <= INT_MAX ->
     number32 (xl (g s)) = true -> fle (xl (g s)) f1 = true ->
     exists s' k,
       grid_search fuel pt order nb delta j s = Done (s', k) /\ (k <= n)%nat)
  /\
  (forall pt b,
     pt = P \/ pt = Q ->
     exists b', bisection fuel pt order nb b = Done (b', Z.to_nat (nb + 1)))
  /\
  (fle (f32 1 (-20)) delta = true -> fle delta f2 = true ->
   forall k : nat,
     2 * ONE / (rank32 delta - 2 ^ 128) < Z.of_nat k ->
     flt (grid_point delta k f1) (of_int (-1)) = true).
Proof.
  intros _ Ho Ha Hfr Hnb Nd Hd Hn Hfb Hf Hgrid m P Q.
  destruct f32_one as [N1 R1]. destruct f32_zero as [N0 R0].
  assert (Bd : 0 <= rank32 delta).
  { apply flt32 in Hd; [|exact N0|exact Nd]. lia. }
  destruct (quot2_bounds order ltac:(lia)) as [HM0 HM1].
  assert (HP : forall x, exists v, cheb_poly_eva fuel P x order = Done v).
  { apply filled_evaluable; unfold INT_MAX in *; lia. }
  assert (HQ : forall x, exists v, cheb_poly_eva fuel Q x order = Done v).
  { apply filled_evaluable; unfold INT_MAX in *; lia. }
  assert (Hpt : forall pt, pt = P \/ pt = Q ->
            forall x, exists v, cheb_poly_eva fuel pt x order = Done v).
  { intros pt [-> | ->]; assumption. }
  destruct (root_search_terminates32 fuel P Q order nb delta freq0 n)
    as (st & Hst); auto; try lia.
  split; [|split; [|split; [|split]]].
  - rewrite lpc_to_lsp_unfold by (auto; lia). cbv zeta.
    fold m P Q. rewrite Hst. cbn [bind]. eauto.
  - exists st. exact Hst.
  - intros pt j s Hp Hj Hr Nx Hx. unfold grid_search.
    apply grid_search_bounded; auto; try lia.
    apply grid_exhausts32; auto.
    apply fle32 in Hx; [|exact Nx|exact N1]. lia.
  - intros pt b Hp. rewrite bisection_bisect_n by (auto; lia).
    destruct (bisect_n_done fuel pt order (Hpt pt Hp) (Z.to_nat (nb + 1)) b)
      as (b' & ->).
    exists b'. reflexivity.
  - intros Hd1 Hd2 k Hk. destruct f32_two_rank as [N2 R2].
    destruct (f32_pow2 (-20) ltac:(lia)) as (Np & Rp & _).
    specialize (Rp ltac:(lia)). change (2 ^ (-20 + 149)) with (2 ^ 129) in Rp.
    apply fle32 in Hd1; [|exact Np|exact Nd].
    apply fle32 in Hd2; [|exact Nd|exact N2].
    apply grid_leaves32; [exact Nd | lia | exact Hk].
Qed.

End SingleResults.


(** * Concrete runs *)

(** ** Single precision *)


(** C3 as stated fails.  With [nb = 1] on the bracket from -1 to 1 of the
    polynomial [2x], the loop bisects twice and leaves [xm = 0.5]; one
    bisection would leave [xm = 0]. *)
Lemma bisection_runs_once_more_than_nb :
  bisection 10 [Some (f32 2 0); Some (f32 0 0)] 2 1
    {| b_psuml := f32 2 0; b_xl := f32 1 0; b_xr := f32 (-1) 0;
       b_xm := f32 0 0 |}
  = Done ({| b_psuml := f32 1 0; b_xl := f32 1 (-1); b_xr := f32 0 0;
             b_xm := f32 1 (-1) |}, 2%nat)
  /\
  bisect_n 10 [Some (f32 2 0); Some (f32 0 0)] 2 1
    {| b_psuml := f32 2 0; b_xl := f32 1 0; b_xr := f32 (-1) 0;
       b_xm := f32 0 0 |}
  = Done {| b_psuml := f32 2 0; b_xl := f32 1 0; b_xr := f32 0 0;
            b_xm := f32 0 0 |}
  /\ f32 1 (-1) <> f32 0 0 /\ 2%nat <> Z.to_nat 1.
Proof.
  split; [vm_compute; reflexivity|]. split; [vm_compute; reflexivity|].
  split; [vm_compute; discriminate | vm_compute; lia].
Qed.

(** C4 as stated fails.  Order 2 and [lsp = [0; 0]], whose cosines are
    [1; 1]: the state after iteration [j = 0], in which iteration [j = 1]
    starts, has 0.0 in both accumulators. *)
Lemma accumulators_zero_at_second_iteration :
  exists s ak',
    clock_loop 20 (filled (fun k => nth k [f32 1 0; f32 1 0] (f32 0 0)) 2 0)
      2 0 0
      ({| xin1 := f32 1 0; xin2 := f32 1 0;
          Wp := filled (fun _ => f32 0 0) 6 4; n4 := None |},
       [f32 7 0; f32 7 0; f32 7 0])
    = Done (s, ak', 1%nat) /\
    xin1 s = f32 0 0 /\ xin2 s = f32 0 0 /\ f32 0 0 <> f32 1 0.
Proof.
  eexists _, _. split; [vm_compute; reflexivity|].
  split; [reflexivity|]. split; [reflexivity|]. vm_compute. discriminate.
Qed.

(** C5 as stated fails.  Order 2, [a = [1; 0.875; -0.375]], [nb = 4],
    [delta = 0.5]: the second recorded value is -1.125, and [acosf] is
    applied to it as it is, not to its clamp -1. *)
Lemma acosf_receives_value_below_minus_one :
  flt (f32 (-9) (-3)) (of_int (-1)) = true /\
  clamp (f32 (-9) (-3)) = f32 (-1) 0 /\
  forall acosf : float32 -> float32,
    lpc_to_lsp acosf 20 [f32 1 0; f32 7 (-3); f32 (-3) (-3)] 2
      [f32 0 0; f32 0 0] 4 (f32 1 (-1))
    = Done (2, [acosf (f32 17 (-6)); acosf (f32 (-9) (-3))]) /\
    (acosf (f32 (-9) (-3)) <> acosf (clamp (f32 (-9) (-3))) ->
     lpc_to_lsp acosf 20 [f32 1 0; f32 7 (-3); f32 (-3) (-3)] 2
       [f32 0 0; f32 0 0] 4 (f32 1 (-1))
     <> Done (2, [acosf (clamp (f32 17 (-6)));
                  acosf (clamp (f32 (-9) (-3)))])).
Proof.
  split; [reflexivity|]. split; [reflexivity|].
  intros acosf.
  assert (H : lpc_to_lsp acosf 20 [f32 1 0; f32 7 (-3); f32 (-3) (-3)] 2
                [f32 0 0; f32 0 0] 4 (f32 1 (-1))
              = Done (2, [acosf (f32 17 (-6)); acosf (f32 (-9) (-3))]))
    by (vm_compute; reflexivity).
  split; [exact H|]. intros Hne C. rewrite H in C.
  inversion C. contradiction.
Qed.

(** C6 as stated fails.  The odd order 3 is not rejected: the call returns
    2, the number of roots found, and has overwritten [freq]. *)
Lemma odd_order_is_processed :
  Z.odd 3 = true /\
  forall acosf : float32 -> float32,
    lpc_to_lsp acosf 20 [f32 1 0; f32 0 0; f32 0 0; f32 0 0] 3
      [f32 9 0; f32 9 0; f32 9 0] 4 (f32 1 (-1))
    = Done (2, [acosf (f32 33 (-6)); acosf (f32 (-1) (-1));
                acosf (f32 9 0)]).
Proof.
  split; [reflexivity|]. intros acosf. vm_compute. reflexivity.
Qed.

(** C8.  At order 0, [coef = [3]] and [x = 5], the Chebyshev series has
    the single term [coef[0] * T_0 = 3], but [cheb_poly_eva] does not get
    there without a fault: its scratch block has [0/2 + 1 = 1] cell, and
    after [T[0] = 1.0] it stores [x] at index 1, one past the end of the
    block.  Order 1, the least order with which [lpc_to_lsp] calls it,
    allocates the same one cell. *)
Lemma cheb_poly_eva_order_zero :
  cheb_series (fun i => nth i [f32 3 0] f0) (f32 5 0) 0 1 = f32 3 0 /\
  malloc float32 (Z.quot 0 2 + 1) = Some [None] /\
  store_cell [Some (f32 1 0)] 1 (f32 5 0) = Undefined /\
  cheb_poly_eva 10 [Some (f32 3 0)] (f32 5 0) 0 = Undefined /\
  cheb_poly_eva 10 [Some (f32 3 0)] (f32 5 0) 1 = Undefined.
Proof.
  repeat split; vm_compute; reflexivity.
Qed.

Lemma while_loop_stuck {St : Type} (cond : St -> bool)
  (body : St -> outcome St) (s : St) :
  cond s = true -> body s = Done s ->
  forall fuel, while_loop fuel cond body s = OutOfFuel.
Proof.
  intros Hc Hb. induction fuel as [|fuel IH]; cbn [while_loop];
    [reflexivity|].
  rewrite Hc, Hb. cbn [bind]. rewrite IH. reflexivity.
Qed.

(** C9 as stated fails.  Order 2, [a = [1; 0; 0]] and the positive step
    [delta = 2^-30]: [1.0f - delta] is [1.0f] again, P' is 1 there, and the
    grid search of the first root index never leaves [xl = 1]: no budget
    lets the call return.  And with [delta = 0.5] a grid search that finds
    no bracket takes 5 steps, one more than [ceil(2 / delta) = 4]. *)
Lemma grid_search_stuck_on_absorbed_delta :
  flt (f32 0 0) (f32 1 (-30)) = true /\
  (forall (acosf : float32 -> float32) (fuel : nat),
     lpc_to_lsp acosf fuel [f32 1 0; f32 0 0; f32 0 0] 2 [f32 0 0; f32 0 0]
       4 (f32 1 (-30))
     = OutOfFuel) /\
  exists s,
    grid_search 20 [Some (f32 2 0); Some (f32 10 0)] 2 4 (f32 1 (-1)) 0
      {| psuml := f32 12 0; flag := 1;
         g := {| xl := f32 1 0; xr := f32 0 0; xm := f32 0 0; roots := 0;
                 freq := [f32 0 0; f32 0 0] |} |}
    = Done (s, 5%nat).
Proof.
  split; [reflexivity|]. split.
  2:{ eexists. vm_compute. reflexivity. }
  intros acosf fuel.
  destruct fuel as [|[|[|[|fuel]]]];
    [vm_compute; reflexivity | vm_compute; reflexivity
     | vm_compute; reflexivity | vm_compute; reflexivity | ].
  remember (S (S (S (S fuel)))) as F4 eqn:EF.
  rewrite lpc_to_lsp_unfold
    by (try (unfold INT_MAX; cbn [length]; lia); subst F4; cbn; lia).
  cbv zeta.
  change (Z.to_nat (Z.quot 2 2)) with 1%nat.
  change (Z.to_nat 2) with 2%nat.
  set (P := filled (doubled 1 (P_rec [f32 1 0; f32 0 0; f32 0 0] 2)) 2 (2 - 1)).
  set (Q := filled (doubled 1 (Q_rec [f32 1 0; f32 0 0; f32 0 0] 2)) 2 (2 - 1)).
  assert (HP : forall x, cheb_poly_eva F4 P x 2
                         = Done (cheb_series
                                   (doubled 1 (P_rec [f32 1 0; f32 0 0; f32 0 0] 2))
                                   x 1 2)).
  { intros x. apply (cheb_poly_eva_series F4 P _ x 2).
    - unfold INT_MAX. lia.
    - subst F4. cbn. lia.
    - intros i Hi. apply filled_nth_error. cbn in Hi. lia. }
  assert (Hstep : forall xr0,
            grid_step F4 P 2 4 (f32 1 (-30)) 0
              {| psuml := f32 1 0; flag := 1;
                 g := {| xl := f32 1 0; xr := xr0; xm := f32 0 0;
                         roots := 0; freq := [f32 0 0; f32 0 0] |} |}
            = Done {| psuml := f32 1 0; flag := 1;
                      g := {| xl := f32 1 0; xr := f32 1 0; xm := f32 0 0;
                              roots := 0; freq := [f32 0 0; f32 0 0] |} |}).
  { intros xr0.
    rewrite (grid_step_advance F4 P 2 4 (f32 1 (-30)) 0 _ (f32 1 0)).
    - reflexivity.
    - rewrite HP. vm_compute. reflexivity.
    - vm_compute. reflexivity. }
  assert (Hc : forall xr0,
            fge xr0 (of_int (-1)) = true ->
            grid_cond {| psuml := f32 1 0; flag := 1;
                         g := {| xl := f32 1 0; xr := xr0; xm := f32 0 0;
                                 roots := 0; freq := [f32 0 0; f32 0 0] |} |}
            = true).
  { intros xr0 H. unfold grid_cond. cbn [flag g xr]. rewrite H.
    reflexivity. }
  assert (Hw : forall wf xr0,
            fge xr0 (of_int (-1)) = true ->
            while_loop wf grid_cond (grid_step F4 P 2 4 (f32 1 (-30)) 0)
              {| psuml := f32 1 0; flag := 1;
                 g := {| xl := f32 1 0; xr := xr0; xm := f32 0 0;
                         roots := 0; freq := [f32 0 0; f32 0 0] |} |}
            = OutOfFuel).
  { intros wf xr0 H. destruct wf as [|wf]; [reflexivity|].
    cbn [while_loop]. rewrite (Hc xr0 H), Hstep. cbn [bind].
    rewrite while_loop_stuck;
      [reflexivity | apply Hc; reflexivity | apply Hstep]. }
  assert (Hroot : root_step F4 P Q 2 4 (f32 1 (-30)) 0
                    {| xl := f32 1 0; xr := f32 0 0; xm := f32 0 0;
                       roots := 0; freq := [f32 0 0; f32 0 0] |}
                  = OutOfFuel).
  { unfold root_step. cbv zeta.
    change (if negb (Z.rem 0 2 =? 0) then Q else P) with P.
    rewrite HP. cbn [bind xl].
    replace (cheb_series (doubled 1 (P_rec [f32 1 0; f32 0 0; f32 0 0] 2))
               (f32 1 0) 1 2)
      with (f32 1 0) by (vm_compute; reflexivity).
    unfold grid_search. rewrite Hw by reflexivity. reflexivity. }
  unfold root_search. rewrite EF at 1.
  rewrite for_loop_step by (try reflexivity; unfold INT_MIN, INT_MAX; lia).
  change (@f1 float32 binary32) with (f32 1 0).
  change (@f0 float32 binary32) with (f32 0 0).
  rewrite Hroot. reflexivity.
Qed.

(** ** Instances of the theorems *)

(** C3 at the polynomial [2x], [xl = 1], [delta = 2], [nb = 1]. *)
Lemma bracket_bisected_nb_plus_one_times_at_2x :
  grid_step 10 [Some (f32 2 0); Some (f32 0 0)] 2 1 (f32 2 0) 0
    {| psuml := f32 2 0; flag := 1;
       g := {| xl := f32 1 0; xr := f32 0 0; xm := f32 0 0; roots := 0;
               freq := [f32 0 0; f32 0 0] |} |}
  = Done {| psuml := f32 1 0; flag := 0;
            g := {| xl := f32 1 (-1); xr := f32 0 0; xm := f32 1 (-1);
                    roots := 1; freq := [f32 1 (-1); f32 0 0] |} |}.
Proof.
  destruct (bracket_bisected_nb_plus_one_times (F := float32) 10
              [Some (f32 2 0); Some (f32 0 0)] 2 1 (f32 2 0) 0
              {| psuml := f32 2 0; flag := 1;
                 g := {| xl := f32 1 0; xr := f32 0 0; xm := f32 0 0;
                         roots := 0; freq := [f32 0 0; f32 0 0] |} |}
              (f32 (-2) 0))
    as [H _].
  - reflexivity.
  - simpl. lia.
  - vm_compute. reflexivity.
  - vm_compute. reflexivity.
  - rewrite H. vm_compute. reflexivity.
Defined.

(** C4 at order 2 and the third iteration, with a stand-in for [cosf]
    that returns 1, its value at 0, for [lsp = [0; 0]]. *)
Lemma lsp_to_lpc_accumulators_at_order_2 :
  exists s ak',
    clock_loop 20 (filled (fun _ => f32 1 0) 2 0) 2 0 1
      ({| xin1 := f32 1 0; xin2 := f32 1 0;
          Wp := filled (fun _ => f32 0 0) 6 4; n4 := None |},
       [f32 7 0; f32 7 0; f32 7 0])
    = Done (s, ak', 2%nat) /\ xin1 s = f32 0 0 /\ xin2 s = f32 0 0.
Proof.
  destruct (lsp_to_lpc_accumulators_at_iteration_start (F := float32)
              (fun _ => f32 1 0) 20 [f32 0 0; f32 0 0]
              [f32 7 0; f32 7 0; f32 7 0] 2 2)
    as (_ & s & ak' & Hrun & _ & _ & H1).
  - reflexivity.
  - lia.
  - unfold INT_MAX. lia.
  - simpl. lia.
  - simpl. lia.
  - simpl. lia.
  - lia.
  - exists s, ak'. split; [exact Hrun|]. apply H1. lia.
Defined.

(** C5 at order 2, [a = [1; 0; 0]], [delta = 0.5], with a stand-in for
    [acosf]. *)
Lemma lpc_to_lsp_converts_without_clamp_at_order_2 :
  lpc_to_lsp (fun x : float32 => x) 20 [f32 1 0; f32 0 0; f32 0 0] 2
    [f32 9 0; f32 9 0] 4 (f32 1 (-1))
  = Done (2, [f32 33 (-6); f32 (-1) (-1)]).
Proof.
  rewrite (lpc_to_lsp_converts_without_clamp (F := float32)
             (fun x => x) 20 [f32 1 0; f32 0 0; f32 0 0] 2
             [f32 9 0; f32 9 0] 4 (f32 1 (-1))).
  - vm_compute. reflexivity.
  - unfold INT_MAX. lia.
  - simpl. lia.
  - simpl. lia.
  - simpl. lia.
Defined.

(** C6 at the odd order 3. *)
Lemma lpc_to_lsp_returns_root_count_at_order_3 :
  lpc_to_lsp (fun x : float32 => x) 20
    [f32 1 0; f32 0 0; f32 0 0; f32 0 0] 3 [f32 9 0; f32 9 0; f32 9 0] 4
    (f32 1 (-1))
  = Done (2, [f32 33 (-6); f32 (-1) (-1); f32 9 0]) /\
  0 <= 2 <= 3.
Proof.
  assert (H : lpc_to_lsp (fun x : float32 => x) 20
                [f32 1 0; f32 0 0; f32 0 0; f32 0 0] 3
                [f32 9 0; f32 9 0; f32 9 0] 4 (f32 1 (-1))
              = Done (2, [f32 33 (-6); f32 (-1) (-1); f32 9 0]))
    by (vm_compute; reflexivity).
  split; [exact H|].
  destruct (lpc_to_lsp_rejects_only_failed_allocation (F := float32)
              (fun x => x) 20 [f32 1 0; f32 0 0; f32 0 0; f32 0 0] 3
              [f32 9 0; f32 9 0; f32 9 0] 4 (f32 1 (-1)))
    as (_ & Hroots & _).
  - unfold INT_MIN, INT_MAX. lia.
  - apply (Hroots ltac:(lia) 2 _ H).
Defined.

(** C7 at order 4. *)
Lemma decompose_half_order_polynomials_at_order_4 :
  exists PQ,
    decompose 10 [f32 1 0; f32 3 (-1); f32 (-1) (-2); f32 1 (-3); f32 1 (-4)]
      4 (repeat None 5) (repeat None 5)
    = Done PQ.
Proof.
  destruct (decompose_half_order_polynomials (F := float32) 10
              [f32 1 0; f32 3 (-1); f32 (-1) (-2); f32 1 (-3); f32 1 (-4)] 4)
    as (P' & Q' & _ & _ & _ & H).
  - reflexivity.
  - unfold INT_MAX. lia.
  - reflexivity.
  - simpl. lia.
  - eexists. exact H.
Defined.

(** X12 at order 4, [coef = [2; 3; 1]], [x = 5]: [1 + 3*5 + 2*49 = 114]. *)
Lemma cheb_poly_eva_chebyshev_series_at_order_4 :
  cheb_poly_eva 10 (map Some [f32 2 0; f32 3 0; f32 1 0]) (f32 5 0) 4
  = Done (f32 114 0).
Proof.
  rewrite (cheb_poly_eva_chebyshev_series (F := float32) 10
             [f32 2 0; f32 3 0; f32 1 0] (f32 5 0) 4).
  - vm_compute. reflexivity.
  - unfold INT_MAX. lia.
  - reflexivity.
  - simpl. lia.
Defined.

(** C10 at order 4. *)
Lemma cheb_poly_eva_accesses_in_bounds_at_order_4 :
  exists v,
    cheb_poly_eva 10 (map Some [f32 2 0; f32 3 0; f32 1 0]) (f32 5 0) 4
    = Done v.
Proof.
  destruct (cheb_poly_eva_accesses_in_bounds (F := float32) 10
              [f32 2 0; f32 3 0; f32 1 0] (f32 5 0) 4)
    as (H & _).
  - reflexivity.
  - unfold INT_MAX. lia.
  - reflexivity.
  - simpl. lia.
  - exact H.
Defined.


(** C9 at order 2, [a = [1; 0; 0]], [nb = 6] and [delta = 0.01f]: 201
    steps take 1.0 below -1. *)
Lemma lpc_to_lsp_terminates_at_order_2 :
  exists r lsp,
    lpc_to_lsp (fun x : float32 => x) 300 [f32 1 0; f32 0 0; f32 0 0] 2
      [f32 9 0; f32 9 0] 6 (f32 10737418 (-30)) = Done (r, lsp).
Proof.
  destruct (lpc_to_lsp_terminates_on_exhausting_grid (fun x => x) 300
              [f32 1 0; f32 0 0; f32 0 0] 2 [f32 9 0; f32 9 0] 6
              (f32 10737418 (-30)) 201)
    as (H & _).
  - reflexivity.
  - unfold INT_MAX. lia.
  - simpl. lia.
  - simpl. lia.
  - unfold INT_MAX. lia.
  - reflexivity.
  - reflexivity.
  - lia.
  - simpl. lia.
  - simpl. lia.
  - vm_compute. reflexivity.
  - exact H.
Defined.

(** * Further properties of the three functions *)

(** ** Loops that cannot go wrong *)

Section SafeLoops.

Context {St : Type}.

(** A loop whose body, under an invariant, returns a state that satisfies
    it either returns or exhausts its budget. *)
Lemma while_loop_total_body (Inv : St -> Prop) (cond : St -> bool)
  (body : St -> outcome St) :
  (forall s, Inv s -> cond s = true -> exists s', body s = Done s' /\ Inv s') ->
  forall fuel s,
    Inv s ->
    while_loop fuel cond body s = OutOfFuel \/
    exists s' n, while_loop fuel cond body s = Done (s', n).
Proof.
  intros Hstep. induction fuel as [|fuel IH]; intros s Hs; cbn [while_loop];
    [left; reflexivity|].
  destruct (cond s) eqn:Hc; [|right; eauto].
  destruct (Hstep s Hs Hc) as (s1 & -> & Hs1). cbn [bind].
  destruct (IH s1 Hs1) as [-> | (s' & n & ->)]; cbn [bind]; eauto.
Qed.

Lemma for_loop_never_undefined (Inv : Z -> St -> Prop) (cond : Z -> bool)
  (body : Z -> St -> outcome St) :
  (forall i s, Inv i s -> cond i = true ->
     INT_MIN <= i + 1 <= INT_MAX /\ body i s <> Undefined /\
     forall s', body i s = Done s' -> Inv (i + 1) s') ->
  forall fuel lo s, Inv lo s -> for_loop fuel lo cond body s <> Undefined.
Proof.
  intros Hstep fuel lo s Hs. unfold for_loop.
  assert (G : forall fuel p,
             Inv (fst p) (snd p) ->
             while_loop fuel (fun p => cond (fst p))
               (fun p => s' <- body (fst p) (snd p) ;;
                         i' <- int_add (fst p) 1 ;; Done (i', s')) p
             <> Undefined).
  { clear fuel lo s Hs.
    induction fuel as [|fuel IH]; intros p Hp; cbn [while_loop];
      [discriminate|].
    destruct (cond (fst p)) eqn:Hc; [|discriminate].
    destruct (Hstep _ _ Hp Hc) as (Hi & Hb & Hnext).
    destruct (body (fst p) (snd p)) as [s1| |] eqn:Eb; cbn [bind];
      [|congruence|discriminate].
    rewrite int_add_done by exact Hi. cbn [bind].
    specialize (IH (fst p + 1, s1) (Hnext s1 eq_refl)).
    destruct (while_loop fuel _ _ (fst p + 1, s1)) as [r| |]; cbn [bind];
      [discriminate|congruence|discriminate]. }
  specialize (G fuel (lo, s) Hs).
  destruct (while_loop fuel _ _ (lo, s)) as [r| |]; cbn [bind];
    [discriminate|congruence|discriminate].
Qed.

End SafeLoops.

(** ** Memory safety of [lpc_to_lsp] *)

Section LpcToLspSafety.

Context {F : Type} {AF : Arith F}.

Variable acosf : F -> F.

(** On a block on which the evaluator is defined, the grid search of a root
    index either returns or exhausts its budget. *)
Lemma grid_search_never_undefined (fuel : nat) (pt : list (cell F))
  (order nb : Z) (delta : F) (j : Z) (s : grid) :
  (forall x, exists v, cheb_poly_eva fuel pt x order = Done v) ->
  nb < INT_MAX -> (Z.to_nat (nb + 1) < fuel)%nat ->
  0 <= j < Z.of_nat (length (freq (g s))) ->
  INT_MIN <= roots (g s) + 1 <= INT_MAX ->
  grid_search fuel pt order nb delta j s = OutOfFuel \/
  exists s' n, grid_search fuel pt order nb delta j s = Done (s', n).
Proof.
  intros Hev Hnb Hf Hj Hr. unfold grid_search.
  apply (while_loop_total_body
           (fun t => length (freq (g t)) = length (freq (g s)) /\
                     (flag t = 0 \/ roots (g t) = roots (g s)))).
  2:{ split; [reflexivity | right; reflexivity]. }
  intros t [Hlen Hflag] Hc.
  unfold grid_cond in Hc. apply andb_prop in Hc. destruct Hc as [Hc _].
  destruct Hflag as [H0 | Hroots]; [rewrite H0 in Hc; discriminate|].
  destruct (Hev (fsub (xl (g t)) delta)) as (psumr & Hp).
  destruct (flt (fmul psumr (psuml t)) f0 || feq psumr f0) eqn:Hbr.
  - rewrite (grid_step_bracket fuel pt order nb delta j t psumr)
      by assumption.
    rewrite int_add_done by (rewrite Hroots; exact Hr). cbn [bind].
    destruct (bisect_n_done fuel pt order Hev (Z.to_nat (nb + 1))
                {| b_psuml := psuml t; b_xl := xl (g t);
                   b_xr := fsub (xl (g t)) delta; b_xm := xm (g t) |})
      as (b & ->).
    cbn [bind]. rewrite store_done by (rewrite Hlen; exact Hj). cbn [bind].
    eexists. split; [reflexivity|]. cbn [g freq flag].
    split; [rewrite update_length; exact Hlen | left; reflexivity].
  - rewrite (grid_step_advance fuel pt order nb delta j t psumr)
      by assumption.
    eexists. split; [reflexivity|]. cbn [g freq flag roots].
    split; [exact Hlen | right; exact Hroots].
Qed.

(** X1.  For order >= 2, [a] of at least [order + 1] entries, [freq] of at
    least [order] entries and [nb < INT_MAX], [lpc_to_lsp] has no undefined
    behaviour, in any arithmetic and for any [delta]: it makes no access
    outside an array, reads no indeterminate cell and overflows no [int].
    With a budget above the bounded loops it returns or is still in a grid
    search. *)
Theorem lpc_to_lsp_never_undefined (fuel : nat) (a : list F) (order : Z)
  (freq0 : list F) (nb : Z) (delta : F) :
  2 <= order < INT_MAX ->
  order + 1 <= Z.of_nat (length a) ->
  order <= Z.of_nat (length freq0) ->
  nb < INT_MAX ->
  (Z.to_nat (nb + 1) < fuel)%nat -> (Z.to_nat order + 1 < fuel)%nat ->
  lpc_to_lsp acosf fuel a order freq0 nb delta = OutOfFuel \/
  exists r lsp, lpc_to_lsp acosf fuel a order freq0 nb delta = Done (r, lsp).
Proof.
  intros Ho Ha Hfr Hnb Hfb Hf.
  rewrite lpc_to_lsp_unfold by (auto; lia). cbv zeta.
  destruct (quot2_bounds order ltac:(lia)) as [HM0 HM1].
  set (m := Z.to_nat (Z.quot order 2)).
  set (P := filled (doubled m (P_rec a order)) (S m) (Z.to_nat order - m)).
  set (Q := filled (doubled m (Q_rec a order)) (S m) (Z.to_nat order - m)).
  assert (HP : forall x, exists v, cheb_poly_eva fuel P x order = Done v).
  { apply filled_evaluable; unfold INT_MAX in *; lia. }
  assert (HQ : forall x, exists v, cheb_poly_eva fuel Q x order = Done v).
  { apply filled_evaluable; unfold INT_MAX in *; lia. }
  assert (Hsafe : root_search fuel P Q order nb delta freq0 <> Undefined).
  { unfold root_search.
    apply (for_loop_never_undefined
             (fun i s => 0 <= i <= order /\ 0 <= roots s <= i /\
                         length (freq s) = length freq0)).
    2:{ cbn. repeat split; lia. }
    intros i s (Hi & Hr & Hl) Hc. apply Z.ltb_lt in Hc.
    split; [unfold INT_MIN, INT_MAX in *; lia|].
    assert (Hpt : forall x, exists v,
               cheb_poly_eva fuel (if negb (Z.rem i 2 =? 0) then Q else P)
                 x order = Done v).
    { destruct (negb (Z.rem i 2 =? 0)); assumption. }
    split.
    - unfold root_step. cbv zeta.
      destruct (Hpt (xl s)) as (psuml0 & ->). cbn [bind].
      destruct (grid_search_never_undefined fuel _ order nb delta i
                  {| psuml := psuml0; flag := 1; g := s |} Hpt Hnb Hfb)
        as [-> | (t & n & ->)]; cbn [g freq roots bind];
        try (unfold INT_MIN, INT_MAX in *; lia); discriminate.
    - intros s' Hs'. apply root_step_cases in Hs'.
      destruct Hs' as [Hlen [(A & _) | (B & _)]];
        repeat split; try lia; congruence. }
  destruct (root_search fuel P Q order nb delta freq0) as [[st k]| |];
    cbn [bind]; [right; eauto | congruence | left; reflexivity].
Qed.

End LpcToLspSafety.

(** X1 at order 2 in single precision, with a step that rounding absorbs:
    the call runs out of budget, it does not go wrong. *)
Lemma lpc_to_lsp_never_undefined_at_order_2 :
  lpc_to_lsp (fun x : float32 => x) 20 [f32 1 0; f32 0 0; f32 0 0] 2
    [f32 0 0; f32 0 0] 4 (f32 1 (-30)) = OutOfFuel \/
  exists r lsp,
    lpc_to_lsp (fun x : float32 => x) 20 [f32 1 0; f32 0 0; f32 0 0] 2
      [f32 0 0; f32 0 0] 4 (f32 1 (-30)) = Done (r, lsp).
Proof.
  apply (lpc_to_lsp_never_undefined (F := float32)).
  - unfold INT_MAX. lia.
  - simpl. lia.
  - simpl. lia.
  - unfold INT_MAX. lia.
  - simpl. lia.
  - simpl. lia.
Defined.

(** ** Where [lpc_to_lsp] records roots *)

Section RecordedRoots.

Context {F : Type} {AF : Arith F}.

Variable acosf : F -> F.

(** A grid search that ends without a root has left the interval: [xr] is
    no longer at or above -1. *)
Lemma grid_search_exhausted (fuel : nat) (pt : list (cell F)) (order nb : Z)
  (delta : F) (j : Z) (s s' : grid) (k : nat) :
  grid_search fuel pt order nb delta j s = Done (s', k) ->
  flag s' <> 0 -> fge (xr (g s')) (of_int (-1)) = false.
Proof.
  intros H Hfl. unfold grid_search in H.
  apply (while_loop_inv (fun _ => True)) in H; auto.
  destruct H as [_ Hc]. unfold grid_cond in Hc.
  apply andb_false_iff in Hc. destruct Hc as [Hc | Hc]; [|exact Hc].
  apply negb_false_iff, Z.eqb_eq in Hc. contradiction.
Qed.

(** Once [xr] is below -1 the grid search of a root index does nothing. *)
Lemma grid_search_skipped (fuel : nat) (pt : list (cell F)) (order nb : Z)
  (delta : F) (j : Z) (s s' : grid) (k : nat) :
  fge (xr (g s)) (of_int (-1)) = false ->
  grid_search fuel pt order nb delta j s = Done (s', k) -> s' = s.
Proof.
  intros Hx H. unfold grid_search in H.
  destruct fuel as [|fuel]; [discriminate|]. cbn [while_loop] in H.
  unfold grid_cond in H at 1. rewrite Hx, andb_false_r in H.
  inversion H. reflexivity.
Qed.

(** The roots found occupy the first entries of [freq]: after the loop
    over the root indices, [freq] is as the caller left it from index
    [roots] on. *)
Lemma root_search_prefix (fuel : nat) (P Q : list (cell F)) (order nb : Z)
  (delta : F) (freq0 : list F) (st : search) (k : nat) :
  root_search fuel P Q order nb delta freq0 = Done (st, k) ->
  forall i, (Z.to_nat (roots st) <= i)%nat ->
            nth_error (freq st) i = nth_error freq0 i.
Proof.
  intros H. unfold root_search in H.
  apply (for_loop_inv
           (fun i s =>
              0 <= roots s <= i /\
              (forall p, (Z.to_nat (roots s) <= p)%nat ->
                         nth_error (freq s) p = nth_error freq0 p) /\
              (roots s < i -> fge (xr s) (of_int (-1)) = false))) in H.
  - destruct H as [(_ & H & _) _]. exact H.
  - clear H. intros i s s' (Hr & Hfr & Hx) _ Hstep.
    unfold root_step in Hstep. cbv zeta in Hstep.
    inv_bind Hstep. inv_bind Hstep. destruct v0 as [t n].
    inversion Hstep; subst s'; clear Hstep. cbn [fst].
    destruct (Z.ltb_spec (roots s) i) as [Hlt | Hge].
    + apply grid_search_skipped in E0; [|exact (Hx Hlt)].
      subst t. cbn [g]. repeat split; try lia; auto.
    + assert (Hri : roots s = i) by lia.
      pose proof (grid_search_roots _ _ _ _ _ _ _ _ _ E0 eq_refl)
        as [_ Hcase].
      cbn [g] in Hcase.
      destruct Hcase as [(A1 & A2 & A3 & _) | (B1 & B2 & B3 & B4 & _)].
      * rewrite A2, A3. split; [lia|]. split; [exact Hfr|].
        intros _. apply (grid_search_exhausted _ _ _ _ _ _ _ _ _ E0).
        rewrite A1. discriminate.
      * rewrite B2, B4. split; [lia|]. split.
        -- intros p Hp. rewrite nth_error_update_other by lia.
           apply Hfr. lia.
        -- intros C. lia.
  - cbn. repeat split; intros; try lia; auto.
Qed.

(** X2.  [lpc_to_lsp] records its roots in the first entries of [freq].
    When it returns the count [r], the entries [r .. order-1] of the output
    are [acosf] of what the caller had left in [freq], and the entries from
    [order] on are untouched. *)
Theorem lpc_to_lsp_output_past_root_count (fuel : nat) (a : list F)
  (order : Z) (freq0 : list F) (nb : Z) (delta : F) (r : Z) (lsp : list F) :
  0 <= order < INT_MAX ->
  order + 1 <= Z.of_nat (length a) ->
  order <= Z.of_nat (length freq0) ->
  (Z.to_nat order + 1 < fuel)%nat ->
  lpc_to_lsp acosf fuel a order freq0 nb delta = Done (r, lsp) ->
  0 <= r <= order /\
  (forall i, (Z.to_nat r <= i < Z.to_nat order)%nat ->
             nth_error lsp i = option_map acosf (nth_error freq0 i)) /\
  (forall i, (Z.to_nat order <= i)%nat ->
             nth_error lsp i = nth_error freq0 i).
Proof.
  intros Ho Ha Hfr Hf H.
  rewrite lpc_to_lsp_unfold in H by assumption. cbv zeta in H.
  inv_bind H. destruct v as [st k]. cbn [fst snd] in H.
  assert (Hr : roots st = r) by congruence.
  assert (Hlsp : lsp = map acosf (firstn (Z.to_nat order) (freq st))
                       ++ skipn (Z.to_nat order) (freq st)) by congruence.
  clear H.
  pose proof (root_search_prefix _ _ _ _ _ _ _ _ _ E) as Hpre.
  apply root_search_count in E. destruct E as (_ & Hrange & Hlen).
  rewrite Hr in *. subst lsp. set (n := Z.to_nat order) in *.
  split; [lia|]. split.
  - intros i Hi.
    rewrite nth_error_app1 by (rewrite length_map, length_firstn; lia).
    rewrite nth_error_map, nth_error_firstn.
    destruct (Nat.ltb_spec i n); [|lia].
    rewrite Hpre by lia. reflexivity.
  - intros i Hi.
    rewrite nth_error_app2 by (rewrite length_map, length_firstn; lia).
    rewrite length_map, length_firstn, nth_error_skipn.
    replace (n + (i - Nat.min n (length (freq st))))%nat with i by lia.
    apply Hpre. lia.
Qed.

(** X3.  [lpc_to_lsp] never reads [a[0]]: the coefficient of index 0 is
    taken to be 1. *)
Theorem lpc_to_lsp_ignores_first_coefficient (fuel : nat) (a0 a0' : F)
  (t : list F) (order : Z) (freq0 : list F) (nb : Z) (delta : F) :
  0 <= order < INT_MAX ->
  order <= Z.of_nat (length t) ->
  order <= Z.of_nat (length freq0) ->
  (Z.to_nat order + 1 < fuel)%nat ->
  lpc_to_lsp acosf fuel (a0 :: t) order freq0 nb delta
  = lpc_to_lsp acosf fuel (a0' :: t) order freq0 nb delta.
Proof.
  intros Ho Ht Hfr Hf.
  rewrite !lpc_to_lsp_unfold by (auto; cbn [length]; lia). cbv zeta.
  destruct (quot2_bounds order ltac:(lia)) as [HM0 HM1].
  set (m := Z.to_nat (Z.quot order 2)).
  assert (HP : forall i, (i <= m)%nat ->
             P_rec (a0 :: t) order i = P_rec (a0' :: t) order i).
  { induction i as [|i IH]; intros Hi; [reflexivity|]. cbn [P_rec].
    rewrite IH by lia.
    replace (Z.to_nat (order + 1 - Z.of_nat (S i)))
      with (S (Z.to_nat (order - Z.of_nat (S i)))) by lia.
    reflexivity. }
  assert (HQ : forall i, (i <= m)%nat ->
             Q_rec (a0 :: t) order i = Q_rec (a0' :: t) order i).
  { induction i as [|i IH]; intros Hi; [reflexivity|]. cbn [Q_rec].
    rewrite IH by lia.
    replace (Z.to_nat (order + 1 - Z.of_nat (S i)))
      with (S (Z.to_nat (order - Z.of_nat (S i)))) by lia.
    reflexivity. }
  rewrite (filled_ext (doubled m (P_rec (a0 :: t) order))
             (doubled m (P_rec (a0' :: t) order)))
    by (intros j Hj; unfold doubled; rewrite HP by lia; reflexivity).
  rewrite (filled_ext (doubled m (Q_rec (a0 :: t) order))
             (doubled m (Q_rec (a0' :: t) order)))
    by (intros j Hj; unfold doubled; rewrite HQ by lia; reflexivity).
  reflexivity.
Qed.

End RecordedRoots.

(** ** The smallest orders *)

Section SmallOrders.

Context {F : Type} {AF : Arith F}.

Variable acosf : F -> F.
Variable cosf : F -> F.

(** X4.  With order 0 [lpc_to_lsp] reads nothing of [a], leaves [freq] as
    it is and returns 0.  With order 1 it has undefined behaviour whatever
    the arrays: the first evaluation of P' writes [T[1]] outside the
    one-cell scratch block of [cheb_poly_eva]. *)
Theorem lpc_to_lsp_orders_0_and_1 (fuel : nat) (a freq0 : list F) (nb : Z)
  (delta : F) :
  lpc_to_lsp acosf (S fuel) a 0 freq0 nb delta = Done (0, freq0) /\
  lpc_to_lsp acosf (S fuel) a 1 freq0 nb delta = Undefined.
Proof.
  split; reflexivity.
Qed.

(** X5.  With a negative order (down to the least one whose [order * 4]
    is an [int]) both allocations of [lsp_to_lpc] fail and it returns
    without touching [ak].  With order 1 and at least one entry in [lsp] it
    has undefined behaviour: no cascade stage runs, [n4] is still the null
    pointer, and [*(n4 + 1)] is read. *)
Theorem lsp_to_lpc_orders_below_2 (fuel : nat) (lsp ak : list F) (order : Z)
  (w : F) :
  (-536870912 <= order < 0 -> lsp_to_lpc cosf fuel lsp ak order = Done ak) /\
  lsp_to_lpc cosf (S (S (S fuel))) (w :: lsp) ak 1 = Undefined.
Proof.
  split.
  - intros Ho. unfold lsp_to_lpc.
    rewrite int_mul_done by (unfold INT_MIN, INT_MAX; lia). cbn [bind].
    rewrite int_add_done by (unfold INT_MIN, INT_MAX; lia). cbn [bind].
    unfold malloc. destruct (Z.ltb_spec order 0); [reflexivity|lia].
  - reflexivity.
Qed.

End SmallOrders.

(** X5 at order -3. *)
Lemma lsp_to_lpc_order_minus_3 :
  lsp_to_lpc (fun x : float32 => x) 20 [f32 0 0] [f32 7 0; f32 7 0] (-3)
  = Done [f32 7 0; f32 7 0].
Proof.
  apply (proj1 (lsp_to_lpc_orders_below_2 (F := float32) (fun x => x) 20
                  [f32 0 0] [f32 7 0; f32 7 0] (-3) (f32 0 0))).
  lia.
Defined.

(** ** What [lsp_to_lpc] writes *)

Section Reconstruction.

Context {F : Type} {AF : Arith F}.

Variable cosf : F -> F.

Lemma nth_update_other {A : Type} (l : list A) (n k : nat) (v d : A) :
  n <> k -> nth k (update l n v) d = nth k l d.
Proof.
  revert n k; induction l as [|h t IH]; intros [|n] [|k] H; simpl;
    try congruence; auto.
Qed.

(** One iteration of the loop over [j] writes [ak[j]] and nothing else of
    [ak]. *)
Lemma clock_frame (fuel : nat) (fr : list (cell F)) (order j : Z)
  (s s' : cascade) (ak ak' : list F) :
  clock fuel fr order j (s, ak) = Done (s', ak') ->
  0 <= j < Z.of_nat (length ak) /\
  exists v, ak' = update ak (Z.to_nat j) v.
Proof.
  unfold clock. intros H. inv_bind H.
  destruct (n4 (fst v)) as [n|]; [|discriminate].
  inv_bind H. inv_bind H. inv_bind H. inv_bind H. inv_bind H.
  inversion H; subst; clear H.
  apply store_inv in E2. destruct E2 as [Hj ->]. split; [exact Hj|eauto].
Qed.

(** X6.  For order >= 2 (with [4 * order + 2] an [int]), [lsp] of at least
    [order] entries and [ak] of at least [order + 1] entries, [lsp_to_lpc]
    always returns, in any arithmetic: it has no undefined behaviour and
    needs no search.  It writes [ak[0 .. order]] only: [ak] keeps its
    length and its entries past [order]. *)
Theorem lsp_to_lpc_returns_and_frames (fuel : nat) (lsp ak : list F)
  (order : Z) :
  2 <= order -> 4 * order + 2 <= INT_MAX ->
  order <= Z.of_nat (length lsp) -> order + 1 <= Z.of_nat (length ak) ->
  (Z.to_nat (4 * order + 2) < fuel)%nat ->
  exists ak',
    lsp_to_lpc cosf fuel lsp ak order = Done ak' /\
    length ak' = length ak /\
    forall i, (Z.to_nat order < i)%nat -> nth_error ak' i = nth_error ak i.
Proof.
  intros Ho Hmax Hl Hak Hf.
  rewrite lsp_to_lpc_unfold by (auto; lia). cbv zeta.
  destruct (quot2_bounds order ltac:(lia)) as [HM0 HM1].
  set (N := Z.to_nat (4 * Z.quot order 2 + 2)).
  set (fr := filled (fun k => cosf (nth k lsp f0)) (Z.to_nat order) 0).
  set (W := filled (fun _ : nat => @f0 F AF) N (Z.to_nat (4 * order + 2) - N)).
  destruct (clock_loop_done fuel fr (fun k => cosf (nth k lsp f0)) order W ak
              (Z.to_nat (order + 1)))
    as (s & ak' & Hrun & _); auto; try lia.
  { apply filled_ready. }
  replace (Z.of_nat (Z.to_nat (order + 1)) - 1) with order in Hrun by lia.
  rewrite Hrun. cbn [bind fst snd]. exists ak'. split; [reflexivity|].
  unfold clock_loop in Hrun.
  apply (for_loop_inv
           (fun j p => 0 <= j /\ length (snd p) = length ak /\
                       forall i, (Z.to_nat j <= i)%nat ->
                                 nth_error (snd p) i = nth_error ak i))
    in Hrun.
  - destruct Hrun as [(_ & Hlen & Hfrm) _]. cbn [snd] in *.
    split; [exact Hlen|]. intros i Hi. apply Hfrm. lia.
  - intros j [t akt] [t' akt'] (Hj & Hlen & Hfrm) _ Hstep. cbn [snd] in *.
    apply clock_frame in Hstep. destruct Hstep as [Hjr [v ->]].
    split; [lia|]. split; [rewrite update_length; exact Hlen|].
    intros i Hi. rewrite nth_error_update_other by lia. apply Hfrm. lia.
  - cbn [snd]. split; [lia|]. split; [reflexivity|]. intros; reflexivity.
Qed.

(** The first iteration of the loop over [j], on the zeroed block, in an
    arithmetic in which the products with the zeros of the block vanish:
    both accumulators stay at 1 through the stages, and [ak[0]] is 1. *)
Lemma clock_first (fuel : nat) (c : nat -> F) (order : Z) (k : nat)
  (ak : list F) :
  fadd f1 f0 = f1 -> fsub f1 f0 = f1 -> fmul (fadd f1 f1) half = f1 ->
  (forall i, (i < Z.to_nat order)%nat ->
             fsub f1 (fmul (fmul f2 (c i)) f0) = f1) ->
  2 <= order -> 4 * order + 2 <= INT_MAX ->
  (Z.to_nat (Z.quot order 2) < fuel)%nat ->
  0 < Z.of_nat (length ak) ->
  exists s',
    clock fuel (filled c (Z.to_nat order) 0) order 0
      ({| xin1 := f1; xin2 := f1;
          Wp := filled (fun _ => f0) (Z.to_nat (4 * Z.quot order 2 + 2)) k;
          n4 := None |}, ak)
    = Done (s', update ak 0 f1).
Proof.
  intros Hadd Hsub Havg Hc Ho Hmax Hf Hak. unfold clock.
  destruct (quot2_bounds order ltac:(lia)) as [HM0 HM1].
  assert (HM2 : 1 <= Z.quot order 2).
  { rewrite Z.quot_div_nonneg by lia.
    pose proof (Z_div_mod_eq_full order 2).
    pose proof (Z.mod_pos_bound order 2 ltac:(lia)). lia. }
  remember (Z.quot order 2) as M eqn:EM.
  remember (Z.to_nat (4 * M + 2)) as N eqn:EN.
  destruct (@for_loop_run cascade
              (fun i t =>
                 xin1 t = f1 /\ xin2 t = f1 /\
                 (1 <= i -> n4 t = Some (4 * i - 1)) /\
                 exists ws r,
                   Wp t = map Some ws ++ r /\ length ws = N /\
                   forall p, (Z.to_nat (4 * i) <= p < N)%nat ->
                             nth p ws f0 = f0)
              (fun i => i <? M) (stage (filled c (Z.to_nat order) 0))
              (Z.to_nat M) fuel 0
              {| xin1 := f1; xin2 := f1; Wp := filled (fun _ => f0) N k;
                 n4 := None |})
    as (s1 & Hl1 & Hx1 & Hx2 & Hn & ws & r & HW & Hlen & Hz).
  1-3: unfold INT_MIN, INT_MAX in *; lia.
  1:{ intros i Hi. apply Z.ltb_lt. lia. }
  1:{ apply Z.ltb_ge. lia. }
  1:{ cbn [xin1 xin2 n4 Wp]. split; [reflexivity|]. split; [reflexivity|].
      split; [lia|].
      exists (map (fun _ => f0) (seq 0 N)), (repeat None k).
      split; [reflexivity|]. split; [rewrite length_map, length_seq; auto|].
      intros p Hp. apply (nth_tabulate (fun _ => f0)). lia. }
  1:{ intros i t Hi (Ht1 & Ht2 & _ & ws & r & HW & Hlen & Hz).
      unfold stage. rewrite HW, Ht1, Ht2.
      rewrite int_mul_done by (unfold INT_MIN, INT_MAX in *; lia).
      cbn [bind].
      rewrite int_mul_done by (unfold INT_MIN, INT_MAX in *; lia).
      cbn [bind].
      rewrite filled_load by lia. cbn [bind].
      rewrite (load_cell_done ws r _ f0) by lia. cbn [bind].
      rewrite (load_cell_done ws r _ f0) by lia. cbn [bind].
      rewrite int_add_done by (unfold INT_MIN, INT_MAX in *; lia).
      cbn [bind].
      rewrite filled_load by lia. cbn [bind].
      rewrite (load_cell_done ws r _ f0) by lia. cbn [bind].
      rewrite (load_cell_done ws r _ f0) by lia. cbn [bind].
      rewrite !Hz by lia.
      rewrite store_cell_done by lia. cbn [bind].
      rewrite (load_cell_done _ r _ f0) by (rewrite update_length; lia).
      cbn [bind].
      rewrite nth_update_other, Hz by lia.
      rewrite store_cell_done by (rewrite update_length; lia). cbn [bind].
      rewrite store_cell_done by (rewrite !update_length; lia). cbn [bind].
      rewrite store_cell_done by (rewrite !update_length; lia). cbn [bind].
      eexists. split; [reflexivity|]. cbn [xin1 xin2 n4 Wp].
      rewrite !Hc by lia. rewrite Hadd.
      split; [reflexivity|]. split; [reflexivity|].
      split; [intros _; f_equal; lia|].
      eexists _, r. split; [reflexivity|].
      split; [rewrite !update_length; exact Hlen|].
      intros p Hp. rewrite !nth_update_other by lia. apply Hz. lia. }
  rewrite Hl1. cbn [bind fst snd].
  rewrite Hn by lia. rewrite HW, Hx1, Hx2.
  rewrite (load_cell_done ws r _ f0) by lia. cbn [bind].
  rewrite (load_cell_done ws r _ f0) by lia. cbn [bind].
  rewrite !Hz by lia. rewrite Hadd, Hsub, Havg.
  rewrite store_done by lia. cbn [bind].
  rewrite store_cell_done by lia. cbn [bind].
  rewrite store_cell_done by (rewrite update_length; lia). cbn [bind].
  eexists. reflexivity.
Qed.

(** In such an arithmetic [lsp_to_lpc] returns [ak] with [ak[0] = 1]. *)
Lemma lsp_to_lpc_first_is_one (fuel : nat) (lsp ak : list F) (order : Z) :
  fadd f1 f0 = f1 -> fsub f1 f0 = f1 -> fmul (fadd f1 f1) half = f1 ->
  (forall i, (i < Z.to_nat order)%nat ->
             fsub f1 (fmul (fmul f2 (cosf (nth i lsp f0))) f0) = f1) ->
  2 <= order -> 4 * order + 2 <= INT_MAX ->
  order <= Z.of_nat (length lsp) -> order + 1 <= Z.of_nat (length ak) ->
  (Z.to_nat (4 * order + 2) < fuel)%nat ->
  exists ak',
    lsp_to_lpc cosf fuel lsp ak order = Done ak' /\
    nth_error ak' 0 = Some f1.
Proof.
  intros Hadd Hsub Havg Hc Ho Hmax Hl Hak Hf.
  rewrite lsp_to_lpc_unfold by (auto; lia). cbv zeta.
  destruct (quot2_bounds order ltac:(lia)) as [HM0 HM1].
  set (N := Z.to_nat (4 * Z.quot order 2 + 2)).
  set (fr := filled (fun k => cosf (nth k lsp f0)) (Z.to_nat order) 0).
  set (W := filled (fun _ : nat => @f0 F AF) N (Z.to_nat (4 * order + 2) - N)).
  destruct (clock_loop_done fuel fr (fun k => cosf (nth k lsp f0)) order W ak
              (Z.to_nat (order + 1)))
    as (s & ak' & Hrun & _); auto; try lia.
  { apply filled_ready. }
  replace (Z.of_nat (Z.to_nat (order + 1)) - 1) with order in Hrun by lia.
  rewrite Hrun. cbn [bind fst snd]. exists ak'. split; [reflexivity|].
  unfold clock_loop in Hrun.
  apply (for_loop_inv
           (fun j p =>
              0 <= j /\
              (j = 0 -> p = ({| xin1 := f1; xin2 := f1; Wp := W;
                                n4 := None |}, ak)) /\
              (1 <= j -> nth_error (snd p) 0 = Some f1)))
    in Hrun.
  - destruct Hrun as [(_ & _ & H1) _]. cbn [snd] in H1. apply H1. lia.
  - intros j [t akt] [t' akt'] (Hj & H0 & H1) _ Hstep. cbn [snd] in *.
    split; [lia|]. split; [lia|]. intros _.
    destruct (Z.eq_dec j 0) as [-> | Hne].
    + specialize (H0 eq_refl). inversion H0; subst t akt.
      destruct (clock_first fuel (fun k => cosf (nth k lsp f0)) order
                  (Z.to_nat (4 * order + 2) - N) ak)
        as (s1 & Hfirst); auto; try lia.
      fold N fr W in Hfirst. rewrite Hfirst in Hstep.
      inversion Hstep; subst.
      apply nth_error_update_same. lia.
    + apply clock_frame in Hstep. destruct Hstep as [Hjr [v ->]].
      rewrite nth_error_update_other by lia. apply H1. lia.
  - split; [lia|]. split; [reflexivity|]. lia.
Qed.

End Reconstruction.

(** In binary32 the product of a number with zero is a zero, and 1 minus a
    zero is 1. *)
Lemma f32_product_with_zero (x : float32) :
  finite32 x = true -> fsub f1 (fmul x f0) = f1.
Proof.
  destruct x as [[|]|[|]| |[|] m e]; intros H; try discriminate H;
    reflexivity.
Qed.

(** X7.  In single precision, for order >= 2 and an [lsp] vector for which
    every [2 * cosf(lsp[i])] is a number (neither infinite nor NaN),
    [lsp_to_lpc] returns with [ak[0] = 1.0]. *)
Theorem lsp_to_lpc_unity_gain (cosf : float32 -> float32) (fuel : nat)
  (lsp ak : list float32) (order : Z) :
  2 <= order -> 4 * order + 2 <= INT_MAX ->
  order <= Z.of_nat (length lsp) -> order + 1 <= Z.of_nat (length ak) ->
  (Z.to_nat (4 * order + 2) < fuel)%nat ->
  (forall i, (i < Z.to_nat order)%nat ->
             finite32 (fmul f2 (cosf (nth i lsp f0))) = true) ->
  exists ak',
    lsp_to_lpc cosf fuel lsp ak order = Done ak' /\
    nth_error ak' 0 = Some (f32 1 0).
Proof.
  intros Ho Hmax Hl Hak Hf Hfin.
  change (f32 1 0) with (@f1 float32 binary32).
  apply lsp_to_lpc_first_is_one; auto.
  intros i Hi. apply f32_product_with_zero. apply Hfin. exact Hi.
Qed.

(** ** Where the recorded roots lie *)

(** The grid search of one root index keeps [xr <= xl <= 1], and a root
    it records lies in a grid cell. *)
Lemma grid_search_cell32 (fuel : nat) (pt : list (cell float32))
  (order nb : Z) (delta : float32) (j : Z) (s s' : grid) (k : nat) :
  number32 delta = true -> 0 <= rank32 delta <= 2 * ONE ->
  0 <= nb < INT_MAX -> (Z.to_nat (nb + 1) < fuel)%nat ->
  grid_search fuel pt order nb delta j s = Done (s', k) -> flag s = 1 ->
  number32 (xl (g s)) = true -> number32 (xr (g s)) = true ->
  rank32 (xr (g s)) <= rank32 (xl (g s)) -> rank32 (xl (g s)) <= ONE ->
  number32 (xl (g s')) = true /\ number32 (xr (g s')) = true /\
  rank32 (xr (g s')) <= rank32 (xl (g s')) /\ rank32 (xl (g s')) <= ONE /\
  (roots (g s') = roots (g s) + 1 -> in_cell delta (xm (g s'))).
Proof.
  intros Nd Bd Hnb Hf H Hfl Nl Nr Hrl Hl1. unfold grid_search in H.
  pose proof TOP_LIM. pose proof LIM_pos. pose proof ONE_LIM.
  pose proof ONE_pos.
  destruct f32_one as [N1 R1]. destruct f32_minus_one as [Nm Rm].
  pose (Inv := fun t : grid =>
    number32 (xl (g t)) = true /\ number32 (xr (g t)) = true /\
    rank32 (xr (g t)) <= rank32 (xl (g t)) /\ rank32 (xl (g t)) <= ONE /\
    ((flag t = 1 /\ roots (g t) = roots (g s))
     \/
     (flag t = 0 /\ roots (g t) = roots (g s) + 1 /\
      in_cell delta (xm (g t))))).
  assert (Hs : Inv s) by (unfold Inv; auto 10).
  destruct (while_loop_inv Inv grid_cond (grid_step fuel pt order nb delta j))
    with (fuel := fuel) (s := s) (s' := s') (n := k) as [Hi _]; auto.
  2:{ destruct Hi as (A & B & C & D & [(_ & E) | (_ & _ & E)]);
        repeat split; auto. intros G. lia. }
  clear H Hs. intros t t' (Nt & Ntr & Hle & Hle1 & Ht) Hc Hstep. unfold Inv.
  unfold grid_cond in Hc. apply andb_prop in Hc. destruct Hc as [Hc Hx].
  destruct Ht as [(Hf1 & Hr) | (Hf0 & _)].
  2:{ rewrite Hf0 in Hc. discriminate. }
  unfold fge in Hx. apply fle32 in Hx; [|exact Nm|exact Ntr].
  destruct (fsub32 (xl (g t)) delta Nt Nd ltac:(lia) ltac:(lia))
    as (S1 & S2 & S3).
  assert (S4 : - (3 * ONE) <= rank32 (fsub (xl (g t)) delta)).
  { rewrite S2.
    assert (R3 : round32 (- (3 * ONE)) = - (3 * ONE)).
    { apply round32_id. apply is_rank_opp. split; [|left; lia].
      exists 3, 149. unfold ONE. lia. }
    rewrite <- R3. apply round32_mono. lia. }
  pose proof Hstep as Hstep'.
  apply grid_step_cases in Hstep.
  destruct Hstep as [(A1 & A2 & _)
                    | (B1 & B2 & _ & B4 & B5 & B6)].
  - apply grid_step_found in Hstep'; [|lia|exact A1].
    destruct Hstep' as (b & c & Hbis & Exl & Exr & Exm).
    rewrite bisection_bisect_n in Hbis by (auto; lia).
    inv_bind Hbis. inversion Hbis; subst b c; clear Hbis.
    apply (bisect_n_nested32 fuel pt order
             (rank32 (fsub (xl (g t)) delta)) (rank32 (xl (g t)))) in E;
      cbn [b_xl b_xr]; auto; try lia.
    destruct E as (I1 & I2 & I3 & I4 & I5 & I6).
    specialize (I6 ltac:(lia)).
    assert (Nxm : number32 (b_xm v) = true /\
                  rank32 (fsub (xl (g t)) delta) <= rank32 (b_xm v) /\
                  rank32 (b_xm v) <= rank32 (xl (g t)) /\
                  rank32 (b_xr v) <= rank32 (b_xm v)).
    { destruct I6 as [-> | ->]; repeat split; auto; lia. }
    destruct Nxm as (J1 & J2 & J3 & J4).
    rewrite Exl, Exr, Exm.
    split; [exact J1|]. split; [exact I2|]. split; [exact J4|].
    split; [lia|]. right. split; [exact A1|]. split; [lia|].
    exists (xl (g t)).
    split; [apply fle32; auto; lia|].
    split; [apply fle32; auto; lia|].
    split; apply fle32; auto.
  - rewrite B5, B6. split; [exact S1|]. split; [exact S1|].
    split; [lia|]. split; [lia|]. left. split; congruence.
Qed.

(** Every root recorded by the loop over the root indices lies in a grid
    cell. *)
Lemma root_search_cells32 (fuel : nat) (P Q : list (cell float32))
  (order nb : Z) (delta : float32) (freq0 : list float32) (st : search)
  (k : nat) :
  number32 delta = true -> 0 <= rank32 delta <= 2 * ONE ->
  0 <= nb < INT_MAX -> (Z.to_nat (nb + 1) < fuel)%nat ->
  root_search fuel P Q order nb delta freq0 = Done (st, k) ->
  forall p, (p < Z.to_nat (roots st))%nat ->
            exists x, nth_error (freq st) p = Some x /\ in_cell delta x.
Proof.
  intros Nd Bd Hnb Hf H. unfold root_search in H.
  destruct f32_one as [N1 R1]. destruct f32_zero as [N0 R0].
  pose proof ONE_pos.
  apply (for_loop_inv
           (fun i s =>
              0 <= roots s <= i /\
              number32 (xl s) = true /\ number32 (xr s) = true /\
              rank32 (xr s) <= rank32 (xl s) /\ rank32 (xl s) <= ONE /\
              (roots s < i -> fge (xr s) (of_int (-1)) = false) /\
              (forall p, (p < Z.to_nat (roots s))%nat ->
                 exists x, nth_error (freq s) p = Some x /\
                           in_cell delta x))) in H.
  - destruct H as [(_ & _ & _ & _ & _ & _ & H) _]. exact H.
  - clear H. intros i s s' (Hr & Nl & Nr & Hrl & Hl1 & Hx & Hcells) _ Hstep.
    unfold root_step in Hstep. cbv zeta in Hstep.
    inv_bind Hstep. inv_bind Hstep. destruct v0 as [t n].
    inversion Hstep; subst s'; clear Hstep. cbn [fst].
    destruct (Z.ltb_spec (roots s) i) as [Hlt | Hge].
    + apply grid_search_skipped in E0; [|exact (Hx Hlt)].
      subst t. cbn [g]. repeat split; try lia; auto.
    + assert (Hri : roots s = i) by lia.
      pose proof (grid_search_roots _ _ _ _ _ _ _ _ _ E0 eq_refl)
        as [_ Hcase].
      pose proof (grid_search_cell32 _ _ _ _ _ _ _ _ _ Nd Bd Hnb Hf E0
                    eq_refl Nl Nr Hrl Hl1) as (C1 & C2 & C3 & C4 & C5).
      cbn [g] in Hcase, C1, C2, C3, C4, C5.
      destruct Hcase as [(A1 & A2 & A3 & _) | (B1 & B2 & B3 & B4 & _)].
      * rewrite A2, A3. split; [lia|]. repeat split; auto.
        intros _. apply (grid_search_exhausted _ _ _ _ _ _ _ _ _ E0).
        rewrite A1. discriminate.
      * rewrite B2, B4. split; [lia|]. repeat split; auto.
        { intros C; lia. }
        intros p Hp.
        destruct (Nat.eq_dec p (Z.to_nat i)) as [-> | Hne].
        -- exists (xm (g t)). split; [|apply C5; exact B2].
           apply nth_error_update_same. lia.
        -- rewrite nth_error_update_other by lia. apply Hcells. lia.
  - cbn [xl xr roots freq]. split; [lia|]. repeat split; auto; try lia.
Qed.

Section SingleExtras.

Variable acosf : float32 -> float32.

(** X8.  In single precision, with [0 <= delta <= 2] and [nb >= 0], each
    of the [r] roots that [lpc_to_lsp] reports is [lsp[i] = acosf(x)] for a
    value [x] in a grid cell: [y - delta <= x <= y] for a point [y] with
    [-1 <= y <= 1]. *)
Theorem lpc_to_lsp_roots_in_grid_cells (fuel : nat) (a : list float32)
  (order : Z) (freq0 : list float32) (nb : Z) (delta : float32) (r : Z)
  (lsp : list float32) :
  0 <= order < INT_MAX ->
  order + 1 <= Z.of_nat (length a) ->
  order <= Z.of_nat (length freq0) ->
  (Z.to_nat order + 1 < fuel)%nat -> (Z.to_nat (nb + 1) < fuel)%nat ->
  0 <= nb < INT_MAX ->
  number32 delta = true -> fle f0 delta = true -> fle delta f2 = true ->
  lpc_to_lsp acosf fuel a order freq0 nb delta = Done (r, lsp) ->
  forall i, (i < Z.to_nat r)%nat ->
    exists x, nth_error lsp i = Some (acosf x) /\ in_cell delta x.
Proof.
  intros Ho Ha Hfr Hf Hfb Hnb Nd Hd0 Hd2 H i Hi.
  destruct f32_zero as [N0 R0]. destruct f32_two_rank as [N2 R2].
  assert (Bd : 0 <= rank32 delta <= 2 * ONE).
  { apply fle32 in Hd0; [|exact N0|exact Nd].
    apply fle32 in Hd2; [|exact Nd|exact N2]. lia. }
  rewrite lpc_to_lsp_unfold in H by assumption. cbv zeta in H.
  inv_bind H. destruct v as [st k]. cbn [fst snd] in H.
  assert (Hr : roots st = r) by congruence.
  assert (Hlsp : lsp = map acosf (firstn (Z.to_nat order) (freq st))
                       ++ skipn (Z.to_nat order) (freq st)) by congruence.
  clear H.
  pose proof (root_search_cells32 _ _ _ _ _ _ _ _ _ Nd Bd Hnb Hfb E) as Hcells.
  apply root_search_count in E. destruct E as (_ & Hrange & Hlen).
  rewrite Hr in *. subst lsp.
  destruct (Hcells i Hi) as (x & Hx & Hcell).
  exists x. split; [|exact Hcell].
  rewrite nth_error_app1 by (rewrite length_map, length_firstn; lia).
  rewrite nth_error_map, nth_error_firstn.
  destruct (Nat.ltb_spec i (Z.to_nat order)); [|lia].
  rewrite Hx. reflexivity.
Qed.

End SingleExtras.

(** ** Two runs of a loop, side by side *)

(** Two [while] loops whose states stay related run the same number of
    iterations. *)
Lemma while_loop_sim {S1 S2 : Type} (R : S1 -> S2 -> Prop)
  (c1 : S1 -> bool) (c2 : S2 -> bool)
  (b1 : S1 -> outcome S1) (b2 : S2 -> outcome S2) :
  (forall s1 s2, R s1 s2 -> c1 s1 = c2 s2) ->
  (forall s1 s2 s1', R s1 s2 -> c1 s1 = true -> b1 s1 = Done s1' ->
     exists s2', b2 s2 = Done s2' /\ R s1' s2') ->
  forall fuel s1 s2 s1' n,
    R s1 s2 -> while_loop fuel c1 b1 s1 = Done (s1', n) ->
    exists s2', while_loop fuel c2 b2 s2 = Done (s2', n) /\ R s1' s2' /\
                c1 s1' = false.
Proof.
  intros Hc Hb. induction fuel as [|fuel IH]; intros s1 s2 s1' n HR H;
    simpl in H; [discriminate|].
  simpl. rewrite <- (Hc _ _ HR).
  destruct (c1 s1) eqn:C1.
  - inv_bind H. inv_bind H. inversion H; subst; clear H.
    destruct (Hb _ _ _ HR C1 E) as (t & Et & HRt).
    rewrite Et. cbn [bind]. destruct v0 as [u m].
    destruct (IH _ _ _ _ HRt E0) as (s2' & E2 & HR' & Hc').
    rewrite E2. cbn [bind fst snd]. exists s2'. auto.
  - inversion H; subst. exists s2. auto.
Qed.

(** The same for [for] loops over the same index range; [i] is the index
    at which both stop. *)
Lemma for_loop_sim {S1 S2 : Type} (R : Z -> S1 -> S2 -> Prop) (cond : Z -> bool)
  (b1 : Z -> S1 -> outcome S1) (b2 : Z -> S2 -> outcome S2) :
  (forall i s1 s2 s1', R i s1 s2 -> cond i = true -> b1 i s1 = Done s1' ->
     exists s2', b2 i s2 = Done s2' /\ R (i + 1) s1' s2') ->
  forall fuel lo s1 s2 s1' n,
    R lo s1 s2 -> for_loop fuel lo cond b1 s1 = Done (s1', n) ->
    exists s2' i, for_loop fuel lo cond b2 s2 = Done (s2', n) /\
                  R i s1' s2' /\ cond i = false.
Proof.
  intros Hb fuel lo s1 s2 s1' n HR H. unfold for_loop in *.
  inv_bind H. destruct v as [[i u] m]. cbn [fst snd] in H.
  inversion H; subst; clear H.
  apply (while_loop_sim
           (fun p1 p2 => fst p1 = fst p2 /\ R (fst p1) (snd p1) (snd p2))
           (fun p => cond (fst p)) (fun p => cond (fst p))
           (fun p => s' <- b1 (fst p) (snd p) ;;
                     i' <- int_add (fst p) 1 ;; Done (i', s'))
           (fun p => s' <- b2 (fst p) (snd p) ;;
                     i' <- int_add (fst p) 1 ;; Done (i', s')))
    with (s2 := (lo, s2)) in E.
  - destruct E as ([i2 u2] & E2 & (Hi & HR') & Hc). cbn [fst snd] in *.
    rewrite E2. cbn [bind fst snd]. exists u2, i. auto.
  - intros p1 p2 [Ei _]. rewrite Ei. reflexivity.
  - intros [i1 t1] [i2 t2] p1' [Ei HRt] Hci Hbody. cbn [fst snd] in *.
    subst i2. inv_bind Hbody. inv_bind Hbody.
    inversion Hbody; subst; clear Hbody.
    destruct (Hb _ _ _ _ HRt Hci E0) as (t2' & Et & HR2).
    rewrite Et. cbn [bind]. rewrite E1. cbn [bind].
    eexists. split; [reflexivity|]. cbn [fst snd].
    apply int_add_inv in E1. subst. auto.
  - cbn [fst snd]. auto.
Qed.

(** ** [ak] is an output of [lsp_to_lpc] *)

Section OutputOnly.

Context {F : Type} {AF : Arith F}.

Variable cosf : F -> F.

(** One iteration of the loop over [j] never reads [ak]: on another array
    it stores the same value and leaves the same cascade state. *)
Lemma clock_sim (fuel : nat) (fr : list (cell F)) (order j : Z)
  (s s' : cascade) (ak1 ak1' ak2 : list F) :
  clock fuel fr order j (s, ak1) = Done (s', ak1') ->
  0 <= j < Z.of_nat (length ak2) ->
  exists v,
    0 <= j < Z.of_nat (length ak1) /\
    ak1' = update ak1 (Z.to_nat j) v /\
    clock fuel fr order j (s, ak2) = Done (s', update ak2 (Z.to_nat j) v).
Proof.
  unfold clock. cbv beta iota. intros H Hj. inv_bind H. rewrite E.
  cbn [bind].
  destruct (n4 (fst v)) as [n|]; [|discriminate].
  inv_bind H. inv_bind H. inv_bind H. inv_bind H. inv_bind H.
  inversion H; subst; clear H.
  rewrite E0. cbn [bind]. rewrite E1. cbn [bind].
  apply store_inv in E2. destruct E2 as [Hj1 ->].
  rewrite (store_done ak2) by exact Hj. cbn [bind].
  rewrite E3. cbn [bind]. rewrite E4. cbn [bind].
  eexists. split; [exact Hj1|]. split; reflexivity.
Qed.

(** X9.  [ak] is an output only: for order >= 2, the entries
    [ak[0 .. order]] that [lsp_to_lpc] leaves do not depend on what the
    array held at the call. *)
Theorem lsp_to_lpc_overwrites_ak (fuel : nat) (lsp ak1 ak2 : list F)
  (order : Z) :
  2 <= order -> 4 * order + 2 <= INT_MAX ->
  order <= Z.of_nat (length lsp) ->
  order + 1 <= Z.of_nat (length ak1) -> order + 1 <= Z.of_nat (length ak2) ->
  (Z.to_nat (4 * order + 2) < fuel)%nat ->
  exists ak1' ak2',
    lsp_to_lpc cosf fuel lsp ak1 order = Done ak1' /\
    lsp_to_lpc cosf fuel lsp ak2 order = Done ak2' /\
    forall i, (i <= Z.to_nat order)%nat ->
              nth_error ak1' i = nth_error ak2' i.
Proof.
  intros Ho Hmax Hl Hak1 Hak2 Hf.
  rewrite !lsp_to_lpc_unfold by (auto; lia). cbv zeta.
  destruct (quot2_bounds order ltac:(lia)) as [HM0 HM1].
  set (N := Z.to_nat (4 * Z.quot order 2 + 2)).
  set (fr := filled (fun k => cosf (nth k lsp f0)) (Z.to_nat order) 0).
  set (W := filled (fun _ : nat => @f0 F AF) N (Z.to_nat (4 * order + 2) - N)).
  destruct (clock_loop_done fuel fr (fun k => cosf (nth k lsp f0)) order W ak1
              (Z.to_nat (order + 1)))
    as (s & ak1' & Hrun & _); auto; try lia.
  { apply filled_ready. }
  replace (Z.of_nat (Z.to_nat (order + 1)) - 1) with order in Hrun by lia.
  rewrite Hrun. cbn [bind fst snd].
  unfold clock_loop in *.
  apply (for_loop_sim
           (fun j (p1 p2 : cascade * list F) =>
              fst p1 = fst p2 /\ 0 <= j /\
              length (snd p2) = length ak2 /\
              forall k, (k < Z.to_nat j)%nat ->
                        nth_error (snd p1) k = nth_error (snd p2) k)
           (fun j => j <=? order) (clock fuel fr order) (clock fuel fr order))
    with (s2 := ({| xin1 := f1; xin2 := f1; Wp := W; n4 := None |}, ak2))
    in Hrun.
  - destruct Hrun as ([s2 ak2'] & i & Hrun2 & (_ & _ & _ & Hagree) & Hc).
    cbn [fst snd] in *. rewrite Hrun2. cbn [bind fst snd].
    exists ak1', ak2'. split; [reflexivity|]. split; [reflexivity|].
    intros k Hk. apply Hagree. lia.
  - intros j [t a1] [t2 a2] [t' a1'] (Et & Hj & Hlen & Hagree) Hc Hstep.
    cbn [fst snd] in *. subst t2.
    apply clock_sim with (ak2 := a2) in Hstep; [|lia].
    destruct Hstep as (v & Hj1 & -> & Hstep2).
    rewrite Hstep2. eexists. split; [reflexivity|]. cbn [fst snd].
    split; [reflexivity|]. split; [lia|].
    split; [rewrite update_length; exact Hlen|].
    intros k Hk.
    destruct (Nat.eq_dec k (Z.to_nat j)) as [-> | Hne].
    + rewrite !nth_error_update_same by lia. reflexivity.
    + rewrite !nth_error_update_other by lia. apply Hagree. lia.
  - cbn [fst snd]. split; [reflexivity|]. split; [lia|].
    split; [reflexivity|]. intros k Hk. lia.
Qed.

End OutputOnly.

(** X9 at order 2: two different [ak] arrays, one longer than the other. *)
Lemma lsp_to_lpc_overwrites_ak_at_order_2 :
  exists ak1' ak2',
    lsp_to_lpc (fun _ : float32 => f32 1 0) 20 [f32 0 0; f32 0 0]
      [f32 7 0; f32 7 0; f32 7 0] 2 = Done ak1' /\
    lsp_to_lpc (fun _ : float32 => f32 1 0) 20 [f32 0 0; f32 0 0]
      [f32 3 0; f32 4 0; f32 5 0; f32 6 0] 2 = Done ak2' /\
    nth_error ak1' 2 = nth_error ak2' 2.
Proof.
  destruct (lsp_to_lpc_overwrites_ak (F := float32) (fun _ => f32 1 0) 20
              [f32 0 0; f32 0 0] [f32 7 0; f32 7 0; f32 7 0]
              [f32 3 0; f32 4 0; f32 5 0; f32 6 0] 2)
    as (ak1' & ak2' & H1 & H2 & H).
  - lia.
  - unfold INT_MAX. lia.
  - simpl. lia.
  - simpl. lia.
  - simpl. lia.
  - simpl. lia.
  - exists ak1', ak2'. split; [exact H1|]. split; [exact H2|].
    apply H. simpl. lia.
Defined.

(** ** The bracket of the bisection *)

(** Between -4 and 4 each halving divides the width of the bracket by two,
    up to [2^-19]. *)
Lemma bisect_n_width32 (fuel : nat) (pt : list (cell float32)) (order : Z) :
  forall (n : nat) (b b' : bracket),
    number32 (b_xl b) = true -> number32 (b_xr b) = true ->
    - (4 * ONE) <= rank32 (b_xr b) -> rank32 (b_xr b) <= rank32 (b_xl b) ->
    rank32 (b_xl b) <= 4 * ONE ->
    bisect_n fuel pt order n b = Done b' ->
    2 ^ Z.of_nat n * (rank32 (b_xl b') - rank32 (b_xr b') - GAP)
    <= rank32 (b_xl b) - rank32 (b_xr b) - GAP /\
    rank32 (b_xl b) - rank32 (b_xr b) + GAP
    <= 2 ^ Z.of_nat n * (rank32 (b_xl b') - rank32 (b_xr b') + GAP).
Proof.
  pose proof TOP_LIM as HT. pose proof LIM_pos as HL.
  pose proof ONE_LIM as HO. pose proof ONE_pos as HP.
  induction n as [|n IH]; intros b b' Nl Nr Vr Hrl Ul H;
    cbn [bisect_n] in H.
  - inversion H; subst. change (2 ^ Z.of_nat 0) with 1. lia.
  - inv_bind H. apply bisect_step_halves in E.
    cbv zeta in E. destruct E as (psumm & _ & Hxm & Hcase).
    assert (Hp : 2 ^ Z.of_nat (S n) = 2 * 2 ^ Z.of_nat n).
    { rewrite Nat2Z.inj_succ, Z.pow_succ_r by lia. reflexivity. }
    destruct (fmid32_near 129 (b_xl b) (b_xr b) Nl Nr) as [Nm Bm];
      try lia.
    { change (2 ^ (129 + 23)) with (8 * ONE). lia. }
    change (2 ^ 129) with (GAP / 2) in Bm.
    assert (G : GAP = 2 ^ 130) by reflexivity.
    assert (G2 : GAP / 2 = 2 ^ 129) by reflexivity.
    destruct (fmid32_upper (b_xl b) (b_xr b) (rank32 (b_xl b)) Nl Nr)
      as [_ M2]; try lia.
    { apply rank_is_rank. exact Nl. }
    pose proof (fmid32_lower (b_xl b) (b_xr b) (rank32 (b_xr b)) Nl Nr) as M3.
    specialize (M3 ltac:(lia) ltac:(lia) (rank_is_rank _ Nr) ltac:(lia)
                  ltac:(lia) ltac:(lia)).
    rewrite <- Hxm in Nm, Bm, M2, M3.
    assert (H1 : number32 (b_xl v) = true /\ number32 (b_xr v) = true /\
                 - (4 * ONE) <= rank32 (b_xr v) /\
                 rank32 (b_xr v) <= rank32 (b_xl v) /\
                 rank32 (b_xl v) <= 4 * ONE /\
                 2 * (rank32 (b_xl v) - rank32 (b_xr v) - GAP)
                 <= rank32 (b_xl b) - rank32 (b_xr b) - GAP /\
                 rank32 (b_xl b) - rank32 (b_xr b) + GAP
                 <= 2 * (rank32 (b_xl v) - rank32 (b_xr v) + GAP)).
    { destruct (fgt (fmul psumm (b_psuml b)) f0);
        destruct Hcase as (A & B & _); rewrite A, B; rewrite <- ?Hxm;
        repeat split; auto; lia. }
    destruct H1 as (A1 & A2 & A3 & A4 & A5 & A6 & A7).
    destruct (IH v b' A1 A2 A3 A4 A5 H) as [B1 B2].
    rewrite Hp, <- !Z.mul_assoc. lia.
Qed.

Lemma f32_four : number32 (@of_int float32 binary32 4) = true /\
                 rank32 (@of_int float32 binary32 4) = 4 * ONE /\
                 number32 (@of_int float32 binary32 (-4)) = true /\
                 rank32 (@of_int float32 binary32 (-4)) = - (4 * ONE).
Proof. repeat split; reflexivity. Qed.

(** X10.  In single precision the bisection loop of [lpc_to_lsp], started
    on a bracket [xr <= xl] of numbers of magnitude at most [2^126], keeps
    the bracket ordered and inside the initial one; [xm], the value
    recorded as the root, is one of the two ends of the final bracket.
    Between -4 and 4 the width of the bracket is divided by [2^(nb+1)], up
    to [2^-19]: with [w] the width before and [w'] the width after, in
    units of [2^-149], [2^(nb+1) (w' - 2^130) <= w - 2^130] and
    [w + 2^130 <= 2^(nb+1) (w' + 2^130)]. *)
Theorem bisection_keeps_bracket (fuel : nat) (pt : list (cell float32))
  (order nb : Z) (b b' : bracket) (k : nat) :
  0 <= nb < INT_MAX -> (Z.to_nat (nb + 1) < fuel)%nat ->
  number32 (b_xl b) = true -> number32 (b_xr b) = true ->
  fle (f32 (-1) 126) (b_xr b) = true -> fle (b_xr b) (b_xl b) = true ->
  fle (b_xl b) (f32 1 126) = true ->
  bisection fuel pt order nb b = Done (b', k) ->
  fle (b_xr b) (b_xr b') = true /\ fle (b_xr b') (b_xl b') = true /\
  fle (b_xl b') (b_xl b) = true /\
  (b_xm b' = b_xl b' \/ b_xm b' = b_xr b') /\
  (fle (of_int (-4)) (b_xr b) = true -> fle (b_xl b) (of_int 4) = true ->
   2 ^ (nb + 1) * (rank32 (b_xl b') - rank32 (b_xr b') - 2 ^ 130)
   <= rank32 (b_xl b) - rank32 (b_xr b) - 2 ^ 130 /\
   rank32 (b_xl b) - rank32 (b_xr b) + 2 ^ 130
   <= 2 ^ (nb + 1) * (rank32 (b_xl b') - rank32 (b_xr b') + 2 ^ 130)).
Proof.
  intros Hnb Hf Nl Nr Hlo Hrl Hhi H.
  assert (Nhi : number32 (f32 1 126) = true) by reflexivity.
  assert (Nlo : number32 (f32 (-1) 126) = true) by reflexivity.
  assert (Rhi : rank32 (f32 1 126) = 2 ^ 275) by reflexivity.
  assert (Rlo : rank32 (f32 (-1) 126) = - 2 ^ 275) by reflexivity.
  apply fle32 in Hlo; [|exact Nlo|exact Nr].
  apply fle32 in Hrl; [|exact Nr|exact Nl].
  apply fle32 in Hhi; [|exact Nl|exact Nhi].
  rewrite bisection_bisect_n in H by (auto; lia).
  inv_bind H. inversion H; subst; clear H.
  pose proof E as E'.
  apply (bisect_n_nested32 fuel pt order (rank32 (b_xr b)) (rank32 (b_xl b)))
    in E; auto; try lia.
  2,3: unfold LIM; change (2 ^ 277) with (4 * 2 ^ 275); lia.
  destruct E as (A1 & A2 & A3 & A4 & A5 & A6).
  split; [apply fle32; auto|]. split; [apply fle32; auto|].
  split; [apply fle32; auto|]. split; [apply A6; lia|].
  intros H4 H4'. destruct f32_four as (N4 & R4 & N4' & R4').
  apply fle32 in H4; [|exact N4'|exact Nr].
  apply fle32 in H4'; [|exact Nl|exact N4].
  apply bisect_n_width32 in E'; auto; try lia.
  rewrite Z2Nat.id in E' by lia. exact E'.
Qed.

(** X10 on the bracket from 1/2 to 1 with [nb = 2]: the final bracket has
    width [2^-4]. *)
Lemma bisection_keeps_bracket_at_nb_2 :
  exists b',
    bisection 20 [Some (f32 1 0); Some (f32 0 0)] 2 2
      {| b_psuml := f32 1 0; b_xl := f32 1 0; b_xr := f32 1 (-1);
         b_xm := f32 0 0 |} = Done (b', 3%nat) /\
    fle (f32 1 (-1)) (b_xr b') = true /\ fle (b_xr b') (b_xl b') = true /\
    fle (b_xl b') (f32 1 0) = true /\
    2 ^ 148 + 2 ^ 130 <= 8 * (rank32 (b_xl b') - rank32 (b_xr b') + 2 ^ 130).
Proof.
  assert (H : {b' | bisection 20 [Some (f32 1 0); Some (f32 0 0)] 2 2
                      {| b_psuml := f32 1 0; b_xl := f32 1 0;
                         b_xr := f32 1 (-1); b_xm := f32 0 0 |}
                    = Done (b', 3%nat)})
    by (eexists; vm_compute; reflexivity).
  destruct H as [b' H]. exists b'. split; [exact H|].
  destruct (bisection_keeps_bracket 20 [Some (f32 1 0); Some (f32 0 0)] 2 2
              {| b_psuml := f32 1 0; b_xl := f32 1 0; b_xr := f32 1 (-1);
                 b_xm := f32 0 0 |} b' 3)
    as (H1 & H2 & H3 & _ & H4).
  - unfold INT_MAX. lia.
  - simpl. lia.
  - reflexivity.
  - reflexivity.
  - reflexivity.
  - reflexivity.
  - reflexivity.
  - exact H.
  - split; [exact H1|]. split; [exact H2|]. split; [exact H3|].
    destruct H4 as [_ H4]; [reflexivity | reflexivity |]. exact H4.
Defined.

(** ** What [lsp_to_lpc] reads of [lsp] *)

(** A [for] loop depends on its body only at the indices it reaches. *)
Lemma for_loop_ext {St : Type} (cond : Z -> bool)
  (b1 b2 : Z -> St -> outcome St) (lo : Z) :
  (forall i s, lo <= i -> cond i = true -> b1 i s = b2 i s) ->
  forall fuel s, for_loop fuel lo cond b1 s = for_loop fuel lo cond b2 s.
Proof.
  intros Hb fuel s. unfold for_loop.
  assert (H : forall fuel p, lo <= fst p ->
            while_loop fuel (fun p => cond (fst p))
              (fun p => s' <- b1 (fst p) (snd p) ;;
                        i' <- int_add (fst p) 1 ;; Done (i', s')) p
            = while_loop fuel (fun p => cond (fst p))
                (fun p => s' <- b2 (fst p) (snd p) ;;
                          i' <- int_add (fst p) 1 ;; Done (i', s')) p).
  { clear fuel s. induction fuel as [|fuel IH]; intros p Hp; [reflexivity|].
    simpl. destruct (cond (fst p)) eqn:C; [|reflexivity].
    rewrite (Hb _ (snd p) Hp C).
    destruct (b2 (fst p) (snd p)) as [s'| |]; cbn [bind]; try reflexivity.
    destruct (int_add (fst p) 1) as [i'| |] eqn:E; cbn [bind];
      try reflexivity.
    apply int_add_inv in E. rewrite IH by (cbn [fst]; lia). reflexivity. }
  rewrite H by (cbn [fst]; lia). reflexivity.
Qed.

Lemma int_mul_inv (a b r : Z) : int_mul a b = Done r -> r = a * b.
Proof.
  unfold int_mul. destruct (in_int (a * b)); congruence.
Qed.

Section InputsRead.

Context {F : Type} {AF : Arith F}.

Variable cosf : F -> F.

(** Stage [i] reads the cells [2i] and [2i + 1] of [freq] and no other. *)
Lemma stage_reads (fr fr' : list (cell F)) (i : Z) (s : cascade) :
  load_cell fr (2 * i) = load_cell fr' (2 * i) ->
  load_cell fr (2 * i + 1) = load_cell fr' (2 * i + 1) ->
  stage fr i s = stage fr' i s.
Proof.
  intros H1 H2. unfold stage. cbv zeta.
  destruct (int_mul i 4) as [i4| |]; cbn [bind]; try reflexivity.
  destruct (int_mul 2 i) as [i2| |] eqn:E2; cbn [bind]; try reflexivity.
  apply int_mul_inv in E2. subst i2. rewrite H1.
  destruct (load_cell fr' (2 * i)) as [fa| |]; cbn [bind]; try reflexivity.
  destruct (load_cell (Wp s) (0 + i4)) as [w1| |]; cbn [bind];
    try reflexivity.
  destruct (load_cell (Wp s) (0 + i4 + 1)) as [w2| |]; cbn [bind];
    try reflexivity.
  destruct (int_add (2 * i) 1) as [i21| |] eqn:E3; cbn [bind];
    try reflexivity.
  apply int_add_inv in E3. subst i21. rewrite H2. reflexivity.
Qed.

(** X11.  For an odd order [lsp_to_lpc] runs [(order - 1) / 2] cascade
    stages, which use [lsp[0 .. order-2]]: the value of the last entry,
    [lsp[order-1]], has no effect on the result. *)
Theorem lsp_to_lpc_odd_order_ignores_last (fuel : nat) (lsp lsp' ak : list F)
  (order : Z) :
  Z.odd order = true -> 0 <= order -> 4 * order + 2 <= INT_MAX ->
  order <= Z.of_nat (length lsp) -> order <= Z.of_nat (length lsp') ->
  (Z.to_nat (4 * order + 2) < fuel)%nat ->
  (forall i, (i < Z.to_nat order - 1)%nat -> nth i lsp f0 = nth i lsp' f0) ->
  lsp_to_lpc cosf fuel lsp ak order = lsp_to_lpc cosf fuel lsp' ak order.
Proof.
  intros Hodd Ho Hmax Hl Hl' Hf Hagree.
  rewrite !lsp_to_lpc_unfold by (auto; lia). cbv zeta.
  destruct (quot2_bounds order Ho) as [HM0 HM1].
  assert (HM2 : 2 * Z.quot order 2 < order).
  { destruct (Z.eq_dec (2 * Z.quot order 2) order) as [E|E]; [|lia].
    rewrite <- E, Z.odd_mul in Hodd. discriminate. }
  unfold clock_loop.
  rewrite (for_loop_ext (fun j => j <=? order)
             (clock fuel (filled (fun k => cosf (nth k lsp f0))
                            (Z.to_nat order) 0) order)
             (clock fuel (filled (fun k => cosf (nth k lsp' f0))
                            (Z.to_nat order) 0) order) 0); [reflexivity|].
  intros j [c ak0] _ _. unfold clock. cbv beta iota.
  rewrite (for_loop_ext (fun i => i <? Z.quot order 2)
             (stage (filled (fun k => cosf (nth k lsp f0))
                       (Z.to_nat order) 0))
             (stage (filled (fun k => cosf (nth k lsp' f0))
                       (Z.to_nat order) 0)) 0); [reflexivity|].
  intros i s Hi Hc. apply Z.ltb_lt in Hc.
  apply stage_reads; rewrite !filled_load by lia; rewrite Hagree by lia;
    reflexivity.
Qed.

End InputsRead.

(** X11 at order 3: the third entry of [lsp] is 5 in one call and 6 in the
    other. *)
Lemma lsp_to_lpc_odd_order_ignores_last_at_order_3 :
  lsp_to_lpc (fun x : float32 => x) 20 [f32 1 (-1); f32 1 (-2); f32 5 0]
    [f32 7 0; f32 7 0; f32 7 0; f32 7 0] 3
  = lsp_to_lpc (fun x : float32 => x) 20 [f32 1 (-1); f32 1 (-2); f32 6 0]
      [f32 7 0; f32 7 0; f32 7 0; f32 7 0] 3.
Proof.
  apply (lsp_to_lpc_odd_order_ignores_last (F := float32)).
  - reflexivity.
  - lia.
  - unfold INT_MAX. lia.
  - simpl. lia.
  - simpl. lia.
  - simpl. lia.
  - intros [|[|i]] Hi; [reflexivity | reflexivity | simpl in Hi; lia].
Defined.

(** ** The further properties at concrete inputs *)

(** X2 at the odd order 3 in single precision: two roots are recorded, and
    the third entry is the stand-in for [acosf] applied to what was there. *)
Lemma lpc_to_lsp_output_past_root_count_at_order_3 :
  exists lsp,
    lpc_to_lsp (fun x : float32 => fadd x f1) 20
      [f32 1 0; f32 0 0; f32 0 0; f32 0 0] 3
      [f32 9 0; f32 9 0; f32 9 0; f32 5 0] 4 (f32 1 (-1)) = Done (2, lsp) /\
    nth_error lsp 2 = Some (f32 10 0) /\ nth_error lsp 3 = Some (f32 5 0).
Proof.
  assert (H : {lsp | lpc_to_lsp (fun x : float32 => fadd x f1) 20
                       [f32 1 0; f32 0 0; f32 0 0; f32 0 0] 3
                       [f32 9 0; f32 9 0; f32 9 0; f32 5 0] 4 (f32 1 (-1))
                     = Done (2, lsp)})
    by (eexists; vm_compute; reflexivity).
  destruct H as [lsp H]. exists lsp. split; [exact H|].
  destruct (lpc_to_lsp_output_past_root_count (F := float32)
              (fun x => fadd x f1) 20 [f32 1 0; f32 0 0; f32 0 0; f32 0 0] 3
              [f32 9 0; f32 9 0; f32 9 0; f32 5 0] 4 (f32 1 (-1)) 2 lsp)
    as (_ & H1 & H2).
  - unfold INT_MAX. lia.
  - simpl. lia.
  - simpl. lia.
  - simpl. lia.
  - exact H.
  - split.
    + rewrite (H1 2%nat) by (simpl; lia). reflexivity.
    + rewrite (H2 3%nat) by (simpl; lia). reflexivity.
Defined.

(** X3 at order 2: [a[0] = 1] and [a[0] = 7] give the same run. *)
Lemma lpc_to_lsp_ignores_first_coefficient_at_order_2 :
  lpc_to_lsp (fun x : float32 => x) 20 [f32 1 0; f32 0 0; f32 0 0] 2
    [f32 9 0; f32 9 0] 4 (f32 1 (-1))
  = lpc_to_lsp (fun x : float32 => x) 20 [f32 7 0; f32 0 0; f32 0 0] 2
      [f32 9 0; f32 9 0] 4 (f32 1 (-1)).
Proof.
  apply (lpc_to_lsp_ignores_first_coefficient (F := float32)).
  - unfold INT_MAX. lia.
  - simpl. lia.
  - simpl. lia.
  - simpl. lia.
Defined.

(** X6 at order 2 with an [ak] of four entries: the fourth is kept. *)
Lemma lsp_to_lpc_returns_and_frames_at_order_2 :
  exists ak',
    lsp_to_lpc (fun _ : float32 => f32 1 0) 20 [f32 0 0; f32 0 0]
      [f32 7 0; f32 7 0; f32 7 0; f32 5 0] 2 = Done ak' /\
    length ak' = 4%nat /\ nth_error ak' 3 = Some (f32 5 0).
Proof.
  destruct (lsp_to_lpc_returns_and_frames (F := float32)
              (fun _ => f32 1 0) 20 [f32 0 0; f32 0 0]
              [f32 7 0; f32 7 0; f32 7 0; f32 5 0] 2)
    as (ak' & H & Hlen & Hfr).
  - lia.
  - unfold INT_MAX. lia.
  - simpl. lia.
  - simpl. lia.
  - simpl. lia.
  - exists ak'. split; [exact H|]. split; [exact Hlen|].
    rewrite (Hfr 3%nat) by (simpl; lia). reflexivity.
Defined.

(** X7 at order 2, with a stand-in for [cosf] that returns 1. *)
Lemma lsp_to_lpc_unity_gain_at_order_2 :
  exists ak',
    lsp_to_lpc (fun _ : float32 => f32 1 0) 20 [f32 0 0; f32 0 0]
      [f32 7 0; f32 7 0; f32 7 0] 2 = Done ak' /\
    nth_error ak' 0 = Some (f32 1 0).
Proof.
  apply lsp_to_lpc_unity_gain.
  - lia.
  - unfold INT_MAX. lia.
  - simpl. lia.
  - simpl. lia.
  - simpl. lia.
  - intros i Hi. vm_compute. reflexivity.
Defined.

(** X8 at order 2, [a = [1; 0; 0]], [delta = 0.5], [nb = 4]. *)
Lemma lpc_to_lsp_roots_in_grid_cells_at_order_2 :
  (exists x, nth_error [f32 33 (-6); f32 (-1) (-1)] 0 = Some x /\
             in_cell (f32 1 (-1)) x) /\
  (exists x, nth_error [f32 33 (-6); f32 (-1) (-1)] 1 = Some x /\
             in_cell (f32 1 (-1)) x).
Proof.
  assert (H : forall i, (i < 2)%nat ->
            exists x, nth_error [f32 33 (-6); f32 (-1) (-1)] i = Some x /\
                      in_cell (f32 1 (-1)) x).
  { apply (lpc_to_lsp_roots_in_grid_cells (fun x => x) 20
             [f32 1 0; f32 0 0; f32 0 0] 2 [f32 9 0; f32 9 0] 4 (f32 1 (-1))
             2 [f32 33 (-6); f32 (-1) (-1)]).
    - unfold INT_MAX. lia.
    - simpl. lia.
    - simpl. lia.
    - simpl. lia.
    - simpl. lia.
    - unfold INT_MAX. lia.
    - reflexivity.
    - reflexivity.
    - reflexivity.
    - vm_compute. reflexivity. }
  split; apply H; lia.
Defined.

(** * The round trip *)

Section RoundTrip.

Context {F : Type} {AF : Arith F}.

Variable acosf : F -> F.
Variable cosf : F -> F.



End RoundTrip.



